(** * galaxy: the versioned map (utils/vmap.go) and the container runtime
      (runtime/runtime.go), embedded shallowly and checked against the
      specification.

    Layout: the embedding comes first (Go library models, then the two
    packages), the lemmas and the theorems of the specification follow. *)

From Stdlib Require Import ZArith String Ascii Lia.
From stdpp Require Import gmap strings list fin_maps.

Local Open Scope Z_scope.
Set Warnings "-clear-no-such-hyp".

(* ===================================================================== *)
(** * Part I: the embedding                                               *)
(* ===================================================================== *)

(** ** Go's [int64]: an integer in [-2^63, 2^63), arithmetic wraps around. *)
Module int64.
Definition min : Z := - 2 ^ 63.
Definition max : Z := 2 ^ 63 - 1.
Definition in_range (z : Z) : Prop := min <= z <= max.
Definition wrap (z : Z) : Z := (z + 2 ^ 63) mod 2 ^ 64 - 2 ^ 63.
Definition add (a b : Z) : Z := wrap (a + b).
Definition sub (a b : Z) : Z := wrap (a - b).
End int64.

(** ** Go strings are byte sequences; [>] compares them bytewise. *)
Module gostring.
(** [a > b] on Go strings. *)
Definition gtb (a b : string) : bool := String.ltb b a.
(** [a <= b], the order used to state which value wins a tie. *)
Definition le (a b : string) : Prop := gtb a b = false.
Definition is_empty (s : string) : bool :=
  match s with EmptyString => true | String _ _ => false end.
Definition colon : ascii := ":"%char.
Fixpoint has_byte (c : ascii) (s : string) : bool :=
  match s with
  | EmptyString => false
  | String a s' => if Ascii.eqb a c then true else has_byte c s'
  end.
End gostring.

(** ** The parts of Go's [strings] package the code calls. *)
Module strings.
(** [strings.Join(elems, sep)]. *)
Fixpoint Join (elems : list string) (sep : string) : string :=
  match elems with
  | [] => EmptyString
  | [e] => e
  | e :: rest => e +:+ sep +:+ Join rest sep
  end.

(** [strings.Split(s, sep)] for a separator of one byte: all the
    substrings between the separators, never the empty list. *)
Fixpoint Split (s : string) (sep : ascii) : list string :=
  match s with
  | EmptyString => [EmptyString]
  | String c s' =>
      if Ascii.eqb c sep then EmptyString :: Split s' sep
      else match Split s' sep with
           | h :: t => String c h :: t
           | [] => [String c EmptyString]
           end
  end.

(** [strings.Index(s, sep)] for a separator of one byte; [None] is Go's -1. *)
Fixpoint Index (s : string) (sep : ascii) : option nat :=
  match s with
  | EmptyString => None
  | String c s' =>
      if Ascii.eqb c sep then Some O else S <$> Index s' sep
  end.

(** [strings.HasPrefix(s, prefix)]. *)
Definition HasPrefix (s prefix : string) : bool := String.prefix prefix s.

(** [strings.TrimPrefix(s, prefix)]. *)
Definition TrimPrefix (s prefix : string) : string :=
  if HasPrefix s prefix
  then substring (String.length prefix)
                 (String.length s - String.length prefix) s
  else s.

(** [strings.Contains(s, substr)]. *)
Fixpoint Contains (s substr : string) : bool :=
  String.prefix substr s
  || match s with
     | EmptyString => false
     | String _ s' => Contains s' substr
     end.
End strings.

(** ** The parts of Go's [strconv] package the code calls, for base 10 and
       64 bits. *)
Module strconv.
Definition digit_char (d : Z) : ascii := ascii_of_N (48 + Z.to_N d).
Definition is_digit (c : ascii) : bool :=
  let n := Z.of_N (N_of_ascii c) in (48 <=? n) && (n <=? 57).
Definition digit_val (c : ascii) : Z := Z.of_N (N_of_ascii c) - 48.

(** The digit loop of [formatBits]: least significant digit first, written
    in front of what is already there.  A 64-bit number has at most 20
    digits, which bounds the loop. *)
Fixpoint formatBits (fuel : nat) (u : Z) (acc : string) : string :=
  match fuel with
  | O => acc
  | S fuel' =>
      let acc' := String (digit_char (u mod 10)) acc in
      if u / 10 =? 0 then acc' else formatBits fuel' (u / 10) acc'
  end.

(** [strconv.FormatInt(i, 10)]. *)
Definition FormatInt (i : Z) : string :=
  if i <? 0 then String "-"%char (formatBits 20 (- i) EmptyString)
  else formatBits 20 i EmptyString.

Fixpoint parseDigits (s : string) (n : Z) : option Z :=
  match s with
  | EmptyString => Some n
  | String c s' =>
      if is_digit c then parseDigits s' (n * 10 + digit_val c) else None
  end.

(** [strconv.ParseUint(s, 10, 64)]; [None] is a non-nil error (syntax or
    range). *)
Definition ParseUint (s : string) : option Z :=
  match s with
  | EmptyString => None
  | String _ _ =>
      match parseDigits s 0 with
      | Some n => if n <? 2 ^ 64 then Some n else None
      | None => None
      end
  end.

(** [strconv.ParseInt(s, 10, 64)]; [None] is a non-nil error. *)
Definition ParseInt (s : string) : option Z :=
  match s with
  | EmptyString => None
  | String c s' =>
      let neg := Ascii.eqb c "-"%char in
      let s1 := if Ascii.eqb c "+"%char || neg then s' else s in
      match ParseUint s1 with
      | None => None
      | Some un =>
          if negb neg && (2 ^ 63 <=? un) then None
          else if neg && (2 ^ 63 <? un) then None
          else Some (if neg then - un else un)
      end
  end.
End strconv.

(** ** Package utils: the versioned map of vmap.go. *)
Module utils.

Record mapEntry : Type := MapEntry { value : string; version : Z }.

(** The struct holds one Go map from keys to the slice of their entries. *)
Record VersionedMap : Type := { values : gmap string (list mapEntry) }.

(** [v.values[key]]: a missing key reads as the nil slice. *)
Definition entries_of (v : VersionedMap) (key : string) : list mapEntry :=
  default [] (values v !! key).

Definition NewVersionedMap : VersionedMap := {| values := ∅ |}.

(** The loop of [currentVersion]. *)
Definition currentVersion_step (next : Z) (e : mapEntry) : Z :=
  if version e >? next then version e else next.

Definition currentVersion (v : VersionedMap) (key : string) : Z :=
  foldl currentVersion_step 0 (entries_of v key).

Definition nextVersion (v : VersionedMap) (key : string) : Z :=
  int64.add (currentVersion v key) 1.

Definition SetVersion (v : VersionedMap) (key val : string) (ver : Z)
  : VersionedMap :=
  {| values := <[key := entries_of v key ++ [MapEntry val ver]]> (values v) |}.

Definition UnSetVersion (v : VersionedMap) (key : string) (ver : Z)
  : VersionedMap :=
  {| values :=
       <[key := entries_of v key ++ [MapEntry EmptyString ver]]> (values v) |}.

(** [Set]; the name is a keyword of Rocq, hence the underscore. *)
Definition Set_ (v : VersionedMap) (key val : string) : VersionedMap :=
  SetVersion v key val (nextVersion v key).

Definition UnSet (v : VersionedMap) (key : string) : VersionedMap :=
  UnSetVersion v key (nextVersion v key).

(** [mapEntry{}]: the zero value the scan of [Get] starts from. *)
Definition zeroEntry : mapEntry := MapEntry EmptyString 0.

(** One turn of the loop of [Get]: both [if]s, in the order of the source;
    the second one reads the [maxEntry] the first one may have replaced. *)
Definition Get_step (maxEntry entry : mapEntry) : mapEntry :=
  let maxEntry :=
    if version entry >? version maxEntry then entry else maxEntry in
  if (version entry =? version maxEntry)
     && gostring.gtb (value entry) (value maxEntry)
  then entry else maxEntry.

Definition Get (v : VersionedMap) (key : string) : string :=
  value (foldl Get_step zeroEntry (entries_of v key)).

Definition Keys (v : VersionedMap) : list string :=
  map_fold (λ k _ keys, keys ++ [k]) [] (values v).

Definition LatestVersion (v : VersionedMap) : Z :=
  map_fold (λ _ entries latest, foldl currentVersion_step latest entries)
           0 (values v).

(** [Merge]: one append per key of [other]; Go visits the keys in an
    unspecified order, [map_fold] in a fixed one, and every key is visited
    once. *)
Definition Merge (v other : VersionedMap) : VersionedMap :=
  map_fold (λ k entries v,
              {| values := <[k := entries_of v k ++ entries]> (values v) |})
           v (values other).

(** The record key ["<key>:<op>:<version>"] of an entry. *)
Definition op_of (e : mapEntry) : string :=
  if gostring.is_empty (value e) then "u"%string else "s"%string.

Definition mapKey (key : string) (e : mapEntry) : string :=
  strings.Join [key; op_of e; strconv.FormatInt (version e)] ":".

(** The inner loop of [MarshalMap]. *)
Definition marshal_step (key : string) (result : gmap string string)
           (e : mapEntry) : gmap string string :=
  <[mapKey key e := value e]> result.

Definition MarshalMap (v : VersionedMap) : gmap string string :=
  map_fold (λ key entries result, foldl (marshal_step key) result entries)
           ∅ (values v).

(** What a call that can fail or crash leaves behind: a nil error, a non-nil
    error (the receiver keeps what was applied before), or a run-time
    panic. *)
Inductive outcome : Type :=
| Done (v : VersionedMap)
| Failed (v : VersionedMap)
| Panicked.

(** The body of the loop of [UnmarshalMap] for one record. *)
Definition unmarshal_record (v : VersionedMap) (key val : string) : outcome :=
  let parts := strings.Split key gostring.colon in
  match parts !! 2%nat with
  | None => Panicked                         (* parts[2]: index out of range *)
  | Some p2 =>
      match strconv.ParseInt p2 with
      | None => Failed v
      | Some ver =>
          match parts !! 1%nat, parts !! 0%nat with
          | Some p1, Some p0 =>
              if String.eqb p1 "s" then Done (SetVersion v p0 val ver)
              else Done (UnSetVersion v p0 ver)
          | _, _ => Panicked
          end
      end
  end.

(** The loop of [UnmarshalMap] over the records in the order [records]. *)
Fixpoint UnmarshalRecords (records : list (string * string))
         (v : VersionedMap) : outcome :=
  match records with
  | [] => Done v
  | (key, val) :: rest =>
      match unmarshal_record v key val with
      | Done v' => UnmarshalRecords rest v'
      | stop => stop
      end
  end.

(** [UnmarshalMap]: Go ranges over [serialized] in an unspecified order;
    here it is the order of [map_to_list]. *)
Definition UnmarshalMap (v : VersionedMap) (serialized : gmap string string)
  : outcome :=
  UnmarshalRecords (map_to_list serialized) v.

(** The inner loop of [MarshalExpiredMap]; [currentVersion-age] is an
    [int64] subtraction. *)
Definition expired_step (key : string) (cur age : Z)
           (result : gmap string string) (e : mapEntry)
  : gmap string string :=
  if version e >=? int64.sub cur age then result
  else <[mapKey key e := value e]> result.

(** [MarshalExpiredMap] returns the records together with the receiver as
    the call leaves it. *)
Definition MarshalExpiredMap (v : VersionedMap) (age : Z)
  : gmap string string * VersionedMap :=
  (map_fold (λ key entries result,
               foldl (expired_step key (currentVersion v key) age)
                     result entries)
            ∅ (values v),
   v).

(** *** Vocabulary of the specification. *)

(** [a] does not beat [b]: lower version, or the same version and a value
    that is not greater. *)
Definition entry_le (a b : mapEntry) : Prop :=
  version a < version b
  ∨ (version a = version b ∧ gostring.le (value a) (value b)).

#[export] Instance mapEntry_eq_dec : EqDecision mapEntry.
Proof. solve_decision. Defined.

#[export] Instance entry_le_dec a b : Decision (entry_le a b).
Proof. unfold entry_le, gostring.le. apply _. Defined.

(** [e] is the entry of [l] with the highest version, the greatest value
    among those of that version. *)
Definition is_winner (e : mapEntry) (l : list mapEntry) : Prop :=
  e ∈ l ∧ ∀ e', e' ∈ l → entry_le e' e.

#[export] Instance is_winner_dec e l : Decision (is_winner e l).
Proof.
  refine (cast_if (decide (e ∈ l ∧ Forall (λ e', entry_le e' e) l)));
    unfold is_winner; rewrite <- Forall_forall; tauto.
Defined.

(** Two maps hold the same entries for every key, whatever the order and
    the number of copies. *)
Definition same_entries (a b : VersionedMap) : Prop :=
  ∀ key e, e ∈ entries_of a key ↔ e ∈ entries_of b key.

(** Every version fits Go's [int64]. *)
Definition well_typed (v : VersionedMap) : Prop :=
  ∀ key e, e ∈ entries_of v key → int64.in_range (version e).

(** No key holds two different values that are both set at one version:
    such entries share one record key. *)
Definition conflict_free (v : VersionedMap) : Prop :=
  ∀ key e1 e2,
    e1 ∈ entries_of v key → e2 ∈ entries_of v key →
    version e1 = version e2 →
    value e1 ≠ EmptyString → value e2 ≠ EmptyString →
    value e1 = value e2.

Definition colon_free_keys (v : VersionedMap) : Prop :=
  ∀ key, is_Some (values v !! key) → gostring.has_byte gostring.colon key = false.

(** *** Sample maps. *)

Definition replica_a : VersionedMap :=
  SetVersion (SetVersion NewVersionedMap "k" "x" 1) "k" "y" 2.

(** The entries of [replica_a], in another order and with a duplicate. *)
Definition replica_b : VersionedMap :=
  SetVersion (SetVersion (SetVersion NewVersionedMap "k" "y" 2) "k" "x" 1)
             "k" "y" 2.

Definition replica_c : VersionedMap :=
  SetVersion (SetVersion NewVersionedMap "j" "z" 7) "k" "" 2.

(** *** More vocabulary: the latest version, local histories, collection. *)

(** [z] is the highest version held by any key of [v], or 0 when all are
    lower. *)
Definition is_latest (v : VersionedMap) (z : Z) : Prop :=
  0 <= z
  ∧ (∀ key e, e ∈ entries_of v key → version e <= z)
  ∧ (z = 0 ∨ ∃ key e, e ∈ entries_of v key ∧ version e = z).

(** The maps a replica builds from the empty one by local writes alone. *)
Inductive local_only : VersionedMap → Prop :=
| local_new : local_only NewVersionedMap
| local_set v key val : local_only v → local_only (Set_ v key val)
| local_unset v key : local_only v → local_only (UnSet v key).

(** The versions [1; 2; ...; n]. *)
Definition versions_upto (n : nat) : list Z :=
  (λ i, Z.of_nat (S i)) <$> seq 0 n.

(** [v'] holds, for every key, the entries of [v] but those that
    [MarshalExpiredMap v age] returned a record for. *)
Definition collected (v : VersionedMap) (age : Z) (v' : VersionedMap) : Prop :=
  ∀ key e,
    e ∈ entries_of v' key ↔
    e ∈ entries_of v key
    ∧ fst (MarshalExpiredMap v age) !! mapKey key e = None.

(** A map with three local writes on two keys. *)
Definition local_sample : VersionedMap :=
  UnSet (Set_ (Set_ NewVersionedMap "k" "x") "j" "z") "k".

(** [replica_b] without the entry that [MarshalExpiredMap replica_b 0]
    returns. *)
Definition replica_b_collected : VersionedMap :=
  SetVersion (SetVersion NewVersionedMap "k" "y" 2) "k" "y" 2.

(** The number of colons in a string. *)
Fixpoint colons (s : string) : nat :=
  match s with
  | EmptyString => O
  | String c s' =>
      if Ascii.eqb c gostring.colon then S (colons s') else colons s'
  end.

(** The test of [MarshalExpiredMap], negated: the entry is returned. *)
Definition expired (v : VersionedMap) (age : Z) (key : string) (e : mapEntry)
  : bool :=
  negb (version e >=? int64.sub (currentVersion v key) age).

End utils.

(** ** The Docker client library, as far as the runtime package uses it. *)
Module docker.

(** Error values.  [ErrNoSuchImage] is the library's sentinel, compared by
    identity; every other error is known by its message. *)
Inductive error : Type :=
| ErrNoSuchImage
| ErrOther (msg : string).

(** [err.Error()]. *)
Definition Error (e : error) : string :=
  match e with
  | ErrNoSuchImage => "no such image"
  | ErrOther msg => msg
  end.

Record State : Type := { Running : bool; Restarting : bool; Paused : bool }.

(** [docker.Config], of which the runtime reads [Env]. *)
Record Config : Type := { Env : list string }.

(** [docker.Container].  [Config] is a pointer ([*docker.Config]): [None]
    is nil. *)
Record Container : Type := {
  ID : string;
  Name : string;
  Image : string;
  Container_Config : option Config;
  Container_State : State;
}.

Record ImageInfo : Type := { Image_ID : string }.

(** How a [StopContainer] request ends, seen from the caller that races it
    against its watchdog: the reply arrives first, or the deadline does. *)
Inductive StopReply : Type :=
| Replied (err : option error)
| Hangs.

(** The daemon behind the client: what it answers to each request.  The
    replies to the pull requests come in the order the requests are made;
    once they are used up a pull succeeds. *)
Record Daemon : Type := {
  ListContainers : list string * option error;
  InspectContainer : string → option Container * option error;
  InspectImage : string → option ImageInfo * option error;
  StopContainer : string → StopReply;
  PullImage : list (option error);
  registry : string → option ImageInfo * option error;
}.

Definition stopped (c : Container) : Container :=
  {| ID := ID c; Name := Name c; Image := Image c;
     Container_Config := Container_Config c;
     Container_State :=
       {| Running := false; Restarting := false;
          Paused := Paused (Container_State c) |} |}.

(** The daemon after a stop of [id] that completed without error. *)
Definition after_stop (id : string) (d : Daemon) : Daemon :=
  {| ListContainers := ListContainers d;
     InspectContainer := λ q,
       match InspectContainer d q with
       | (Some c, e) =>
           if String.eqb (ID c) id then (Some (stopped c), e) else (Some c, e)
       | r => r
       end;
     InspectImage := InspectImage d;
     StopContainer := StopContainer d;
     PullImage := PullImage d;
     registry := registry d |}.

(** The daemon after a pull request: the reply is used up, and a pull that
    succeeded makes the images of the registry the local ones. *)
Definition after_pull (d : Daemon) : Daemon :=
  {| ListContainers := ListContainers d;
     InspectContainer := InspectContainer d;
     InspectImage :=
       match PullImage d with
       | Some _ :: _ => InspectImage d
       | _ => registry d
       end;
     StopContainer := StopContainer d;
     PullImage := tail (PullImage d);
     registry := registry d |}.

End docker.

(** ** Package runtime: the stop family and [PullImage] of runtime.go. *)
Module runtime.
Import docker.

(** The application descriptor, [config.App], through its accessors. *)
Record App : Type := {
  App_Name : string;
  App_ID : Z;
  App_VersionID : string;
  App_Version : string;
}.

(** What the daemon was asked to do, in order. *)
Inductive request : Type :=
| StopContainer_req (id : string)
| PullImage_req.

(** The process: the daemon reached through [s.dockerClient], the pool
    assignments read through [s.configStore.ListAssignedPools], the
    package-level [blacklistedContainerId], and two ghost logs: the ids
    [stopContainer] was called with, and the requests sent to the daemon. *)
Record World : Type := {
  dockerClient : Daemon;
  ListAssignedPools : string → string → list string * option error;
  blacklistedContainerId : gmap string bool;
  stop_calls : list string;
  requests : list request;
}.

(** A call returns a value and the world it leaves, or panics, or is cut
    off when the loop bound given to it is used up. *)
Inductive outcome (A : Type) : Type :=
| Returned (a : A) (w : World)
| Panicked
| OutOfFuel.
Arguments Returned {A} a w.
Arguments Panicked {A}.
Arguments OutOfFuel {A}.

Definition M (A : Type) : Type := World → outcome A.

#[export] Instance M_ret : MRet M := λ A a w, Returned a w.
#[export] Instance M_bind : MBind M := λ A B f m w,
  match m w with
  | Returned a w' => f a w'
  | Panicked => Panicked
  | OutOfFuel => OutOfFuel
  end.

Definition panic {A} : M A := λ _, Panicked.
Definition get_world : M World := λ w, Returned w w.

(** [m[key]] on a [map[string]string]: a missing key reads as [""]. *)
Definition index (m : gmap string string) (key : string) : string :=
  default EmptyString (m !! key).

(** The loop of [EnvFor]; [item[0:sep]] panics when the item has no ["="]
    ([sep] is then -1).  [None] is a panic. *)
Fixpoint EnvFor_loop (items : list string) (env : gmap string string)
  : option (gmap string string) :=
  match items with
  | [] => Some env
  | item :: rest =>
      match strings.Index item "="%char with
      | None => None
      | Some sep =>
          let k := substring 0 sep item in
          let v := substring (S sep) (String.length item - S sep) item in
          EnvFor_loop rest (<[k := v]> env)
      end
  end.

(** [EnvFor]: [container.Config.Env] panics on a container without
    [Config], a nil pointer. *)
Definition EnvFor (container : Container) : option (gmap string string) :=
  match Container_Config container with
  | None => None
  | Some config => EnvFor_loop (Env config) ∅
  end.

Definition EnvFor_m (container : Container) : M (gmap string string) :=
  match EnvFor container with
  | Some env => mret env
  | None => panic
  end.

(** The loop of [ManagedContainers]; [None] is a panic. *)
Fixpoint ManagedContainers_loop (d : Daemon) (ids : list string)
         (apps : list Container) : option (list Container) :=
  match ids with
  | [] => Some apps
  | id :: rest =>
      match InspectContainer d id with
      | (_, Some _) => ManagedContainers_loop d rest apps
      | (None, None) => None
      | (Some container, None) =>
          match EnvFor container with
          | None => None
          | Some env =>
              let name := index env "GALAXY_APP" in
              if negb (gostring.is_empty name)
                 && (Running (Container_State container)
                     || Restarting (Container_State container))
              then ManagedContainers_loop d rest (apps ++ [container])
              else ManagedContainers_loop d rest apps
          end
      end
  end.

Definition ManagedContainers : M (list Container * option error) := λ w,
  match ListContainers (dockerClient w) with
  | (_, Some err) => Returned ([], Some err) w
  | (ids, None) =>
      match ManagedContainers_loop (dockerClient w) ids [] with
      | Some apps => Returned (apps, None) w
      | None => Panicked
      end
  end.

Definition InspectImage_m (image : string)
  : M (option ImageInfo * option error) :=
  λ w, Returned (InspectImage (dockerClient w) image) w.

Definition with_client (d : Daemon) (w : World) : World :=
  {| dockerClient := d;
     ListAssignedPools := ListAssignedPools w;
     blacklistedContainerId := blacklistedContainerId w;
     stop_calls := stop_calls w;
     requests := requests w |}.

Definition with_blacklist (b : gmap string bool) (w : World) : World :=
  {| dockerClient := dockerClient w;
     ListAssignedPools := ListAssignedPools w;
     blacklistedContainerId := b;
     stop_calls := stop_calls w;
     requests := requests w |}.

Definition log_call (id : string) (w : World) : World :=
  {| dockerClient := dockerClient w;
     ListAssignedPools := ListAssignedPools w;
     blacklistedContainerId := blacklistedContainerId w;
     stop_calls := stop_calls w ++ [id];
     requests := requests w |}.

Definition log_request (r : request) (w : World) : World :=
  {| dockerClient := dockerClient w;
     ListAssignedPools := ListAssignedPools w;
     blacklistedContainerId := blacklistedContainerId w;
     stop_calls := stop_calls w;
     requests := requests w ++ [r] |}.

(** [stopContainer].  The goroutine and the [select] are the race the
    daemon's [StopReply] decides; [container.ID[0:12]] in the first log
    line panics on an id shorter than 12 bytes. *)
Definition stopContainer (container : Container) : M (option error) := λ w0,
  let w := log_call (ID container) w0 in
  match blacklistedContainerId w !! ID container with
  | Some _ => Returned None w
  | None =>
      if (String.length (ID container) <? 12)%nat then Panicked
      else
        let w1 := log_request (StopContainer_req (ID container)) w in
        match StopContainer (dockerClient w) (ID container) with
        | Replied (Some err) => Returned (Some err) w1
        | Hangs =>
            Returned None
              (with_blacklist
                 (<[ID container := true]> (blacklistedContainerId w1)) w1)
        | Replied None =>
            Returned None
              (with_client (after_stop (ID container) (dockerClient w1)) w1)
        end
  end.

Fixpoint StopAllMatching_loop (name : string) (containers : list Container)
  : M (option error) :=
  match containers with
  | [] => mret None
  | container :: rest =>
      env ← EnvFor_m container;
      if negb (String.eqb (index env "GALAXY_APP") name)
      then StopAllMatching_loop name rest
      else _ ← stopContainer container; StopAllMatching_loop name rest
  end.

Definition StopAllMatching (name : string) : M (option error) :=
  r ← ManagedContainers;
  match r with
  | (_, Some err) => mret (Some err)
  | (containers, None) => StopAllMatching_loop name containers
  end.

(** The condition under which [Stop] stops a container. *)
Definition Stop_matches (appCfg : App) (container : Container)
           (cenv : gmap string string) : bool :=
  String.eqb (index cenv "GALAXY_APP") (App_Name appCfg)
  && String.eqb (index cenv "GALAXY_VERSION")
                (strconv.FormatInt (App_ID appCfg))
  && String.eqb (App_VersionID appCfg) (Image container).

Fixpoint Stop_loop (appCfg : App) (containers : list Container)
  : M (option error) :=
  match containers with
  | [] => mret None
  | container :: rest =>
      cenv ← EnvFor_m container;
      if Stop_matches appCfg container cenv
      then stopContainer container          (* return s.stopContainer(...) *)
      else Stop_loop appCfg rest
  end.

Definition Stop (appCfg : App) : M (option error) :=
  r ← ManagedContainers;
  match r with
  | (_, Some err) => mret (Some err)
  | (containers, None) => Stop_loop appCfg containers
  end.

(** [imageDiffers || versionDiffers]. *)
Definition differs (appCfg : App) (image : ImageInfo)
           (env : gmap string string) : bool :=
  let version := index env "GALAXY_VERSION" in
  let imageDiffers :=
    negb (String.eqb (Image_ID image) (App_VersionID appCfg))
    && negb (gostring.is_empty (App_VersionID appCfg)) in
  let versionDiffers :=
    negb (String.eqb version (strconv.FormatInt (App_ID appCfg)))
    && negb (gostring.is_empty version) in
  imageDiffers || versionDiffers.

(** The loop of [StopOldVersion].  [stopped] counts slice elements, so it
    stays far below the bound of Go's [int]. *)
Fixpoint StopOldVersion_loop (appCfg : App) (limit stopped : Z)
         (containers : list Container) : M (option error) :=
  match containers with
  | [] => mret None
  | container :: rest =>
      if stopped =? limit then mret None
      else
        env ← EnvFor_m container;
        if negb (String.eqb (index env "GALAXY_APP") (App_Name appCfg))
        then StopOldVersion_loop appCfg limit stopped rest
        else
          r ← InspectImage_m (Image container);
          match r with
          | (_, Some _) => StopOldVersion_loop appCfg limit stopped rest
          | (None, None) =>
              if (String.length (ID container) <? 12)%nat then panic
              else StopOldVersion_loop appCfg limit stopped rest
          | (Some image, None) =>
              if differs appCfg image env
              then _ ← stopContainer container;
                   StopOldVersion_loop appCfg limit (stopped + 1) rest
              else StopOldVersion_loop appCfg limit stopped rest
          end
  end.

Definition StopOldVersion (appCfg : App) (limit : Z) : M (option error) :=
  r ← ManagedContainers;
  match r with
  | (_, Some err) => mret (Some err)
  | (containers, None) => StopOldVersion_loop appCfg limit 0 containers
  end.

Fixpoint StopAllButCurrentVersion_loop (appCfg : App)
         (containers : list Container) : M (option error) :=
  match containers with
  | [] => mret None
  | container :: rest =>
      env ← EnvFor_m container;
      if negb (String.eqb (index env "GALAXY_APP") (App_Name appCfg))
      then StopAllButCurrentVersion_loop appCfg rest
      else
        r ← InspectImage_m (Image container);
        match r with
        | (_, Some _) => StopAllButCurrentVersion_loop appCfg rest
        | (None, None) =>
            if (String.length (ID container) <? 12)%nat then panic
            else StopAllButCurrentVersion_loop appCfg rest
        | (Some image, None) =>
            if differs appCfg image env
            then _ ← stopContainer container;
                 StopAllButCurrentVersion_loop appCfg rest
            else StopAllButCurrentVersion_loop appCfg rest
        end
  end.

Definition StopAllButCurrentVersion (appCfg : App) : M (option error) :=
  r ← ManagedContainers;
  match r with
  | (_, Some err) => mret (Some err)
  | (containers, None) => StopAllButCurrentVersion_loop appCfg containers
  end.

(** Modelled from the spec: [utils.StringInSlice], which is not among the
    sources; the specification speaks of pool-assignment membership. *)
Definition StringInSlice (s : string) (l : list string) : bool :=
  existsb (String.eqb s) l.

Fixpoint StopUnassigned_loop (env pool : string)
         (containers : list Container) : M (option error) :=
  match containers with
  | [] => mret None
  | container :: rest =>
      cenv ← EnvFor_m container;
      w ← get_world;
      match ListAssignedPools w env (index cenv "GALAXY_APP") with
      | (_, Some _) => StopUnassigned_loop env pool rest
      | (pools, None) =>
          if (length pools =? 0)%nat || negb (StringInSlice pool pools)
          then _ ← stopContainer container;
               StopUnassigned_loop env pool rest
          else StopUnassigned_loop env pool rest
      end
  end.

Definition StopUnassigned (env pool : string) : M (option error) :=
  r ← ManagedContainers;
  match r with
  | (_, Some err) => mret (Some err)
  | (containers, None) => StopUnassigned_loop env pool containers
  end.

Fixpoint StopAll_loop (containers : list Container) : M (option error) :=
  match containers with
  | [] => mret None
  | c :: rest => _ ← stopContainer c; StopAll_loop rest
  end.

Definition StopAll (env : string) : M (option error) :=
  r ← ManagedContainers;
  match r with
  | (_, Some err) => mret (Some err)
  | (containers, None) => StopAll_loop containers
  end.

(** The world after one pull request. *)
Definition after_request (w : World) : World :=
  with_client (after_pull (dockerClient w)) (log_request PullImage_req w).

(** One pull request to the daemon. *)
Definition dockerClient_PullImage : M (option error) := λ w,
  let reply := match PullImage (dockerClient w) with
               | r :: _ => r
               | [] => None
               end in
  Returned reply (after_request w).

(** The [for] loop of [PullImage]: [inl] is a [return] from inside the
    loop, [inr tt] is the [break].  The source has no loop bound of its
    own; [fuel] is the bound given to the model. *)
Fixpoint PullImage_loop (fuel : nat) (retries : Z) (image : option ImageInfo)
  : M ((option ImageInfo * option error) + unit) :=
  match fuel with
  | O => λ _, OutOfFuel
  | S fuel' =>
      let retries := retries + 1 in
      err ← dockerClient_PullImage;
      match err with
      | Some e =>
          if String.eqb (Error e) "HTTP code: 404" then mret (inl (image, None))
          else if retries >? 3 then mret (inl (image, Some e))
          else PullImage_loop fuel' retries image
      | None => mret (inr tt)
      end
  end.

Definition is_ErrNoSuchImage (e : error) : bool :=
  match e with ErrNoSuchImage => true | ErrOther _ => false end.

Definition image_has_id (image : option ImageInfo) (id : string) : bool :=
  match image with
  | Some i => String.eqb (Image_ID i) id
  | None => false
  end.

(** [PullImage].  The pull options (registry, repository, tag, credentials)
    shape the request only and are left out. *)
Definition PullImage (fuel : nat) (version id : string)
  : M (option ImageInfo * option error) :=
  r ← InspectImage_m version;
  let '(image, err) := r in
  match err with
  | Some e =>
      if negb (is_ErrNoSuchImage e) then mret (None, Some e)
      else if image_has_id image id then mret (image, None)
      else
        out ← PullImage_loop fuel 0 image;
        match out with
        | inl result => mret result
        | inr _ => InspectImage_m version
        end
  | None =>
      if image_has_id image id then mret (image, None)
      else
        out ← PullImage_loop fuel 0 image;
        match out with
        | inl result => mret result
        | inr _ => InspectImage_m version
        end
  end.

(** *** Vocabulary of the specification. *)

(** The application tag of a container. *)
Definition app_of (c : Container) : string :=
  index (default ∅ (EnvFor c)) "GALAXY_APP".

Definition version_of (c : Container) : string :=
  index (default ∅ (EnvFor c)) "GALAXY_VERSION".

(** The filter of [StopAllMatching]. *)
Definition tagged (name : string) (c : Container) : bool :=
  String.eqb (app_of c) name.

(** The filter of [Stop]. *)
Definition current (appCfg : App) (c : Container) : bool :=
  Stop_matches appCfg c (default ∅ (EnvFor c)).

(** The filter of [StopOldVersion] and [StopAllButCurrentVersion]: tagged
    with the application, image inspected, image id or version differing. *)
Definition outdated (d : Daemon) (appCfg : App) (c : Container) : bool :=
  tagged (App_Name appCfg) c
  && match InspectImage d (Image c) with
     | (Some image, None) => differs appCfg image (default ∅ (EnvFor c))
     | _ => false
     end.

(** The filter of [StopUnassigned]. *)
Definition unassigned (w : World) (env pool : string) (c : Container) : bool :=
  match ListAssignedPools w env (app_of c) with
  | (_, Some _) => false
  | (pools, None) => (length pools =? 0)%nat || negb (StringInSlice pool pools)
  end.

(** [PullImage] has to pull: the first inspection did not fail (the
    sentinel apart) and found no image with the wanted id. *)
Definition must_pull (w : World) (version id : string) : bool :=
  match InspectImage (dockerClient w) version with
  | (image, Some e) => is_ErrNoSuchImage e && negb (image_has_id image id)
  | (image, None) => negb (image_has_id image id)
  end.

(** A transient failure of a pull: any error but the 404 one. *)
Definition transient (e : error) : bool :=
  negb (String.eqb (Error e) "HTTP code: 404").

(** The number of pull requests in a log. *)
Fixpoint pulls_in (l : list request) : nat :=
  match l with
  | [] => O
  | PullImage_req :: rest => S (pulls_in rest)
  | StopContainer_req _ :: rest => pulls_in rest
  end.

(** A container the stop family can handle without a panic: [EnvFor] returns
    on it (it has a [Config], whose environment entries all have a ["="]),
    and its id has the 12 bytes the log lines print. *)
Definition stoppable (c : Container) : Prop :=
  is_Some (EnvFor c) ∧ (12 <= String.length (ID c))%nat.

(** [w'] differs from [w] by calls of [stopContainer] on [ids], in that
    order: the images and the pool assignments are the same, and so is every
    container whose id is not among [ids]. *)
Record stops_only (ids : list string) (w w' : World) : Prop := {
  so_calls : stop_calls w' = stop_calls w ++ ids;
  so_images :
    InspectImage (dockerClient w') = InspectImage (dockerClient w);
  so_pools : ListAssignedPools w' = ListAssignedPools w;
  so_untouched : ∀ q,
    (∀ c e, InspectContainer (dockerClient w) q = (Some c, e) → ID c ∉ ids) →
    InspectContainer (dockerClient w') q = InspectContainer (dockerClient w) q;
}.

(** From [w] to [w'] no id left the blacklist, and a stop request went to the
    daemon only for ids that were not blacklisted in [w]. *)
Definition keeps_blacklist (w w' : World) : Prop :=
  (∀ id, is_Some (blacklistedContainerId w !! id) →
         is_Some (blacklistedContainerId w' !! id))
  ∧ ∃ new, requests w' = requests w ++ new
           ∧ ∀ id, StopContainer_req id ∈ new →
                   blacklistedContainerId w !! id = None.

Definition preserving {A} (m : M A) : Prop :=
  ∀ w a w', m w = Returned a w' → keeps_blacklist w w'.

(** The operations of the stop family, as calls a process can make. *)
Inductive Op : Type :=
| Op_Stop (appCfg : App)
| Op_StopAllMatching (name : string)
| Op_StopOldVersion (appCfg : App) (limit : Z)
| Op_StopAllButCurrentVersion (appCfg : App)
| Op_StopUnassigned (env pool : string)
| Op_StopAll (env : string)
| Op_stopContainer (c : Container)
| Op_daemon (d : Daemon).       (* the daemon changes on its own *)

Definition run (op : Op) : M (option error) :=
  match op with
  | Op_Stop appCfg => Stop appCfg
  | Op_StopAllMatching name => StopAllMatching name
  | Op_StopOldVersion appCfg limit => StopOldVersion appCfg limit
  | Op_StopAllButCurrentVersion appCfg => StopAllButCurrentVersion appCfg
  | Op_StopUnassigned env pool => StopUnassigned env pool
  | Op_StopAll env => StopAll env
  | Op_stopContainer c => stopContainer c
  | Op_daemon d => λ w, Returned None (with_client d w)
  end.

(** A run of operations, one after the other, whatever they return. *)
Fixpoint run_all (ops : list Op) : M unit :=
  match ops with
  | [] => mret tt
  | op :: rest => _ ← run op; run_all rest
  end.


(** *** More of the package. *)

(** The loop of [instanceIds] over the managed containers; a panic ([None])
    comes from [EnvFor], or from [c.ID[:12]] in the warning about an
    instance number that does not parse.  Go's [int] has 64 bits here, so
    [int(i)] keeps the number. *)
Fixpoint instanceIds_loop (app versionId : string)
         (containers : list Container) (instances : list Z)
  : option (list Z) :=
  match containers with
  | [] => Some instances
  | c :: rest =>
      match EnvFor c with
      | None => None
      | Some env =>
          let ga := index env "GALAXY_APP" in
          if negb (String.eqb ga app)
          then instanceIds_loop app versionId rest instances
          else
            let gi := index env "GALAXY_INSTANCE" in
            let gv := index env "GALAXY_VERSION" in
            if negb (gostring.is_empty gi) then
              match strconv.ParseInt gi with
              | None =>
                  if (String.length (ID c) <? 12)%nat then None
                  else instanceIds_loop app versionId rest instances
              | Some i =>
                  if negb (gostring.is_empty versionId)
                     && negb (String.eqb gv versionId)
                  then instanceIds_loop app versionId rest instances
                  else instanceIds_loop app versionId rest (instances ++ [i])
              end
            else instanceIds_loop app versionId rest instances
      end
  end.

Definition instanceIds (app versionId : string) : M (list Z * option error) :=
  r ← ManagedContainers;
  match r with
  | (_, Some err) => mret ([], Some err)
  | (containers, None) =>
      match instanceIds_loop app versionId containers [] with
      | Some instances => mret (instances, None)
      | None => panic
      end
  end.

Definition InstanceCount (app versionId : string) : M (Z * option error) :=
  r ← instanceIds app versionId;
  mret (Z.of_nat (length (fst r)), snd r).

(** *** More vocabulary. *)

Definition equals_sign : ascii := "="%char.

(** The environment entry [item] is [k=v], read at its first ["="]. *)
Definition binds (k v item : string) : Prop :=
  item = k +:+ String equals_sign v
  ∧ gostring.has_byte equals_sign k = false.

(** What [ManagedContainers] keeps of a listed id. *)
Definition managed_answer (d : Daemon) (id : string) : option Container :=
  match InspectContainer d id with
  | (Some c, None) =>
      if negb (gostring.is_empty (app_of c))
         && (Running (Container_State c) || Restarting (Container_State c))
      then Some c else None
  | _ => None
  end.

(** The instance number of a container, when it is tagged with one that
    parses. *)
Definition instance_of (c : Container) : option Z :=
  let gi := index (default ∅ (EnvFor c)) "GALAXY_INSTANCE" in
  if gostring.is_empty gi then None else strconv.ParseInt gi.

(** The containers [instanceIds] counts. *)
Definition counted (app versionId : string) (c : Container) : bool :=
  tagged app c
  && bool_decide (is_Some (instance_of c))
  && (gostring.is_empty versionId || String.eqb (version_of c) versionId).

(** From [w] to [w']: the logs only grew, by [calls] and [new]; each new
    request is a stop request for an id [stopContainer] was called with; and
    each id new to the blacklist was sent a stop request. *)
Definition grows (w w' : World) : Prop :=
  ∃ calls new,
    stop_calls w' = stop_calls w ++ calls
    ∧ requests w' = requests w ++ new
    ∧ (length new <= length calls)%nat
    ∧ (∀ r, r ∈ new → ∃ id, r = StopContainer_req id ∧ id ∈ calls)
    ∧ (∀ id, is_Some (blacklistedContainerId w' !! id) →
             is_Some (blacklistedContainerId w !! id)
             ∨ StopContainer_req id ∈ new)
    ∧ (∀ id b, blacklistedContainerId w' !! id = Some b →
               blacklistedContainerId w !! id = Some b ∨ b = true).

Definition growing {A} (m : M A) : Prop :=
  ∀ w a w', m w = Returned a w' → grows w w'.

(** A container whose environment can be read: it has a [Config], and every
    entry of its [Env] contains an ["="]. *)
Definition readable (c : Container) : Prop :=
  ∃ config,
    Container_Config c = Some config
    ∧ Forall (λ item, gostring.has_byte equals_sign item = true) (Env config).

(** A listed id [ManagedContainers] can handle without a panic: the daemon
    does not answer with neither a container nor an error, and the
    container it answers with is [readable]. *)
Definition inspectable (d : Daemon) (id : string) : Prop :=
  match InspectContainer d id with
  | (None, None) => False
  | (Some c, None) => readable c
  | (_, Some _) => True
  end.

(** [parseHost], in its two parts.  The result is Go's triple; an error is
    known by its message.  [strings.TrimSpace] is taken as it is from the
    library: [TrimSpace] stands for it.  [strconv.Atoi] is [ParseInt] in base
    10 for the 64 bits of [int], and [%d] prints it as [FormatInt] does. *)
Definition format_error (addr : string) : string * string * option string :=
  (EmptyString, EmptyString, Some ("Invalid bind address format: " +:+ addr)).

(** The [switch], on the trimmed address: [inl] goes on with a protocol and
    an address, [inr] returns. *)
Definition parseHost_switch (addr : string)
  : (string * string) + (string * string * option string) :=
  if String.eqb addr "tcp://" then inr (format_error addr)
  else if strings.HasPrefix addr "unix://" then
    let addr := strings.TrimPrefix addr "unix://" in
    inl ("unix"%string,
         if String.eqb addr "" then "/var/run/docker.sock"%string else addr)
  else if strings.HasPrefix addr "tcp://" then
    inl ("tcp"%string, strings.TrimPrefix addr "tcp://")
  else if strings.HasPrefix addr "fd://" then
    inr ("fd"%string, addr, None)
  else if String.eqb addr "" then
    inl ("unix"%string, "/var/run/docker.sock"%string)
  else if strings.Contains addr "://" then
    inr (EmptyString, EmptyString,
         Some ("Invalid bind address protocol: " +:+ addr))
  else inl ("tcp"%string, addr).

(** What follows the [switch]. *)
Definition parseHost_address (proto addr : string)
  : string * string * option string :=
  if negb (String.eqb proto "unix") && strings.Contains addr ":" then
    let hostParts := strings.Split addr gostring.colon in
    if negb (length hostParts =? 2)%nat then format_error addr
    else
      let host :=
        if negb (String.eqb (nth 0 hostParts EmptyString) "")
        then nth 0 hostParts EmptyString
        else "127.0.0.1"%string in
      match strconv.ParseInt (nth 1 hostParts EmptyString) with
      | Some p =>
          if negb (p =? 0)
          then (proto, host +:+ ":" +:+ strconv.FormatInt p, None)
          else format_error addr
      | None => format_error addr
      end
  else if String.eqb proto "tcp" && negb (strings.Contains addr ":")
  then format_error addr
  else
    (* host = addr, port = 0 *)
    if String.eqb proto "unix" then (proto, addr, None)
    else (proto, addr +:+ ":" +:+ strconv.FormatInt 0, None).

Definition parseHost (TrimSpace : string → string) (addr : string)
  : string * string * option string :=
  match parseHost_switch (TrimSpace addr) with
  | inr result => result
  | inl (proto, addr) => parseHost_address proto addr
  end.

(** The address that [parseHost] returns for the protocol tcp. *)
Definition tcp_address (host : string) (port : Z) : string :=
  (if String.eqb host "" then "127.0.0.1"%string else host)
    +:+ ":" +:+ strconv.FormatInt port.

End runtime.

(** ** Sample worlds. *)
Module sample.
Import docker runtime.

Definition id1 : string := "0123456789ab01".
Definition id2 : string := "0123456789ab02".

Definition running : State :=
  {| Running := true; Restarting := false; Paused := false |}.

(** Two instances of application web, both of version 7 and image img7. *)
Definition web_0 : Container :=
  {| ID := id1; Name := "/web.0"; Image := "img7";
     Container_Config :=
       Some {| Env := ["GALAXY_APP=web"; "GALAXY_VERSION=7";
                       "GALAXY_INSTANCE=0"] |};
     Container_State := running |}.

Definition web_1 : Container :=
  {| ID := id2; Name := "/web.1"; Image := "img7";
     Container_Config :=
       Some {| Env := ["GALAXY_APP=web"; "GALAXY_VERSION=7";
                       "GALAXY_INSTANCE=1"] |};
     Container_State := running |}.

Definition timeout : option error := Some (ErrOther "i/o timeout").

(** A daemon that stops containers at once, and whose pulls all time out. *)
Definition daemon0 : Daemon :=
  {| ListContainers := ([id1; id2], None);
     InspectContainer := λ q,
       if String.eqb q id1 then (Some web_0, None)
       else if String.eqb q id2 then (Some web_1, None)
       else (None, Some (ErrOther "no such container"));
     InspectImage := λ _, (Some {| Image_ID := "img7" |}, None);
     StopContainer := λ _, Replied None;
     docker.PullImage := [timeout; timeout; timeout; timeout; timeout];
     registry := λ _, (Some {| Image_ID := "img8" |}, None) |}.

(** The same daemon, with stops that never complete. *)
Definition daemon_hung : Daemon :=
  {| ListContainers := ListContainers daemon0;
     InspectContainer := InspectContainer daemon0;
     InspectImage := InspectImage daemon0;
     StopContainer := λ _, Hangs;
     docker.PullImage := docker.PullImage daemon0;
     registry := registry daemon0 |}.

(** The same daemon, with images that cannot be inspected. *)
Definition daemon_blind : Daemon :=
  {| ListContainers := ListContainers daemon0;
     InspectContainer := InspectContainer daemon0;
     InspectImage := λ _, (None, Some ErrNoSuchImage);
     StopContainer := StopContainer daemon0;
     docker.PullImage := docker.PullImage daemon0;
     registry := registry daemon0 |}.

Definition world_of (d : Daemon) : World :=
  {| dockerClient := d;
     ListAssignedPools := λ _ _, ([], None);
     blacklistedContainerId := ∅;
     stop_calls := [];
     requests := [] |}.

Definition world0 : World := world_of daemon0.
Definition world_hung : World := world_of daemon_hung.
Definition world_blind : World := world_of daemon_blind.

Definition web7 : App :=
  {| App_Name := "web"; App_ID := 7; App_VersionID := "img7";
     App_Version := "registry/web:7" |}.

Definition web8 : App :=
  {| App_Name := "web"; App_ID := 8; App_VersionID := "img8";
     App_Version := "registry/web:8" |}.


(** A daemon that cannot list its containers. *)
Definition daemon_down : Daemon :=
  {| ListContainers := ([], Some (ErrOther "cannot connect"));
     InspectContainer := InspectContainer daemon0;
     InspectImage := InspectImage daemon0;
     StopContainer := StopContainer daemon0;
     docker.PullImage := docker.PullImage daemon0;
     registry := registry daemon0 |}.

Definition world_down : World := world_of daemon_down.

(** A container that the daemon describes without [Config], and a daemon
    that answers the second id with it. *)
Definition web_bare : Container :=
  {| ID := id2; Name := "/web.1"; Image := "img7";
     Container_Config := None;
     Container_State := running |}.

Definition daemon_bare : Daemon :=
  {| ListContainers := ListContainers daemon0;
     InspectContainer := λ q,
       if String.eqb q id2 then (Some web_bare, None)
       else InspectContainer daemon0 q;
     InspectImage := InspectImage daemon0;
     StopContainer := StopContainer daemon0;
     docker.PullImage := docker.PullImage daemon0;
     registry := registry daemon0 |}.

Definition world_bare : World := world_of daemon_bare.

(** A daemon whose first two pulls time out and whose third one succeeds. *)
Definition daemon_flaky : Daemon :=
  {| ListContainers := ListContainers daemon0;
     InspectContainer := InspectContainer daemon0;
     InspectImage := InspectImage daemon0;
     StopContainer := StopContainer daemon0;
     docker.PullImage := [timeout; timeout; None];
     registry := registry daemon0 |}.

(** A daemon whose second pull finds no such image in the registry. *)
Definition daemon_missing : Daemon :=
  {| ListContainers := ListContainers daemon0;
     InspectContainer := InspectContainer daemon0;
     InspectImage := InspectImage daemon0;
     StopContainer := StopContainer daemon0;
     docker.PullImage := [timeout; Some (ErrOther "HTTP code: 404"); None];
     registry := registry daemon0 |}.

Definition world_flaky : World := world_of daemon_flaky.
Definition world_missing : World := world_of daemon_missing.

(** A third container of web: its instance number does not parse. *)
Definition web_x : Container :=
  {| ID := "0123456789ab03"; Name := "/web.x"; Image := "img8";
     Container_Config :=
       Some {| Env := ["GALAXY_APP=web"; "GALAXY_VERSION=8";
                       "GALAXY_INSTANCE=one"] |};
     Container_State := running |}.

End sample.

(* ===================================================================== *)
(** * Part II: lemmas and theorems                                        *)
(* ===================================================================== *)

Import utils.

Example get_tie_break_set_set :
  Get (SetVersion (SetVersion NewVersionedMap "k" "a" 5) "k" "b" 5) "k" = "b"%string.
Proof. reflexivity. Qed.

Example get_tie_break_set_unset :
  Get (UnSetVersion (SetVersion NewVersionedMap "k" "x" 1) "k" 1) "k" = "x"%string.
Proof. reflexivity. Qed.

Example marshal_example :
  MarshalMap (Set_ (Set_ NewVersionedMap "k" "a") "k" "") !! "k:u:2"%string
  = Some EmptyString.
Proof. vm_compute. reflexivity. Qed.

(** ** The byte order on strings. *)
Section StringOrder.

Lemma ascii_compare_lt_trans a b c :
  Ascii.compare a b = Lt → Ascii.compare b c = Lt → Ascii.compare a c = Lt.
Proof.
  unfold Ascii.compare. rewrite !N.compare_lt_iff. lia.
Qed.

Lemma string_compare_lt_trans a : ∀ b c,
  String.compare a b = Lt → String.compare b c = Lt → String.compare a c = Lt.
Proof.
  induction a as [|x a IH]; intros [|y b] [|z c]; simpl; try done.
  destruct (Ascii.compare x y) eqn:Hxy; try done;
    destruct (Ascii.compare y z) eqn:Hyz; try done; intros Hab Hbc.
  - apply Ascii.compare_eq_iff in Hxy, Hyz. subst.
    rewrite (proj2 (N.compare_eq_iff _ _) eq_refl : Ascii.compare z z = Eq).
    by eapply IH.
  - apply Ascii.compare_eq_iff in Hxy. subst. by rewrite Hyz.
  - apply Ascii.compare_eq_iff in Hyz. subst. by rewrite Hxy.
  - by rewrite (ascii_compare_lt_trans _ _ _ Hxy Hyz).
Qed.

Lemma string_compare_refl a : String.compare a a = Eq.
Proof.
  induction a as [|x a IH]; simpl; [done|].
  by rewrite (proj2 (N.compare_eq_iff _ _) eq_refl : Ascii.compare x x = Eq).
Qed.

Lemma gtb_irrefl a : gostring.gtb a a = false.
Proof. unfold gostring.gtb, String.ltb. by rewrite string_compare_refl. Qed.

Lemma gtb_trans a b c :
  gostring.gtb a b = true → gostring.gtb b c = true → gostring.gtb a c = true.
Proof.
  unfold gostring.gtb, String.ltb.
  destruct (String.compare b a) eqn:Hba; try done.
  destruct (String.compare c b) eqn:Hcb; try done.
  by rewrite (string_compare_lt_trans _ _ _ Hcb Hba).
Qed.

Lemma gtb_asym a b : gostring.gtb a b = true → gostring.gtb b a = false.
Proof.
  intros H. destruct (gostring.gtb b a) eqn:E; [|done].
  pose proof (gtb_trans _ _ _ H E) as F. by rewrite gtb_irrefl in F.
Qed.

Lemma gtb_total a b :
  gostring.gtb a b = false → gostring.gtb b a = false → a = b.
Proof.
  unfold gostring.gtb, String.ltb. rewrite (String.compare_antisym b a).
  destruct (String.compare a b) eqn:E; simpl; try done.
  intros _ _. by apply String.compare_eq_iff.
Qed.

Lemma gostring_le_refl a : gostring.le a a.
Proof. apply gtb_irrefl. Qed.

Lemma gostring_le_trans a b c : gostring.le a b → gostring.le b c → gostring.le a c.
Proof.
  unfold gostring.le. intros Hab Hbc.
  destruct (gostring.gtb a c) eqn:Hac; [|done].
  destruct (gostring.gtb b a) eqn:Hba.
  - by rewrite (gtb_trans _ _ _ Hba Hac) in Hbc.
  - assert (a = b) as -> by by apply gtb_total. congruence.
Qed.

Lemma gostring_le_antisym a b : gostring.le a b → gostring.le b a → a = b.
Proof. apply gtb_total. Qed.

Lemma gostring_le_total a b : gostring.le a b ∨ gostring.le b a.
Proof.
  unfold gostring.le. destruct (gostring.gtb a b) eqn:E; [right|by left].
  by apply gtb_asym.
Qed.

(** The empty string is the least one: an unset loses against any set. *)
Lemma gostring_le_empty a : gostring.le EmptyString a.
Proof. by destruct a. Qed.

Lemma gtb_empty a : a ≠ EmptyString → gostring.gtb a EmptyString = true.
Proof. by destruct a. Qed.

End StringOrder.

(** ** The scan of [Get] computes a maximum. *)
Section Winner.

Lemma entry_le_refl a : entry_le a a.
Proof. right. split; [done|apply gostring_le_refl]. Qed.

Lemma entry_le_trans a b c : entry_le a b → entry_le b c → entry_le a c.
Proof.
  intros [H1|[H1 V1]] [H2|[H2 V2]]; [left; lia..|].
  right. split; [lia|by eapply gostring_le_trans].
Qed.

Lemma entry_le_antisym a b : entry_le a b → entry_le b a → a = b.
Proof.
  intros [H1|[H1 V1]] [H2|[H2 V2]]; try lia.
  destruct a, b; simpl in *. f_equal; [by apply gostring_le_antisym|done].
Qed.

(** One turn of the loop keeps the greater of the two entries. *)
Lemma Get_step_max m e :
  (Get_step m e = m ∧ entry_le e m) ∨ (Get_step m e = e ∧ entry_le m e).
Proof.
  unfold Get_step. rewrite Z.gtb_ltb.
  destruct (Z.ltb_spec (version m) (version e)) as [Hlt|Hge].
  - rewrite Z.eqb_refl, gtb_irrefl. simpl. right. split; [done|left; lia].
  - destruct (Z.eqb_spec (version e) (version m)) as [Heq|Hne]; simpl.
    + destruct (gostring.gtb (value e) (value m)) eqn:Hgt.
      * right. split; [done|]. right. split; [done|]. by apply gtb_asym.
      * left. split; [done|]. by right.
    + left. split; [done|]. left. lia.
Qed.

Lemma scan_is_winner l : ∀ init,
  is_winner (foldl Get_step init l) (init :: l).
Proof.
  induction l as [|e l IH]; intros init; simpl.
  - split; [set_solver|]. intros e' ->%list_elem_of_singleton.
    apply entry_le_refl.
  - destruct (IH (Get_step init e)) as [Hin Hmax]. split.
    + apply elem_of_cons in Hin as [->|Hin]; [|set_solver].
      destruct (Get_step_max init e) as [[-> _]|[-> _]]; set_solver.
    + intros e' He'.
      assert (entry_le init (Get_step init e) ∧ entry_le e (Get_step init e))
        as [Hi He].
      { destruct (Get_step_max init e) as [[-> ?]|[-> ?]];
          split; auto using entry_le_refl. }
      assert (entry_le (Get_step init e) (foldl Get_step (Get_step init e) l))
        as Hstep by (apply Hmax; set_solver).
      apply elem_of_cons in He' as [->|He']; [by eapply entry_le_trans|].
      apply elem_of_cons in He' as [->|He']; [by eapply entry_le_trans|].
      apply Hmax. set_solver.
Qed.

Lemma winner_unique l a b : is_winner a l → is_winner b l → a = b.
Proof.
  intros [Ha Ma] [Hb Mb]. apply entry_le_antisym; auto.
Qed.

(** The scan depends on the set of entries only. *)
Lemma scan_same_set l1 l2 init :
  (∀ e, e ∈ l1 ↔ e ∈ l2) →
  foldl Get_step init l1 = foldl Get_step init l2.
Proof.
  intros Hset. eapply (winner_unique (init :: l1)); [apply scan_is_winner|].
  destruct (scan_is_winner l2 init) as [Hin Hmax]. split.
  - apply elem_of_cons in Hin as [->|Hin]; [set_solver|].
    apply elem_of_cons. right. by apply Hset.
  - intros e' [->|He']%elem_of_cons; apply Hmax; [set_solver|].
    apply elem_of_cons. right. by apply Hset.
Qed.

(** The scan never settles below the zero entry it starts from. *)
Lemma scan_nonneg l : 0 <= version (foldl Get_step zeroEntry l).
Proof.
  destruct (scan_is_winner l zeroEntry) as [_ Hmax].
  destruct (Hmax zeroEntry) as [H|[H _]]; [set_solver|simpl in *; lia..].
Qed.

(** With an entry at a version of 0 or more among them, the winner of the
    scan is the winner of the entries themselves. *)
Lemma scan_winner_of_entries l e :
  e ∈ l → 0 <= version e →
  ∃ w, is_winner w l ∧ value (foldl Get_step zeroEntry l) = value w.
Proof.
  intros He Hnn. destruct (scan_is_winner l zeroEntry) as [Hin Hmax].
  apply elem_of_cons in Hin as [Hz|Hin].
  - (* the zero entry won: [e] is then an unset at version 0, and wins too *)
    exists e. rewrite Hz. assert (entry_le e zeroEntry) as Hle.
    { rewrite <- Hz. apply Hmax. set_solver. }
    assert (e = zeroEntry) as ->.
    { apply entry_le_antisym; [done|].
      destruct Hle as [H|[H V]]; simpl in *; [lia|].
      right. split; [done|]. apply gostring_le_empty. }
    split; [|done]. split; [done|].
    intros e' He'. rewrite <- Hz. apply Hmax. set_solver.
  - exists (foldl Get_step zeroEntry l). split; [|done]. split; [done|].
    intros e' He'. apply Hmax. set_solver.
Qed.

Lemma scan_all_negative l :
  (∀ e, e ∈ l → version e < 0) → foldl Get_step zeroEntry l = zeroEntry.
Proof.
  intros Hneg. destruct (scan_is_winner l zeroEntry) as [Hin _].
  apply elem_of_cons in Hin as [->|Hin]; [done|].
  pose proof (scan_nonneg l). apply Hneg in Hin. lia.
Qed.

End Winner.

(** ** Reading a map after a write or a merge. *)
Section Lookup.

Lemma entries_of_SetVersion v key val ver k :
  entries_of (SetVersion v key val ver) k
  = if decide (key = k) then entries_of v k ++ [MapEntry val ver]
    else entries_of v k.
Proof.
  unfold entries_of at 1. simpl. rewrite lookup_insert.
  case_decide; by subst.
Qed.

Lemma entries_of_UnSetVersion v key ver k :
  entries_of (UnSetVersion v key ver) k
  = if decide (key = k) then entries_of v k ++ [MapEntry EmptyString ver]
    else entries_of v k.
Proof. apply (entries_of_SetVersion v key EmptyString ver k). Qed.

Lemma entries_of_Merge v other k :
  entries_of (Merge v other) k
  = entries_of v k ++ entries_of other k.
Proof.
  destruct other as [o]. unfold Merge. simpl.
  apply (map_fold_weak_ind
           (λ r (m : gmap string (list mapEntry)),
              entries_of r k = entries_of v k ++ default [] (m !! k))).
  - rewrite lookup_empty. simpl. by rewrite app_nil_r.
  - intros i x m r Hnone IH. unfold entries_of at 1. simpl.
    rewrite !lookup_insert. case_decide as Hik.
    + subst i. simpl. rewrite IH, Hnone. simpl. by rewrite app_nil_r.
    + apply IH.
Qed.

Lemma currentVersion_step_ge next e :
  next <= currentVersion_step next e
  ∧ version e <= currentVersion_step next e.
Proof.
  unfold currentVersion_step. rewrite Z.gtb_ltb.
  destruct (Z.ltb_spec next (version e)); lia.
Qed.

Lemma currentVersion_loop_bound l : ∀ next,
  next <= foldl currentVersion_step next l
  ∧ ∀ e, e ∈ l → version e <= foldl currentVersion_step next l.
Proof.
  induction l as [|x l IH]; intros next; simpl; [split; [lia|set_solver]|].
  destruct (IH (currentVersion_step next x)) as [H1 H2].
  pose proof (currentVersion_step_ge next x) as [G1 G2].
  split; [lia|]. intros e [->|He]%elem_of_cons; [lia|auto].
Qed.

(** The loop returns its start value or the version of an entry. *)
Lemma currentVersion_loop_attained l : ∀ next,
  foldl currentVersion_step next l = next
  ∨ ∃ e, e ∈ l ∧ foldl currentVersion_step next l = version e.
Proof.
  induction l as [|x l IH]; intros next; simpl; [by left|].
  destruct (IH (currentVersion_step next x)) as [H|(e & He & H)].
  - rewrite H. unfold currentVersion_step.
    destruct (version x >? next); [right; exists x; set_solver|by left].
  - right. exists e. set_solver.
Qed.

Lemma int64_wrap_in_range z : int64.in_range z → int64.wrap z = z.
Proof.
  unfold int64.in_range, int64.min, int64.max, int64.wrap. intros H.
  rewrite Z.mod_small; lia.
Qed.

End Lookup.

(** ** The versioned map: resolution of the current value. *)
Section Resolution.

Lemma replicas_same_entries : same_entries replica_a replica_b.
Proof.
  intros key e. unfold replica_a, replica_b.
  rewrite !entries_of_SetVersion. case_decide; [set_solver|done].
Qed.

Lemma Get_same_entries a b :
  same_entries a b → ∀ k, Get a k = Get b k.
Proof.
  intros Hsame k. unfold Get. f_equal. apply scan_same_set, Hsame.
Qed.

End Resolution.

(** C1: two maps that hold the same entries for every key, in whatever order
    and with whatever duplicates, resolve every key to the same value, and
    go on doing so when each is merged with a third map.  For any three
    maps, alike or not, [Merge] is commutative, associative and idempotent
    at the level of [Get], and applying an entry a second time changes
    nothing. *)
Theorem C1_convergence (a b c : VersionedMap) :
  (same_entries a b →
   (∀ k, Get a k = Get b k)
   ∧ (∀ k, Get (Merge a c) k = Get (Merge b c) k)
   ∧ (∀ k, Get (Merge c a) k = Get (Merge c b) k))
  ∧ (∀ k, Get (Merge a b) k = Get (Merge b a) k)
  ∧ (∀ k, Get (Merge (Merge a b) c) k = Get (Merge a (Merge b c)) k)
  ∧ (∀ k, Get (Merge a a) k = Get a k)
  ∧ (∀ key e k, e ∈ entries_of a key →
       Get (SetVersion a key (value e) (version e)) k = Get a k).
Proof.
  split; [|repeat split].
  - intros Hsame. repeat split.
    + by apply Get_same_entries.
    + apply Get_same_entries. intros key e. rewrite !entries_of_Merge.
      rewrite !elem_of_app. by rewrite (Hsame key e).
    + apply Get_same_entries. intros key e. rewrite !entries_of_Merge.
      rewrite !elem_of_app. by rewrite (Hsame key e).
  - apply Get_same_entries. intros key e. rewrite !entries_of_Merge.
    rewrite !elem_of_app. tauto.
  - apply Get_same_entries. intros key e. rewrite !entries_of_Merge.
    by rewrite app_assoc.
  - apply Get_same_entries. intros key e. rewrite !entries_of_Merge.
    rewrite !elem_of_app. tauto.
  - intros key e k He. apply Get_same_entries. intros key' e'.
    rewrite entries_of_SetVersion. case_decide; [subst key'|done].
    rewrite elem_of_app, list_elem_of_singleton. split; [|tauto].
    intros [?| ->]; [done|]. by destruct e.
Qed.

Lemma C1_convergence_witness :
  same_entries replica_a replica_b
  ∧ (∀ k, Get replica_a k = Get replica_b k)
  ∧ (∀ k, Get (Merge replica_a replica_c) k
          = Get (Merge replica_c replica_a) k)
  ∧ (∀ k, Get (Merge (Merge replica_a replica_c) replica_b) k
          = Get (Merge replica_a (Merge replica_c replica_b)) k).
Proof.
  split; [exact replicas_same_entries|].
  split; [|split].
  - exact (proj1 (proj1 (C1_convergence replica_a replica_b replica_c)
                        replicas_same_entries)).
  - exact (proj1 (proj2 (C1_convergence replica_a replica_c replica_b))).
  - exact (proj1 (proj2 (proj2
             (C1_convergence replica_a replica_c replica_b)))).
Defined.

(** C3, as the code has it: a local [Set] or [UnSet] on a key whose highest
    version is below the [int64] maximum appends one entry at the key's
    current version plus one, which is positive and strictly greater than
    every version the key holds.  The versions of other keys play no part. *)
Theorem C3_local_write_monotone (v : VersionedMap) (key val : string)
        (Hroom : currentVersion v key < int64.max) :
  nextVersion v key = currentVersion v key + 1
  ∧ entries_of (Set_ v key val) key
    = entries_of v key ++ [MapEntry val (nextVersion v key)]
  ∧ entries_of (UnSet v key) key
    = entries_of v key ++ [MapEntry EmptyString (nextVersion v key)]
  ∧ 0 < nextVersion v key
  ∧ (∀ e, e ∈ entries_of v key → version e < nextVersion v key).
Proof.
  pose proof (currentVersion_loop_bound (entries_of v key) 0) as [H0 Hmax].
  fold (currentVersion v key) in H0, Hmax.
  assert (nextVersion v key = currentVersion v key + 1) as Hnext.
  { unfold nextVersion, int64.add. apply int64_wrap_in_range.
    unfold int64.in_range, int64.min, int64.max in *. lia. }
  split; [done|]. split; [|split; [|split]].
  - unfold Set_. rewrite entries_of_SetVersion. by case_decide.
  - unfold UnSet. rewrite entries_of_UnSetVersion. by case_decide.
  - lia.
  - intros e He. apply Hmax in He. lia.
Qed.

Lemma C3_local_write_monotone_witness :
  currentVersion replica_a "k" < int64.max
  ∧ nextVersion replica_a "k" = 3
  ∧ entries_of (Set_ replica_a "k" "w") "k"
    = [MapEntry "x" 1; MapEntry "y" 2; MapEntry "w" 3].
Proof.
  assert (currentVersion replica_a "k" < int64.max) as H by (vm_compute; reflexivity).
  split; [exact H|].
  destruct (C3_local_write_monotone replica_a "k" "w" H) as (Hn & Hs & _).
  split; [rewrite Hn; vm_compute; reflexivity|].
  rewrite Hs. vm_compute. reflexivity.
Defined.

(** C3 as the specification words it fails: a key written for the first time
    gets version 1, although [LatestVersion] already reports 10 for another
    key. *)
Lemma C3_counterexample :
  let v := SetVersion NewVersionedMap "a" "x" 10 in
  LatestVersion v = 10
  ∧ entries_of (Set_ v "b" "y") "b" = [MapEntry "y" 1]
  ∧ ¬ (LatestVersion v < nextVersion v "b").
Proof.
  simpl. split; [vm_compute; reflexivity|].
  split; [vm_compute; reflexivity|].
  vm_compute. intros H. discriminate H.
Qed.

(** Why C3 asks for room below the [int64] maximum: there the addition wraps
    around. *)
Example next_version_wraps :
  nextVersion (SetVersion NewVersionedMap "k" "x" int64.max) "k" = int64.min.
Proof. vm_compute. reflexivity. Qed.

(** C4, as the code has it: a key without entries reads as the empty string;
    a key that holds an entry at a version of 0 or more reads as the value of
    its winner, the entry of highest version and, among those of that
    version, of greatest value (so a set beats an unset of the same
    version), and that winner is unique. *)
Theorem C4_get_highest_version (v : VersionedMap) (key : string) :
  (entries_of v key = [] → Get v key = EmptyString)
  ∧ ((∃ e, e ∈ entries_of v key ∧ 0 <= version e) →
     ∃ w, is_winner w (entries_of v key)
          ∧ Get v key = value w
          ∧ ∀ w', is_winner w' (entries_of v key) → w' = w).
Proof.
  split.
  - unfold Get. by intros ->.
  - intros (e & He & Hnn).
    destruct (scan_winner_of_entries _ e He Hnn) as (w & Hw & Hval).
    exists w. split; [done|]. split; [done|].
    intros w' Hw'. by eapply winner_unique.
Qed.

Lemma C4_get_highest_version_witness :
  Get NewVersionedMap "k" = EmptyString
  ∧ ∃ w, is_winner w (entries_of replica_b "k") ∧ Get replica_b "k" = value w.
Proof.
  split.
  - exact (proj1 (C4_get_highest_version NewVersionedMap "k") eq_refl).
  - destruct (proj2 (C4_get_highest_version replica_b "k")) as (w & Hw & Hv & _).
    + exists (MapEntry "x" 1). split; [|simpl; lia].
      vm_compute. apply list_elem_of_further, list_elem_of_here.
    + by exists w.
Defined.

(** C4 as the specification words it fails: the only entry of the key, hence
    the one of highest version, carries a negative version, and [Get] returns
    the empty string instead of its value. *)
Lemma C4_counterexample :
  let v := SetVersion NewVersionedMap "k" "x" (-1) in
  is_winner (MapEntry "x" (-1)) (entries_of v "k")
  ∧ Get v "k" = EmptyString
  ∧ Get v "k" ≠ value (MapEntry "x" (-1)).
Proof.
  simpl. split; [|split; [vm_compute; reflexivity|vm_compute; discriminate]].
  split.
  - vm_compute. apply list_elem_of_here.
  - intros e' He'. vm_compute in He'.
    apply list_elem_of_singleton in He' as ->. apply entry_le_refl.
Qed.

(** C10: the scan of [Get] never selects an entry of negative version: it
    gives what it gives on the entries of version 0 or more alone, and the
    empty string when every entry of the key is negative, however many there
    are; an entry at version 0 that wins among the key's entries is
    returned. *)
Theorem C10_negative_versions (v : VersionedMap) (key : string) :
  ((∀ e, e ∈ entries_of v key → version e < 0) → Get v key = EmptyString)
  ∧ 0 <= version (foldl Get_step zeroEntry (entries_of v key))
  ∧ foldl Get_step zeroEntry (entries_of v key)
    = foldl Get_step zeroEntry
            (filter (λ e, 0 <= version e) (entries_of v key))
  ∧ (∀ e, version e = 0 → is_winner e (entries_of v key) →
          Get v key = value e).
Proof.
  split; [|split; [|split]].
  - intros Hneg. unfold Get. by rewrite scan_all_negative.
  - apply scan_nonneg.
  - set (l := entries_of v key).
    eapply (winner_unique (zeroEntry :: filter (λ e, 0 <= version e) l));
      [|apply scan_is_winner].
    destruct (scan_is_winner l zeroEntry) as [Hin Hmax].
    pose proof (scan_nonneg l) as Hnn. split.
    + apply elem_of_cons in Hin as [->|Hin]; [set_solver|].
      apply elem_of_cons. right. by apply list_elem_of_filter.
    + intros e' [->|[_ He']%list_elem_of_filter]%elem_of_cons;
        apply Hmax; set_solver.
  - intros e H0 Hw.
    destruct (scan_winner_of_entries (entries_of v key) e) as (w & Hw' & Hv);
      [apply Hw|lia|].
    unfold Get. rewrite Hv. f_equal. by eapply winner_unique.
Qed.

Lemma C10_negative_versions_witness :
  let v := SetVersion (SetVersion NewVersionedMap "k" "x" (-1)) "k" "y" (-7) in
  entries_of v "k" = [MapEntry "x" (-1); MapEntry "y" (-7)]
  ∧ Get v "k" = EmptyString
  ∧ Get (SetVersion v "k" "a" 0) "k" = "a"%string.
Proof.
  simpl. split; [vm_compute; reflexivity|]. split.
  - apply (proj1 (C10_negative_versions _ "k")).
    intros e He. vm_compute in He.
    apply elem_of_cons in He as [->|He]; [simpl; lia|].
    apply list_elem_of_singleton in He as ->. simpl. lia.
  - apply (proj2 (proj2 (proj2 (C10_negative_versions _ "k"))) (MapEntry "a" 0));
      [reflexivity|].
    split.
    + vm_compute. do 2 apply list_elem_of_further. apply list_elem_of_here.
    + intros e' He'. vm_compute in He'.
      repeat (apply elem_of_cons in He' as [->|He']);
        [left; simpl; lia..|right; split; [done|apply gostring_le_refl] |].
      by apply not_elem_of_nil in He'.
Defined.

(** ** The models of [strconv] and [strings]. *)
Section Strconv.
Import strconv.

Lemma digit_char_spec d :
  0 <= d < 10 →
  is_digit (digit_char d) = true
  ∧ digit_val (digit_char d) = d
  ∧ Ascii.eqb (digit_char d) gostring.colon = false.
Proof.
  intros H.
  assert (d = 0 ∨ d = 1 ∨ d = 2 ∨ d = 3 ∨ d = 4 ∨ d = 5 ∨ d = 6 ∨ d = 7
          ∨ d = 8 ∨ d = 9) as Hd by lia.
  repeat (destruct Hd as [->|Hd]); try subst d; by vm_compute.
Qed.

Lemma append_cons a s t : String a s +:+ t = String a (s +:+ t).
Proof. reflexivity. Qed.

Lemma append_nil_l t : EmptyString +:+ t = t.
Proof. reflexivity. Qed.

Lemma append_assoc s : ∀ t u, (s +:+ t) +:+ u = s +:+ (t +:+ u).
Proof.
  induction s as [|a s IH]; intros t u; [done|].
  rewrite !append_cons. by rewrite IH.
Qed.

Lemma has_byte_append c s : ∀ t,
  gostring.has_byte c (s +:+ t)
  = gostring.has_byte c s || gostring.has_byte c t.
Proof.
  induction s as [|a s IH]; intros t; [done|].
  rewrite append_cons. simpl. destruct (Ascii.eqb a c); [done|apply IH].
Qed.

(** The digits written for [u] read back as [u], whatever follows. *)
Lemma formatBits_parse fuel : ∀ u acc,
  0 <= u < 10 ^ Z.of_nat (S fuel) →
  ∃ pre, formatBits (S fuel) u acc = pre +:+ acc
         ∧ pre ≠ EmptyString
         ∧ ∀ rest, parseDigits (pre +:+ rest) 0 = parseDigits rest u.
Proof.
  induction fuel as [|fuel IH]; intros u acc Hu.
  - assert (u / 10 = 0) as Hq by (apply Z.div_small; lia).
    assert (u mod 10 = u) as Hr by (apply Z.mod_small; lia).
    destruct (digit_char_spec u) as (Hd & Hv & _); [lia|].
    exists (String (digit_char u) EmptyString). simpl.
    rewrite Hq, Hr. simpl. split; [done|]. split; [done|].
    intros rest. rewrite Hd, Hv, append_nil_l. done.
  - pose proof (Z.mod_pos_bound u 10 ltac:(lia)) as Hm.
    destruct (digit_char_spec (u mod 10)) as (Hd & Hv & _); [lia|].
    cbn [formatBits]. destruct (Z.eqb_spec (u / 10) 0) as [Hq|Hq].
    + exists (String (digit_char (u mod 10)) EmptyString).
      split; [done|]. split; [done|].
      intros rest. rewrite append_cons. simpl. rewrite Hd, Hv.
      f_equal. rewrite (Z.div_mod u 10) at 2 by lia. lia.
    + destruct (IH (u / 10) (String (digit_char (u mod 10)) acc))
        as (pre & Hpre & Hne & Hparse).
      { split; [apply Z.div_pos; lia|].
        apply Z.div_lt_upper_bound; [lia|].
        rewrite Nat2Z.inj_succ, Z.pow_succ_r in Hu by lia. lia. }
      exists (pre +:+ String (digit_char (u mod 10)) EmptyString).
      rewrite append_assoc, append_cons, append_nil_l.
      split; [exact Hpre|]. split; [by destruct pre|].
      intros rest. rewrite append_assoc, append_cons, append_nil_l, Hparse.
      simpl. rewrite Hd, Hv. f_equal.
      rewrite (Z.div_mod u 10) at 3 by lia. lia.
Qed.

Lemma parseDigits_head c s n u :
  parseDigits (String c s) n = Some u → is_digit c = true.
Proof. simpl. by destruct (is_digit c). Qed.

Lemma is_digit_not_sign c :
  is_digit c = true →
  Ascii.eqb c "-"%char = false ∧ Ascii.eqb c "+"%char = false.
Proof.
  intros H. split; apply Ascii.eqb_neq; intros ->; by vm_compute in H.
Qed.

Lemma ParseUint_formatBits u :
  0 <= u < 2 ^ 64 →
  ParseUint (formatBits 20 u EmptyString) = Some u
  ∧ ∃ c s, formatBits 20 u EmptyString = String c s ∧ is_digit c = true.
Proof.
  intros Hu.
  destruct (formatBits_parse 19 u EmptyString) as (pre & Hpre & Hne & Hparse).
  { split; [lia|]. eapply Z.lt_le_trans; [apply Hu|]. by vm_compute. }
  specialize (Hparse EmptyString). simpl in Hparse.
  rewrite <- Hpre in Hparse.
  destruct (formatBits 20 u EmptyString) as [|c s] eqn:E.
  { destruct pre; [done|]. by rewrite append_cons in Hpre. }
  split.
  - unfold ParseUint. rewrite Hparse.
    destruct (Z.ltb_spec u (2 ^ 64)); [done|lia].
  - exists c, s. split; [done|]. by eapply parseDigits_head.
Qed.

(** [ParseInt] reads back what [FormatInt] wrote for an [int64]. *)
Lemma ParseInt_FormatInt z :
  int64.in_range z → ParseInt (FormatInt z) = Some z.
Proof.
  unfold int64.in_range, int64.min, int64.max. intros Hz.
  unfold FormatInt. destruct (Z.ltb_spec z 0) as [Hneg|Hpos].
  - destruct (ParseUint_formatBits (- z)) as [Hp _]; [lia|].
    unfold ParseInt. cbn [Ascii.eqb Bool.eqb orb negb andb].
    rewrite Hp. cbn [andb negb].
    destruct (Z.ltb_spec (2 ^ 63) (- z)); [lia|]. f_equal. lia.
  - destruct (ParseUint_formatBits z) as [Hp (c & s & Hcs & Hd)]; [lia|].
    rewrite Hcs in *. unfold ParseInt.
    destruct (is_digit_not_sign c Hd) as [-> ->]. cbn [orb negb andb].
    rewrite Hp. destruct (Z.leb_spec (2 ^ 63) z); [lia|done].
Qed.

Lemma FormatInt_inj a b :
  int64.in_range a → int64.in_range b → FormatInt a = FormatInt b → a = b.
Proof.
  intros Ha Hb Heq. apply ParseInt_FormatInt in Ha, Hb.
  rewrite Heq in Ha. congruence.
Qed.

Lemma formatBits_colon_free fuel : ∀ u acc,
  gostring.has_byte gostring.colon (formatBits fuel u acc)
  = gostring.has_byte gostring.colon acc.
Proof.
  induction fuel as [|fuel IH]; intros u acc; [done|].
  pose proof (Z.mod_pos_bound u 10 ltac:(lia)) as Hm.
  destruct (digit_char_spec (u mod 10)) as (_ & _ & Hc); [lia|].
  cbn [formatBits]. destruct (u / 10 =? 0); [|rewrite IH]; simpl; by rewrite Hc.
Qed.

Lemma FormatInt_colon_free z :
  gostring.has_byte gostring.colon (FormatInt z) = false.
Proof.
  unfold FormatInt. destruct (z <? 0).
  - change (gostring.has_byte gostring.colon
              (formatBits 20 (- z) EmptyString) = false).
    by rewrite formatBits_colon_free.
  - by rewrite formatBits_colon_free.
Qed.

End Strconv.

Section SplitJoin.
Import strings.

Lemma Split_colon_free s :
  gostring.has_byte gostring.colon s = false → Split s gostring.colon = [s].
Proof.
  induction s as [|c s IH]; [done|]. simpl.
  destruct (Ascii.eqb c gostring.colon); [done|]. intros H. by rewrite IH.
Qed.

Lemma Split_append s : ∀ t,
  gostring.has_byte gostring.colon s = false →
  Split (s +:+ String gostring.colon t) gostring.colon
  = s :: Split t gostring.colon.
Proof.
  induction s as [|c s IH]; intros t; [done|].
  rewrite append_cons. simpl.
  destruct (Ascii.eqb c gostring.colon); [done|]. intros H. by rewrite IH.
Qed.

(** What follows the last separator determines the split point. *)
Lemma append_colon_inj a : ∀ b x y,
  gostring.has_byte gostring.colon x = false →
  gostring.has_byte gostring.colon y = false →
  a +:+ String gostring.colon x = b +:+ String gostring.colon y →
  a = b ∧ x = y.
Proof.
  induction a as [|c a IH]; intros [|d b] x y Hx Hy Heq.
  - by injection Heq.
  - rewrite append_nil_l, append_cons in Heq. injection Heq as <- ->.
    rewrite has_byte_append in Hx. simpl in Hx.
    by rewrite orb_true_r in Hx.
  - rewrite append_nil_l, append_cons in Heq. injection Heq as -> <-.
    rewrite has_byte_append in Hy. simpl in Hy.
    by rewrite orb_true_r in Hy.
  - rewrite !append_cons in Heq. injection Heq as -> Heq.
    destruct (IH b x y Hx Hy Heq) as [-> ->]. done.
Qed.

Lemma op_of_colon_free e :
  gostring.has_byte gostring.colon (op_of e) = false.
Proof. unfold op_of. by destruct (gostring.is_empty (value e)). Qed.

Lemma mapKey_unfold key e :
  mapKey key e
  = key +:+ String gostring.colon
            (op_of e +:+ String gostring.colon (strconv.FormatInt (version e))).
Proof. reflexivity. Qed.

Lemma mapKey_inj k1 e1 k2 e2 :
  int64.in_range (version e1) → int64.in_range (version e2) →
  mapKey k1 e1 = mapKey k2 e2 →
  k1 = k2 ∧ op_of e1 = op_of e2 ∧ version e1 = version e2.
Proof.
  intros H1 H2. rewrite !mapKey_unfold. intros Heq.
  set (f1 := strconv.FormatInt (version e1)) in *.
  set (f2 := strconv.FormatInt (version e2)) in *.
  assert (∀ s f, s +:+ String gostring.colon f
                 = (s +:+ String gostring.colon EmptyString) +:+ f) as Hsplit.
  { intros s f. by rewrite append_assoc. }
  assert ((k1 +:+ String gostring.colon (op_of e1))
            +:+ String gostring.colon f1
          = (k2 +:+ String gostring.colon (op_of e2))
              +:+ String gostring.colon f2) as Heq'.
  { by rewrite !append_assoc. }
  apply append_colon_inj in Heq' as [Hko Hf];
    [|apply FormatInt_colon_free..].
  apply append_colon_inj in Hko as [Hk Ho]; [|apply op_of_colon_free..].
  split; [done|]. split; [done|]. by apply FormatInt_inj.
Qed.

Lemma Split_mapKey key e :
  gostring.has_byte gostring.colon key = false →
  Split (mapKey key e) gostring.colon
  = [key; op_of e; strconv.FormatInt (version e)].
Proof.
  intros Hk. rewrite mapKey_unfold, Split_append by done.
  rewrite Split_append by apply op_of_colon_free.
  by rewrite Split_colon_free by apply FormatInt_colon_free.
Qed.

(** An entry is its value and its version; the operation letter says
    whether the value is empty. *)
Lemma op_of_s e : String.eqb (op_of e) "s" = negb (gostring.is_empty (value e)).
Proof. unfold op_of. by destruct (gostring.is_empty (value e)). Qed.

Lemma is_empty_spec s : gostring.is_empty s = true ↔ s = EmptyString.
Proof. by destruct s. Qed.

(** A record written by [MarshalMap] for an entry is read back by
    [UnmarshalMap] as that entry. *)
Lemma unmarshal_record_mapKey v key e :
  gostring.has_byte gostring.colon key = false →
  int64.in_range (version e) →
  unmarshal_record v (mapKey key e) (value e)
  = Done (SetVersion v key (value e) (version e)).
Proof.
  intros Hk Hr. unfold unmarshal_record. rewrite Split_mapKey by done.
  cbn [lookup list_lookup]. rewrite ParseInt_FormatInt by done.
  rewrite op_of_s. destruct (gostring.is_empty (value e)) eqn:E; [|done].
  apply is_empty_spec in E. rewrite E. done.
Qed.

End SplitJoin.

(** ** The two marshalling loops: which records they write. *)
Section Marshal.
Variable keep : string → mapEntry → bool.
Variable step : string → gmap string string → mapEntry → gmap string string.
Hypothesis step_spec : ∀ key r e,
  step key r e = if keep key e then <[mapKey key e := value e]> r else r.

Lemma inner_sound key es : ∀ r s x,
  foldl (step key) r es !! s = Some x →
  r !! s = Some x
  ∨ ∃ e, e ∈ es ∧ keep key e = true ∧ s = mapKey key e ∧ x = value e.
Proof.
  induction es as [|e es IH]; intros r s x; simpl; [by left|].
  intros [H|(e' & He' & ?)]%IH; [|right; exists e'; set_solver].
  rewrite step_spec in H. destruct (keep key e) eqn:Hk; [|by left].
  rewrite lookup_insert in H. case_decide as Hs; [|by left].
  right. exists e. split; [set_solver|]. by simplify_eq.
Qed.

Lemma inner_mono key es : ∀ r s,
  is_Some (r !! s) → is_Some (foldl (step key) r es !! s).
Proof.
  induction es as [|e es IH]; intros r s Hs; simpl; [done|].
  apply IH. rewrite step_spec. destruct (keep key e); [|done].
  rewrite lookup_insert. by case_decide.
Qed.

Lemma inner_complete key es : ∀ r e,
  e ∈ es → keep key e = true →
  is_Some (foldl (step key) r es !! mapKey key e).
Proof.
  induction es as [|e0 es IH]; intros r e He Hk; [set_solver|]. simpl.
  apply elem_of_cons in He as [->|He]; [|by apply IH].
  apply inner_mono. rewrite step_spec, Hk, lookup_insert_eq. done.
Qed.

Lemma outer_sound (m : gmap string (list mapEntry)) s x :
  map_fold (λ key es r, foldl (step key) r es) ∅ m !! s = Some x →
  ∃ key es e, m !! key = Some es ∧ e ∈ es ∧ keep key e = true
              ∧ s = mapKey key e ∧ x = value e.
Proof.
  revert s x.
  apply (map_fold_weak_ind
           (λ (r : gmap string string) (m : gmap string (list mapEntry)),
              ∀ s x, r !! s = Some x →
                ∃ key es e, m !! key = Some es ∧ e ∈ es ∧ keep key e = true
                            ∧ s = mapKey key e ∧ x = value e)).
  - intros s x. by rewrite lookup_empty.
  - intros i es m' r Hnone IH s x [H|(e & He & Hk & -> & ->)]%inner_sound.
    + destruct (IH s x H) as (key & es' & e & Hm & ?).
      exists key, es', e. split; [|done].
      rewrite lookup_insert_ne; [done|]. intros ->. congruence.
    + exists i, es, e. by rewrite lookup_insert_eq.
Qed.

Lemma outer_complete (m : gmap string (list mapEntry)) key es e :
  m !! key = Some es → e ∈ es → keep key e = true →
  is_Some (map_fold (λ key es r, foldl (step key) r es) ∅ m
             !! mapKey key e).
Proof.
  revert key es e.
  apply (map_fold_weak_ind
           (λ (r : gmap string string) (m : gmap string (list mapEntry)),
              ∀ key es e, m !! key = Some es → e ∈ es → keep key e = true →
                is_Some (r !! mapKey key e))).
  - intros key es e. by rewrite lookup_empty.
  - intros i es0 m' r Hnone IH key es e Hm He Hk.
    rewrite lookup_insert in Hm. case_decide as Hi.
    + simplify_eq. by apply inner_complete.
    + apply inner_mono. by eapply IH.
Qed.

End Marshal.

Section Serialization.

Lemma entries_of_elem v key e :
  e ∈ entries_of v key ↔ ∃ es, values v !! key = Some es ∧ e ∈ es.
Proof.
  unfold entries_of. destruct (values v !! key) as [es|]; simpl.
  - split; [eauto|]. by intros (? & [= <-] & ?).
  - split; [set_solver|]. by intros (? & ? & ?).
Qed.

Lemma entry_eta e : MapEntry (value e) (version e) = e.
Proof. by destruct e. Qed.

(** Every record of [MarshalMap] is the record of an entry of the map. *)
Lemma MarshalMap_sound v s x :
  MarshalMap v !! s = Some x →
  ∃ key e, e ∈ entries_of v key ∧ s = mapKey key e ∧ x = value e.
Proof.
  intros H.
  apply (outer_sound (λ _ _, true) marshal_step) in H
    as (key & es & e & Hm & He & _ & -> & ->); [|done].
  exists key, e. split; [|done]. apply entries_of_elem. eauto.
Qed.

(** Every entry has its record key in [MarshalMap]; the value stored there
    is the one of the last entry written under that record key. *)
Lemma MarshalMap_complete v key e :
  e ∈ entries_of v key → is_Some (MarshalMap v !! mapKey key e).
Proof.
  intros (es & Hm & He)%entries_of_elem.
  by apply (outer_complete (λ _ _, true) marshal_step) with (es := es).
Qed.

(** Two entries of one key that share a record key carry the same value,
    once no two sets of one version differ. *)
Lemma same_record_same_value v key e1 e2 :
  conflict_free v →
  e1 ∈ entries_of v key → e2 ∈ entries_of v key →
  op_of e1 = op_of e2 → version e1 = version e2 → value e1 = value e2.
Proof.
  intros Hcf H1 H2 Hop Hver. unfold op_of in Hop.
  destruct (gostring.is_empty (value e1)) eqn:E1,
           (gostring.is_empty (value e2)) eqn:E2; try done.
  - apply is_empty_spec in E1, E2. congruence.
  - apply (Hcf key); try done.
    + intros Hv. by rewrite Hv in E1.
    + intros Hv. by rewrite Hv in E2.
Qed.

Lemma MarshalMap_lookup v key e :
  well_typed v → conflict_free v →
  e ∈ entries_of v key → MarshalMap v !! mapKey key e = Some (value e).
Proof.
  intros Hwt Hcf He.
  destruct (MarshalMap_complete v key e He) as [x Hx]. rewrite Hx.
  destruct (MarshalMap_sound v _ _ Hx) as (key1 & e1 & He1 & Hkey & ->).
  apply mapKey_inj in Hkey as (-> & Hop & Hver); [|by eapply Hwt..].
  f_equal. by eapply same_record_same_value.
Qed.

(** Reading records that all come from entries with colon-free keys cannot
    fail, and appends exactly those entries. *)
Lemma UnmarshalRecords_good records : ∀ v0,
  (∀ s x, (s, x) ∈ records →
     ∃ key e, s = mapKey key e ∧ x = value e
              ∧ gostring.has_byte gostring.colon key = false
              ∧ int64.in_range (version e)) →
  ∃ v', UnmarshalRecords records v0 = Done v'
        ∧ ∀ k e, e ∈ entries_of v' k ↔
                 e ∈ entries_of v0 k
                 ∨ ((mapKey k e, value e) ∈ records
                    ∧ gostring.has_byte gostring.colon k = false
                    ∧ int64.in_range (version e)).
Proof.
  induction records as [|[s x] rest IH]; intros v0 Hgood.
  - exists v0. split; [done|]. intros k e. set_solver.
  - destruct (Hgood s x) as (key0 & e0 & -> & -> & Hk0 & Hr0); [set_solver|].
    cbn [UnmarshalRecords]. rewrite unmarshal_record_mapKey by done.
    destruct (IH (SetVersion v0 key0 (value e0) (version e0)))
      as (v' & Hrun & Hv'); [intros; apply Hgood; set_solver|].
    exists v'. split; [done|]. intros k e. rewrite Hv'.
    rewrite entries_of_SetVersion, entry_eta. split.
    + intros [He|(Hin & ? & ?)]; [|right; set_solver].
      case_decide as Hk; [subst k|by left].
      apply elem_of_app in He as [He| ->%list_elem_of_singleton];
        [by left|right]. set_solver.
    + intros [He|(Hin & Hk & Hr)].
      * left. case_decide; [set_solver|done].
      * apply elem_of_cons in Hin as [Heq|Hin]; [|by right].
        left. injection Heq as Hkey Hval.
        apply mapKey_inj in Hkey as (-> & _ & Hver); [|done..].
        rewrite decide_True by done.
        assert (e = e0) as -> by (destruct e, e0; simpl in *; congruence).
        set_solver.
Qed.

Lemma currentVersion_range v key :
  well_typed v → 0 <= currentVersion v key <= int64.max.
Proof.
  intros Hwt. unfold currentVersion.
  pose proof (currentVersion_loop_bound (entries_of v key) 0) as [H0 _].
  destruct (currentVersion_loop_attained (entries_of v key) 0)
    as [Hz|(e & He & Hv)].
  - rewrite Hz. unfold int64.max. lia.
  - split; [lia|]. rewrite Hv. apply (Hwt key e He).
Qed.

Lemma expired_step_spec v age key r e :
  expired_step key (currentVersion v key) age r e
  = if negb (version e >=? int64.sub (currentVersion v key) age)
    then <[mapKey key e := value e]> r else r.
Proof.
  unfold expired_step.
  by destruct (version e >=? int64.sub (currentVersion v key) age).
Qed.

End Serialization.

(** ** Sample maps. *)
Section Samples.

Lemma entries_of_New k : entries_of NewVersionedMap k = [].
Proof. unfold entries_of, NewVersionedMap. simpl. by rewrite lookup_empty. Qed.

Lemma replica_b_entries k :
  entries_of replica_b k
  = if decide (k = "k"%string)
    then [MapEntry "y" 2; MapEntry "x" 1; MapEntry "y" 2] else [].
Proof.
  unfold replica_b. rewrite !entries_of_SetVersion, entries_of_New.
  repeat case_decide; try congruence; done.
Qed.

Lemma replica_b_well_typed : well_typed replica_b.
Proof.
  intros key e. rewrite replica_b_entries. case_decide; [|set_solver].
  intros He. repeat (apply elem_of_cons in He as [->|He]);
    [by vm_compute..|set_solver].
Qed.

Lemma replica_b_colon_free : colon_free_keys replica_b.
Proof.
  intros key. unfold replica_b, SetVersion. simpl.
  rewrite !lookup_insert. case_decide; [by subst|].
  rewrite lookup_empty. by intros [? ?].
Qed.

Lemma replica_b_conflict_free : conflict_free replica_b.
Proof.
  intros key e1 e2. rewrite replica_b_entries. case_decide; [|set_solver].
  intros H1 H2.
  repeat (apply elem_of_cons in H1 as [->|H1]);
    repeat (apply elem_of_cons in H2 as [->|H2]);
    simpl; try done; set_solver.
Qed.

End Samples.

(** C2, as the code has it: for a map whose keys contain no colon and in
    which no key holds two different non-empty values at one version,
    reading the output of [MarshalMap] into a fresh map returns no error,
    in whatever order the records are visited, and gives a map that holds
    the same entries for every key, hence the same [Get] for every key. *)
Theorem C2_round_trip (m : VersionedMap)
        (Hwt : well_typed m) (Hkeys : colon_free_keys m)
        (Hcf : conflict_free m) :
  (∃ m', UnmarshalMap NewVersionedMap (MarshalMap m) = Done m'
         ∧ ∀ k, Get m' k = Get m k)
  ∧ ∀ records, records ≡ₚ map_to_list (MarshalMap m) →
      ∃ m', UnmarshalRecords records NewVersionedMap = Done m'
            ∧ same_entries m' m
            ∧ ∀ k, Get m' k = Get m k.
Proof.
  assert (∀ records, records ≡ₚ map_to_list (MarshalMap m) →
            ∃ m', UnmarshalRecords records NewVersionedMap = Done m'
                  ∧ same_entries m' m) as Hmain.
  { intros records Hperm.
    assert (∀ s x, (s, x) ∈ records ↔ MarshalMap m !! s = Some x) as Hrec.
    { intros s x. rewrite Hperm. apply elem_of_map_to_list. }
    destruct (UnmarshalRecords_good records NewVersionedMap) as (m' & Hrun & Hm').
    { intros s x (key & e & He & -> & ->)%Hrec%MarshalMap_sound.
      exists key, e. split; [done|]. split; [done|]. split; [|by eapply Hwt].
      apply Hkeys. apply entries_of_elem in He as (es & -> & _). done. }
    exists m'. split; [done|]. intros k e. rewrite Hm', entries_of_New. split.
    - intros [?|(Hin & Hk & Hr)]; [set_solver|].
      apply Hrec, MarshalMap_sound in Hin as (key1 & e1 & He1 & Hkey & Hval).
      apply mapKey_inj in Hkey as (-> & _ & Hver); [|done|by eapply Hwt].
      assert (e = e1) as -> by (destruct e, e1; simpl in *; congruence).
      done.
    - intros He. right. split; [|split].
      + apply Hrec. by apply MarshalMap_lookup.
      + apply Hkeys. apply entries_of_elem in He as (es & -> & _). done.
      + by eapply Hwt. }
  split.
  - destruct (Hmain (map_to_list (MarshalMap m))) as (m' & Hrun & Hsame);
      [done|].
    exists m'. split; [done|]. by apply Get_same_entries.
  - intros records Hperm. destruct (Hmain records Hperm) as (m' & Hrun & Hsame).
    exists m'. split; [done|]. split; [done|]. by apply Get_same_entries.
Qed.

Lemma C2_round_trip_witness :
  well_typed replica_b ∧ colon_free_keys replica_b ∧ conflict_free replica_b
  ∧ ∃ m', UnmarshalMap NewVersionedMap (MarshalMap replica_b) = Done m'
          ∧ Get m' "k" = "y"%string.
Proof.
  split; [exact replica_b_well_typed|].
  split; [exact replica_b_colon_free|].
  split; [exact replica_b_conflict_free|].
  destruct (proj1 (C2_round_trip replica_b replica_b_well_typed
                                 replica_b_colon_free replica_b_conflict_free))
    as (m' & Hrun & Hget).
  exists m'. split; [exact Hrun|]. rewrite Hget. vm_compute. reflexivity.
Defined.

(** C2 as the specification words it fails twice.  Two sets of one version
    share the record key, the later one in the slice overwrites the earlier
    one, and the value read back is not the one [Get] chose; and a key that
    contains a colon shifts the fields of the record key, so that reading it
    back returns an error. *)
Lemma C2_counterexample :
  let m := SetVersion (SetVersion NewVersionedMap "k" "b" 1) "k" "a" 1 in
  let m2 := SetVersion NewVersionedMap "a:b" "x" 1 in
  Get m "k" = "b"%string
  ∧ MarshalMap m = {[ "k:s:1"%string := "a"%string ]}
  ∧ UnmarshalMap NewVersionedMap (MarshalMap m)
    = Done (SetVersion NewVersionedMap "k" "a" 1)
  ∧ Get (SetVersion NewVersionedMap "k" "a" 1) "k" = "a"%string
  ∧ MarshalMap m2 = {[ "a:b:s:1"%string := "x"%string ]}
  ∧ UnmarshalMap NewVersionedMap (MarshalMap m2) = Failed NewVersionedMap.
Proof.
  simpl. repeat split; vm_compute; reflexivity.
Qed.

(** C5, as the code has it: for an age from 0 up, [MarshalExpiredMap] leaves
    the map as it is, writes records only for entries whose version is below
    the key's current version minus the age, writes the record key of every
    such entry, and writes no record for an entry that holds the highest
    version of its key when that version is 0 or more. *)
Theorem C5_expired_records (v : VersionedMap) (age : Z)
        (Hwt : well_typed v) (Hage : 0 <= age <= int64.max) :
  snd (MarshalExpiredMap v age) = v
  ∧ (∀ s x, fst (MarshalExpiredMap v age) !! s = Some x →
       ∃ key e, e ∈ entries_of v key ∧ s = mapKey key e ∧ x = value e
                ∧ version e < currentVersion v key - age)
  ∧ (∀ key e, e ∈ entries_of v key →
       version e < currentVersion v key - age →
       is_Some (fst (MarshalExpiredMap v age) !! mapKey key e))
  ∧ (conflict_free v →
     ∀ key e, e ∈ entries_of v key →
       version e < currentVersion v key - age →
       fst (MarshalExpiredMap v age) !! mapKey key e = Some (value e))
  ∧ (∀ key e, e ∈ entries_of v key →
       (∀ e', e' ∈ entries_of v key → version e' <= version e) →
       0 <= version e →
       fst (MarshalExpiredMap v age) !! mapKey key e = None).
Proof.
  set (keep := λ key e,
         negb (version e >=? int64.sub (currentVersion v key) age)).
  assert (∀ key e, keep key e = true ↔
                   version e < currentVersion v key - age) as Hkeep.
  { intros key e. unfold keep, int64.sub.
    pose proof (currentVersion_range v key Hwt) as Hcur.
    rewrite int64_wrap_in_range
      by (unfold int64.in_range, int64.min, int64.max in *; lia).
    rewrite Z.geb_leb, negb_true_iff, Z.leb_gt. done. }
  assert (∀ s x, fst (MarshalExpiredMap v age) !! s = Some x →
            ∃ key e, e ∈ entries_of v key ∧ s = mapKey key e ∧ x = value e
                     ∧ version e < currentVersion v key - age) as Hsound.
  { intros s x H. unfold MarshalExpiredMap in H. cbn [fst] in H.
    apply (outer_sound keep
             (λ key, expired_step key (currentVersion v key) age)) in H
      as (key & es & e & Hm & He & Hk & -> & ->);
      [|intros; apply expired_step_spec].
    exists key, e. split; [apply entries_of_elem; eauto|].
    split; [done|]. split; [done|]. by apply Hkeep. }
  assert (∀ key e, e ∈ entries_of v key →
            version e < currentVersion v key - age →
            is_Some (fst (MarshalExpiredMap v age) !! mapKey key e))
    as Hcomplete.
  { intros key e (es & Hm & He)%entries_of_elem Hlt.
    unfold MarshalExpiredMap. cbn [fst].
    apply (outer_complete keep
             (λ key, expired_step key (currentVersion v key) age))
      with (es := es); [intros; apply expired_step_spec|done..|].
    by apply Hkeep. }
  split; [done|]. split; [exact Hsound|]. split; [exact Hcomplete|].
  split.
  - intros Hcf key e He Hlt.
    destruct (Hcomplete key e He Hlt) as [x Hx]. rewrite Hx.
    apply Hsound in Hx as (key1 & e1 & He1 & Hkey & -> & _).
    apply mapKey_inj in Hkey as (-> & Hop & Hver); [|by eapply Hwt..].
    f_equal. by eapply same_record_same_value.
  - intros key e He Hmax Hnn.
    destruct (fst (MarshalExpiredMap v age) !! mapKey key e) as [x|] eqn:Hx;
      [exfalso|done].
    apply Hsound in Hx as (key1 & e1 & He1 & Hkey & _ & Hlt).
    apply mapKey_inj in Hkey as (-> & _ & Hver); [|by eapply Hwt..].
    unfold currentVersion in Hlt.
    destruct (currentVersion_loop_attained (entries_of v key1) 0)
      as [Hz|(e2 & He2 & Hv2)].
    + rewrite Hz in Hlt. lia.
    + rewrite Hv2 in Hlt. apply Hmax in He2. lia.
Qed.

Lemma C5_expired_records_witness :
  well_typed replica_b ∧ 0 <= 0 <= int64.max
  ∧ fst (MarshalExpiredMap replica_b 0) !! "k:s:2"%string = None
  ∧ is_Some (fst (MarshalExpiredMap replica_b 0) !! "k:s:1"%string).
Proof.
  assert (0 <= 0 <= int64.max) as Hage by (unfold int64.max; lia).
  assert (MapEntry "y" 2 ∈ entries_of replica_b "k"
          ∧ MapEntry "x" 1 ∈ entries_of replica_b "k") as [Hy Hx].
  { rewrite replica_b_entries. split; set_solver. }
  destruct (C5_expired_records replica_b 0 replica_b_well_typed Hage)
    as (_ & _ & Hincl & _ & Hexcl).
  split; [exact replica_b_well_typed|]. split; [exact Hage|]. split.
  - apply (Hexcl "k"%string (MapEntry "y" 2) Hy); [|simpl; lia].
    intros e'. rewrite replica_b_entries. intros He'.
    repeat (apply elem_of_cons in He' as [->|He']); [simpl; lia..|set_solver].
  - apply (Hincl "k"%string (MapEntry "x" 1) Hx). vm_compute. reflexivity.
Defined.

(** C5 as the specification words it fails: with a negative age the entry of
    highest version is returned as expired, and so is, at age 0, the highest
    entry of a key whose versions are all negative. *)
Lemma C5_counterexample :
  let v := SetVersion NewVersionedMap "k" "x" 1 in
  let w := SetVersion NewVersionedMap "k" "x" (-1) in
  entries_of v "k" = [MapEntry "x" 1]
  ∧ fst (MarshalExpiredMap v (-1)) = {[ "k:s:1"%string := "x"%string ]}
  ∧ entries_of w "k" = [MapEntry "x" (-1)]
  ∧ fst (MarshalExpiredMap w 0) = {[ "k:s:-1"%string := "x"%string ]}.
Proof.
  simpl. repeat split; vm_compute; reflexivity.
Qed.

(** ** The runtime: the monad of the model. *)
Section RuntimeMonad.
Import docker runtime.

Lemma bind_unfold {A B} (m : M A) (f : A → M B) w :
  (m ≫= f) w
  = match m w with
    | Returned a w' => f a w'
    | Panicked => Panicked
    | OutOfFuel => OutOfFuel
    end.
Proof. reflexivity. Qed.

Lemma ret_unfold {A} (a : A) w : (mret a : M A) w = Returned a w.
Proof. reflexivity. Qed.

Lemma EnvFor_m_Some c env w : EnvFor c = Some env → EnvFor_m c w = Returned env w.
Proof. unfold EnvFor_m. by intros ->. Qed.

Lemma keeps_refl w : keeps_blacklist w w.
Proof.
  split; [done|]. exists []. rewrite app_nil_r. split; [done|set_solver].
Qed.

Lemma keeps_trans w1 w2 w3 :
  keeps_blacklist w1 w2 → keeps_blacklist w2 w3 → keeps_blacklist w1 w3.
Proof.
  intros [M1 (n1 & R1 & N1)] [M2 (n2 & R2 & N2)]. split; [auto|].
  exists (n1 ++ n2). rewrite R2, R1, app_assoc. split; [done|].
  intros id [H|H]%elem_of_app; [auto|].
  apply N2 in H. destruct (blacklistedContainerId w1 !! id) eqn:E; [|done].
  destruct (M1 id) as [x Hx]; [by eexists|]. congruence.
Qed.

Lemma preserving_ret {A} (a : A) : preserving (mret a).
Proof. intros w a' w' [= _ <-]. apply keeps_refl. Qed.

Lemma preserving_bind {A B} (m : M A) (f : A → M B) :
  preserving m → (∀ a, preserving (f a)) → preserving (m ≫= f).
Proof.
  intros Hm Hf w b w'. rewrite bind_unfold.
  destruct (m w) as [a w1| |] eqn:E; [|done..].
  intros H. eapply keeps_trans; [by eapply Hm|by eapply Hf].
Qed.

Lemma preserving_panic {A} : preserving (@panic A).
Proof. by intros w a w'. Qed.

Lemma preserving_EnvFor_m c : preserving (EnvFor_m c).
Proof.
  unfold EnvFor_m. destruct (EnvFor c);
    [apply preserving_ret|apply preserving_panic].
Qed.

Lemma preserving_InspectImage_m image : preserving (InspectImage_m image).
Proof. intros w a w' [= _ <-]. apply keeps_refl. Qed.

Lemma preserving_get_world : preserving get_world.
Proof. intros w a w' [= _ <-]. apply keeps_refl. Qed.

Lemma preserving_ManagedContainers : preserving ManagedContainers.
Proof.
  intros w a w'. unfold ManagedContainers.
  destruct (ListContainers (dockerClient w)) as [ids [err|]].
  - intros [= _ <-]. apply keeps_refl.
  - destruct (ManagedContainers_loop (dockerClient w) ids []); [|done].
    intros [= _ <-]. apply keeps_refl.
Qed.

(** [stopContainer] on a blacklisted id: no request, nil, nothing changed
    but the log of the calls. *)
Lemma stopContainer_blacklisted c w :
  is_Some (blacklistedContainerId w !! ID c) →
  stopContainer c w = Returned None (log_call (ID c) w).
Proof. intros [b Hb]. unfold stopContainer. simpl. by rewrite Hb. Qed.

Lemma preserving_stopContainer c : preserving (stopContainer c).
Proof.
  intros w a w'. unfold stopContainer. simpl.
  destruct (blacklistedContainerId w !! ID c) as [b|] eqn:Hb.
  { intros [= _ <-]. split; [done|]. exists []. simpl.
    rewrite app_nil_r. split; [done|set_solver]. }
  destruct (String.length (ID c) <? 12)%nat; [done|].
  assert (∀ id, StopContainer_req id ∈ [StopContainer_req (ID c)] →
                blacklistedContainerId w !! id = None) as Hnew.
  { intros id Hin. apply list_elem_of_singleton in Hin. by simplify_eq. }
  destruct (StopContainer (dockerClient w) (ID c)) as [[err|]|];
    intros [= _ <-]; (split; [|by eexists]); simpl; try done.
  intros id Hid. rewrite lookup_insert. by case_decide.
Qed.

End RuntimeMonad.

(** ** The stop family never takes an id off the blacklist. *)
Section Blacklist.
Import docker runtime.

Local Ltac preserve IH :=
  repeat first
    [ apply preserving_ret
    | apply preserving_panic
    | apply IH
    | apply preserving_EnvFor_m
    | apply preserving_InspectImage_m
    | apply preserving_get_world
    | apply preserving_stopContainer
    | apply preserving_bind; [|intros ?]
    | match goal with
      | |- preserving (if ?b then _ else _) => destruct b
      | |- preserving (match ?x with (_, _) => _ end) => destruct x
      | |- preserving (match ?x with Some _ => _ | None => _ end) => destruct x
      end ].

Lemma preserving_StopAllMatching_loop name cs :
  preserving (StopAllMatching_loop name cs).
Proof. induction cs as [|c cs IH]; cbn [StopAllMatching_loop]; preserve IH. Qed.

Lemma preserving_Stop_loop appCfg cs : preserving (Stop_loop appCfg cs).
Proof. induction cs as [|c cs IH]; cbn [Stop_loop]; preserve IH. Qed.

Lemma preserving_StopOldVersion_loop appCfg limit cs : ∀ stopped,
  preserving (StopOldVersion_loop appCfg limit stopped cs).
Proof.
  induction cs as [|c cs IH]; intros stopped; cbn [StopOldVersion_loop];
    preserve IH.
Qed.

Lemma preserving_StopAllButCurrentVersion_loop appCfg cs :
  preserving (StopAllButCurrentVersion_loop appCfg cs).
Proof.
  induction cs as [|c cs IH]; cbn [StopAllButCurrentVersion_loop]; preserve IH.
Qed.

Lemma preserving_StopUnassigned_loop env pool cs :
  preserving (StopUnassigned_loop env pool cs).
Proof.
  induction cs as [|c cs IH]; cbn [StopUnassigned_loop]; preserve IH.
Qed.

Lemma preserving_StopAll_loop cs : preserving (StopAll_loop cs).
Proof. induction cs as [|c cs IH]; cbn [StopAll_loop]; preserve IH. Qed.

Lemma preserving_run op : preserving (run op).
Proof.
  destruct op; cbn [run];
    try (apply preserving_bind; [apply preserving_ManagedContainers|];
         intros [cs [err|]]; [apply preserving_ret|]).
  - apply preserving_Stop_loop.
  - apply preserving_StopAllMatching_loop.
  - apply preserving_StopOldVersion_loop.
  - apply preserving_StopAllButCurrentVersion_loop.
  - apply preserving_StopUnassigned_loop.
  - apply preserving_StopAll_loop.
  - apply preserving_stopContainer.
  - intros w a w' [= _ <-]. split; [done|]. exists []. simpl.
    rewrite app_nil_r. split; [done|set_solver].
Qed.

Lemma preserving_run_all ops : preserving (run_all ops).
Proof.
  induction ops as [|op ops IH]; cbn [run_all]; [apply preserving_ret|].
  apply preserving_bind; [apply preserving_run|]. intros _. apply IH.
Qed.

End Blacklist.

(** ** What each operation of the stop family stops. *)
Section StopFamily.
Import docker runtime.

(** The log line of [stopContainer] slices 12 bytes off the id: on a shorter
    one the call panics before any request is sent. *)
Example stopContainer_short_id :
  stopContainer {| ID := "abc"; Name := "/web.0"; Image := "img7";
                   Container_Config := Some {| Env := [] |};
                   Container_State := sample.running |}
                sample.world0
  = Panicked.
Proof. reflexivity. Qed.

Lemma stops_only_refl w : stops_only [] w w.
Proof. split; [by rewrite app_nil_r|done..]. Qed.

Lemma stops_only_trans a b w1 w2 w3 :
  stops_only a w1 w2 → stops_only b w2 w3 → stops_only (a ++ b) w1 w3.
Proof.
  intros [C1 I1 P1 U1] [C2 I2 P2 U2]. split.
  - by rewrite C2, C1, app_assoc.
  - by rewrite I2.
  - by rewrite P2.
  - intros q Hq. assert (InspectContainer (dockerClient w2) q
                       = InspectContainer (dockerClient w1) q) as H12.
    { apply U1. intros c e Hc. specialize (Hq c e Hc). set_solver. }
    rewrite <- H12. apply U2. intros c e Hc. rewrite H12 in Hc.
    specialize (Hq c e Hc). set_solver.
Qed.

(** A call of [stopContainer] on a container with a printable id returns. *)
Lemma stopContainer_total c w :
  (12 <= String.length (ID c))%nat →
  ∃ r w', stopContainer c w = Returned r w' ∧ stops_only [ID c] w w'.
Proof.
  intros Hlen. unfold stopContainer. simpl.
  destruct (blacklistedContainerId w !! ID c) as [b|].
  { eexists _, _. split; [done|]. by split. }
  destruct (Nat.ltb_spec (String.length (ID c)) 12) as [?|_]; [lia|].
  destruct (StopContainer (dockerClient w) (ID c)) as [[err|]|];
    eexists _, _; (split; [done|]); split; simpl; try done.
  intros q Hq. destruct (InspectContainer (dockerClient w) q) as [[c0|] e];
    [|done].
  destruct (String.eqb_spec (ID c0) (ID c)) as [Heq|]; [|done].
  specialize (Hq c0 e eq_refl). set_solver.
Qed.

(** [ManagedContainers] only reads, and returns containers whose
    environment could be read. *)
Lemma ManagedContainers_loop_env d ids : ∀ apps res,
  ManagedContainers_loop d ids apps = Some res →
  (∀ c, c ∈ apps → is_Some (EnvFor c)) →
  ∀ c, c ∈ res → is_Some (EnvFor c).
Proof.
  induction ids as [|id ids IH]; intros apps res; simpl.
  - intros [= <-]. done.
  - destruct (InspectContainer d id) as [[c0|] [err|]]; try done;
      try apply IH.
    destruct (EnvFor c0) as [env|] eqn:Henv; [|done].
    destruct (negb _ && _); [|apply IH].
    intros Hrun Happs. eapply IH; [done|].
    intros c [?| ->%list_elem_of_singleton]%elem_of_app; [auto|by eexists].
Qed.

Lemma ManagedContainers_stoppable w cs w' :
  ManagedContainers w = Returned (cs, None) w' →
  Forall (λ c, (12 <= String.length (ID c))%nat) cs →
  w' = w ∧ Forall stoppable cs.
Proof.
  unfold ManagedContainers.
  destruct (ListContainers (dockerClient w)) as [ids [err|]]; [done|].
  destruct (ManagedContainers_loop (dockerClient w) ids []) as [apps|] eqn:E;
    [|done].
  intros [= -> ->] Hlen. split; [done|].
  apply Forall_forall. intros c Hc. split.
  - eapply ManagedContainers_loop_env; [done|set_solver|done].
  - by eapply Forall_forall in Hlen.
Qed.

Lemma outdated_same_images d1 d2 appCfg cs :
  InspectImage d1 = InspectImage d2 →
  List.filter (outdated d1 appCfg) cs = List.filter (outdated d2 appCfg) cs.
Proof.
  intros H. apply List.filter_ext. intros c. unfold outdated. by rewrite H.
Qed.

Lemma unassigned_same_pools w1 w2 env pool cs :
  ListAssignedPools w1 = ListAssignedPools w2 →
  List.filter (unassigned w1 env pool) cs
  = List.filter (unassigned w2 env pool) cs.
Proof.
  intros H. apply List.filter_ext. intros c. unfold unassigned. by rewrite H.
Qed.

Lemma tagged_env name c env :
  EnvFor c = Some env →
  tagged name c = String.eqb (index env "GALAXY_APP") name.
Proof. unfold tagged, app_of. by intros ->. Qed.

Lemma current_env appCfg c env :
  EnvFor c = Some env → current appCfg c = Stop_matches appCfg c env.
Proof. unfold current. by intros ->. Qed.

Lemma outdated_env d appCfg c env :
  EnvFor c = Some env →
  outdated d appCfg c
  = String.eqb (index env "GALAXY_APP") (App_Name appCfg)
    && match InspectImage d (Image c) with
       | (Some image, None) => differs appCfg image env
       | _ => false
       end.
Proof. unfold outdated, tagged, app_of. by intros ->. Qed.

Lemma unassigned_env w env pool c cenv :
  EnvFor c = Some cenv →
  unassigned w env pool c
  = match ListAssignedPools w env (index cenv "GALAXY_APP") with
    | (_, Some _) => false
    | (pools, None) =>
        (length pools =? 0)%nat || negb (StringInSlice pool pools)
    end.
Proof. unfold unassigned, app_of. by intros ->. Qed.

Local Ltac stop_then_rest c w IH Hlen Hok' :=
  let r := fresh "r" in let w1 := fresh "w1" in
  let Hs := fresh "Hs" in let Hso := fresh "Hso" in
  let w' := fresh "w'" in let Hrun := fresh "Hrun" in
  let Hso' := fresh "Hso'" in
  rewrite bind_unfold;
  destruct (stopContainer_total c w Hlen) as (r & w1 & Hs & Hso);
  rewrite Hs.

Lemma StopAllMatching_loop_spec name cs : ∀ w,
  Forall stoppable cs →
  ∃ w', StopAllMatching_loop name cs w = Returned None w'
        ∧ stops_only (ID <$> List.filter (tagged name) cs) w w'.
Proof.
  induction cs as [|c cs IH]; intros w Hok.
  { exists w. split; [done|apply stops_only_refl]. }
  apply Forall_cons in Hok as [[[env Henv] Hlen] Hok'].
  cbn [StopAllMatching_loop List.filter]. rewrite bind_unfold.
  rewrite (EnvFor_m_Some c env) by done.
  rewrite (tagged_env name c env) by done.
  destruct (String.eqb (index env "GALAXY_APP") name); cbn [negb];
    [|apply IH, Hok'].
  stop_then_rest c w IH Hlen Hok'.
  destruct (IH w1 Hok') as (w' & Hrun & Hso').
  exists w'. split; [done|]. apply (stops_only_trans [ID c] _ _ _ _ Hso Hso').
Qed.

Lemma StopAll_loop_spec cs : ∀ w,
  Forall stoppable cs →
  ∃ w', StopAll_loop cs w = Returned None w' ∧ stops_only (ID <$> cs) w w'.
Proof.
  induction cs as [|c cs IH]; intros w Hok.
  { exists w. split; [done|apply stops_only_refl]. }
  apply Forall_cons in Hok as [[_ Hlen] Hok'].
  cbn [StopAll_loop]. stop_then_rest c w IH Hlen Hok'.
  destruct (IH w1 Hok') as (w' & Hrun & Hso').
  exists w'. split; [done|]. apply (stops_only_trans [ID c] _ _ _ _ Hso Hso').
Qed.

Lemma StopUnassigned_loop_spec env pool cs : ∀ w,
  Forall stoppable cs →
  ∃ w', StopUnassigned_loop env pool cs w = Returned None w'
        ∧ stops_only (ID <$> List.filter (unassigned w env pool) cs) w w'.
Proof.
  induction cs as [|c cs IH]; intros w Hok.
  { exists w. split; [done|apply stops_only_refl]. }
  apply Forall_cons in Hok as [[[cenv Henv] Hlen] Hok'].
  cbn [StopUnassigned_loop List.filter]. rewrite bind_unfold.
  rewrite (EnvFor_m_Some c cenv) by done. rewrite bind_unfold.
  cbn [get_world]. rewrite (unassigned_env w env pool c cenv) by done.
  destruct (ListAssignedPools w env (index cenv "GALAXY_APP"))
    as [pools [err|]]; [apply IH, Hok'|].
  destruct ((length pools =? 0)%nat || negb (StringInSlice pool pools));
    [|apply IH, Hok'].
  stop_then_rest c w IH Hlen Hok'.
  destruct (IH w1 Hok') as (w' & Hrun & Hso').
  exists w'. split; [done|].
  rewrite (unassigned_same_pools w1 w) in Hso' by apply Hso.
  apply (stops_only_trans [ID c] _ _ _ _ Hso Hso').
Qed.

Lemma StopAllButCurrentVersion_loop_spec appCfg cs : ∀ w,
  Forall stoppable cs →
  ∃ w', StopAllButCurrentVersion_loop appCfg cs w = Returned None w'
        ∧ stops_only
            (ID <$> List.filter (outdated (dockerClient w) appCfg) cs) w w'.
Proof.
  induction cs as [|c cs IH]; intros w Hok.
  { exists w. split; [done|apply stops_only_refl]. }
  apply Forall_cons in Hok as [[[env Henv] Hlen] Hok'].
  cbn [StopAllButCurrentVersion_loop List.filter]. rewrite bind_unfold.
  rewrite (EnvFor_m_Some c env) by done.
  rewrite (outdated_env (dockerClient w) appCfg c env) by done.
  destruct (String.eqb (index env "GALAXY_APP") (App_Name appCfg));
    cbn [negb andb]; [|apply IH, Hok'].
  rewrite bind_unfold. cbn [InspectImage_m].
  destruct (InspectImage (dockerClient w) (Image c)) as [[image|] [err|]];
    try apply IH, Hok'.
  - destruct (differs appCfg image env); [|apply IH, Hok'].
    stop_then_rest c w IH Hlen Hok'.
    destruct (IH w1 Hok') as (w' & Hrun & Hso').
    exists w'. split; [done|].
    rewrite (outdated_same_images (dockerClient w1) (dockerClient w)) in Hso'
      by apply Hso.
    apply (stops_only_trans [ID c] _ _ _ _ Hso Hso').
  - destruct (Nat.ltb_spec (String.length (ID c)) 12) as [?|_]; [lia|].
    apply IH, Hok'.
Qed.

Lemma StopOldVersion_loop_spec appCfg limit cs : ∀ stopped w,
  Forall stoppable cs → stopped <= limit →
  ∃ w', StopOldVersion_loop appCfg limit stopped cs w = Returned None w'
        ∧ stops_only
            (ID <$> take (Z.to_nat (limit - stopped))
                         (List.filter (outdated (dockerClient w) appCfg) cs))
            w w'.
Proof.
  induction cs as [|c cs IH]; intros stopped w Hok Hle.
  { exists w. split; [done|]. cbn [List.filter]. rewrite take_nil.
    apply stops_only_refl. }
  apply Forall_cons in Hok as [[[env Henv] Hlen] Hok'].
  cbn [StopOldVersion_loop]. destruct (Z.eqb_spec stopped limit) as [->|Hne].
  { exists w. split; [done|]. rewrite Z.sub_diag. apply stops_only_refl. }
  cbn [List.filter]. rewrite bind_unfold.
  rewrite (EnvFor_m_Some c env) by done.
  rewrite (outdated_env (dockerClient w) appCfg c env) by done.
  destruct (String.eqb (index env "GALAXY_APP") (App_Name appCfg));
    cbn [negb andb]; [|by apply IH].
  rewrite bind_unfold. cbn [InspectImage_m].
  destruct (InspectImage (dockerClient w) (Image c)) as [[image|] [err|]];
    try by apply IH.
  - destruct (differs appCfg image env); [|by apply IH].
    stop_then_rest c w IH Hlen Hok'.
    destruct (IH (stopped + 1) w1 Hok') as (w' & Hrun & Hso'); [lia|].
    exists w'. split; [done|].
    rewrite (outdated_same_images (dockerClient w1) (dockerClient w)) in Hso'
      by apply Hso.
    replace (Z.to_nat (limit - stopped))
      with (S (Z.to_nat (limit - (stopped + 1)))) by lia.
    apply (stops_only_trans [ID c] _ _ _ _ Hso Hso').
  - destruct (Nat.ltb_spec (String.length (ID c)) 12) as [?|_]; [lia|].
    by apply IH.
Qed.

Lemma Stop_loop_spec appCfg cs : ∀ w,
  Forall stoppable cs →
  ∃ r w', Stop_loop appCfg cs w = Returned r w'
        ∧ stops_only (ID <$> take 1 (List.filter (current appCfg) cs)) w w'.
Proof.
  induction cs as [|c cs IH]; intros w Hok.
  { exists None, w. split; [done|apply stops_only_refl]. }
  apply Forall_cons in Hok as [[[env Henv] Hlen] Hok'].
  cbn [Stop_loop List.filter]. rewrite bind_unfold.
  rewrite (EnvFor_m_Some c env) by done.
  rewrite (current_env appCfg c env) by done.
  destruct (Stop_matches appCfg c env); [|apply IH, Hok'].
  destruct (stopContainer_total c w Hlen) as (r & w1 & Hs & Hso).
  exists r, w1. split; [done|].
  by replace (ID <$> take 1 (c :: List.filter (current appCfg) cs))
    with [ID c] by done.
Qed.

(** [Stop] returns from inside its loop: at the first container of the
    current version, with what [stopContainer] returns for it. *)
Lemma Stop_loop_first appCfg cs w :
  Forall (λ c, is_Some (EnvFor c)) cs →
  Stop_loop appCfg cs w
  = match List.filter (current appCfg) cs with
    | [] => Returned None w
    | c :: _ => stopContainer c w
    end.
Proof.
  induction cs as [|c cs IH]; intros Hcs; [done|].
  apply Forall_cons in Hcs as [[env Henv] Hcs].
  cbn [Stop_loop List.filter]. rewrite bind_unfold.
  rewrite (EnvFor_m_Some c env) by done.
  rewrite (current_env appCfg c env) by done.
  destruct (Stop_matches appCfg c env); [done|by apply IH].
Qed.

End StopFamily.

(** ** The retry loop of [PullImage]. *)
Section Pull.
Import docker runtime.

Lemma PullImage_loop_step fuel retries image w :
  PullImage_loop (S fuel) retries image w
  = match docker.PullImage (dockerClient w) with
    | Some e :: _ =>
        if String.eqb (Error e) "HTTP code: 404"
        then Returned (inl (image, None)) (after_request w)
        else if retries + 1 >? 3
             then Returned (inl (image, Some e)) (after_request w)
             else PullImage_loop fuel (retries + 1) image (after_request w)
    | _ => Returned (inr tt) (after_request w)
    end.
Proof.
  cbn [PullImage_loop]. rewrite bind_unfold. unfold dockerClient_PullImage.
  fold (after_request w).
  destruct (docker.PullImage (dockerClient w)) as [|[e|] rest]; try done.
  destruct (String.eqb (Error e) "HTTP code: 404"); [done|].
  by destruct (retries + 1 >? 3).
Qed.

Lemma requests_after_request w :
  requests (after_request w) = requests w ++ [PullImage_req].
Proof. reflexivity. Qed.

(** The loop ends within four requests, whatever the daemon answers. *)
Lemma PullImage_loop_bounded fuel : ∀ retries image w,
  0 <= retries <= 3 → (Z.to_nat (4 - retries) <= fuel)%nat →
  ∃ out w' n,
    PullImage_loop fuel retries image w = Returned out w'
    ∧ requests w' = requests w ++ replicate n PullImage_req
    ∧ (1 <= n)%nat ∧ retries + Z.of_nat n <= 4.
Proof.
  induction fuel as [|fuel IH]; intros retries image w Hr Hfuel; [lia|].
  rewrite PullImage_loop_step.
  assert (requests (after_request w)
          = requests w ++ replicate 1 PullImage_req) as Hone by done.
  destruct (docker.PullImage (dockerClient w)) as [|[e|] rest];
    [by eexists _, _, 1%nat; repeat split; try done; lia| |
     by eexists _, _, 1%nat; repeat split; try done; lia].
  destruct (String.eqb (Error e) "HTTP code: 404");
    [by eexists _, _, 1%nat; repeat split; try done; lia|].
  destruct (Z.gtb_spec (retries + 1) 3);
    [by eexists _, _, 1%nat; repeat split; try done; lia|].
  destruct (IH (retries + 1) image (after_request w))
    as (out & w' & n & Hrun & Hreq & Hn1 & Hn4); [lia..|].
  exists out, w', (S n). split; [done|]. split; [|lia].
  rewrite Hreq, requests_after_request, <- app_assoc. done.
Qed.

Lemma transient_not_404 e :
  transient e = true → String.eqb (Error e) "HTTP code: 404" = false.
Proof. unfold transient. by destruct (String.eqb _ _). Qed.

Lemma script_after_request w :
  docker.PullImage (dockerClient (after_request w))
  = tail (docker.PullImage (dockerClient w)).
Proof. reflexivity. Qed.

Lemma PullImage_loop_transient fuel retries image w e rest :
  docker.PullImage (dockerClient w) = Some e :: rest →
  transient e = true →
  PullImage_loop (S fuel) retries image w
  = if retries + 1 >? 3
    then Returned (inl (image, Some e)) (after_request w)
    else PullImage_loop fuel (retries + 1) image (after_request w).
Proof.
  intros Hs Ht. rewrite PullImage_loop_step, Hs.
  by rewrite (transient_not_404 e Ht).
Qed.

(** Four transient failures in a row: four requests, and the last error is
    what the loop returns. *)
Lemma PullImage_loop_four_failures fuel image w e1 e2 e3 e4 rest :
  (4 <= fuel)%nat →
  docker.PullImage (dockerClient w)
  = Some e1 :: Some e2 :: Some e3 :: Some e4 :: rest →
  transient e1 = true → transient e2 = true →
  transient e3 = true → transient e4 = true →
  ∃ w', PullImage_loop fuel 0 image w = Returned (inl (image, Some e4)) w'
        ∧ requests w' = requests w ++ replicate 4 PullImage_req.
Proof.
  intros Hfuel Hscript T1 T2 T3 T4.
  do 4 (destruct fuel as [|fuel]; [lia|]).
  set (w1 := after_request w). set (w2 := after_request w1).
  set (w3 := after_request w2).
  assert (docker.PullImage (dockerClient w1)
          = Some e2 :: Some e3 :: Some e4 :: rest) as H1.
  { unfold w1. by rewrite script_after_request, Hscript. }
  assert (docker.PullImage (dockerClient w2) = Some e3 :: Some e4 :: rest)
    as H2.
  { unfold w2. by rewrite script_after_request, H1. }
  assert (docker.PullImage (dockerClient w3) = Some e4 :: rest) as H3.
  { unfold w3. by rewrite script_after_request, H2. }
  rewrite (PullImage_loop_transient _ _ _ w e1 _ Hscript T1).
  change (0 + 1 >? 3) with false. cbn iota. fold w1.
  rewrite (PullImage_loop_transient _ _ _ w1 e2 _ H1 T2).
  change (0 + 1 + 1 >? 3) with false. cbn iota. fold w2.
  rewrite (PullImage_loop_transient _ _ _ w2 e3 _ H2 T3).
  change (0 + 1 + 1 + 1 >? 3) with false. cbn iota. fold w3.
  rewrite (PullImage_loop_transient _ _ _ w3 e4 _ H3 T4).
  change (0 + 1 + 1 + 1 + 1 >? 3) with true. cbn iota.
  eexists. split; [done|]. subst w1 w2 w3.
  rewrite !requests_after_request, <- !app_assoc. done.
Qed.

(** A transient failure is followed by a second request at once. *)
Lemma PullImage_loop_retry fuel image w e rest :
  (4 <= fuel)%nat →
  docker.PullImage (dockerClient w) = Some e :: rest →
  transient e = true →
  ∃ out w' n,
    PullImage_loop fuel 0 image w = Returned out w'
    ∧ requests w' = requests w ++ replicate n PullImage_req
    ∧ (2 <= n <= 4)%nat.
Proof.
  intros Hfuel Hs Ht. destruct fuel as [|fuel]; [lia|].
  rewrite (PullImage_loop_transient _ _ _ w e _ Hs Ht).
  change (0 + 1 >? 3) with false. cbn iota.
  destruct (PullImage_loop_bounded fuel (0 + 1) image (after_request w))
    as (out & w' & n & Hrun & Hreq & Hn1 & Hn4); [lia..|].
  exists out, w', (S n). split; [done|]. split; [|lia].
  rewrite Hreq, requests_after_request, <- app_assoc. done.
Qed.

End Pull.

Section PullImage.
Import docker runtime.

Lemma PullImage_must_pull fuel version id w :
  must_pull w version id = true →
  PullImage fuel version id w
  = match PullImage_loop fuel 0 (fst (InspectImage (dockerClient w) version)) w
    with
    | Returned (inl result) w' => Returned result w'
    | Returned (inr _) w' =>
        Returned (InspectImage (dockerClient w') version) w'
    | Panicked => Panicked
    | OutOfFuel => OutOfFuel
    end.
Proof.
  unfold must_pull, PullImage. rewrite bind_unfold. cbn [InspectImage_m].
  destruct (InspectImage (dockerClient w) version) as [image [e|]];
    cbn [fst].
  - intros [He Hid]%andb_true_iff. rewrite He.
    apply negb_true_iff in Hid. rewrite Hid. cbn [negb]. rewrite bind_unfold.
    by destruct (PullImage_loop fuel 0 image w) as [[?|?] ?| |].
  - intros Hid%negb_true_iff. rewrite Hid. rewrite bind_unfold.
    by destruct (PullImage_loop fuel 0 image w) as [[?|?] ?| |].
Qed.

Lemma PullImage_no_pull fuel version id w :
  must_pull w version id = false →
  ∃ r, PullImage fuel version id w = Returned r w.
Proof.
  unfold must_pull, PullImage. rewrite bind_unfold. cbn [InspectImage_m].
  destruct (InspectImage (dockerClient w) version) as [image [e|]].
  - destruct (is_ErrNoSuchImage e); cbn [negb andb]; [|by eexists].
    intros ->%negb_false_iff. by eexists.
  - intros ->%negb_false_iff. by eexists.
Qed.

End PullImage.

Import docker runtime.

(** C6, as the code has it: with a loop bound of 4 or more the call returns,
    having sent to the daemon nothing but pull requests, one after the other
    and at most 4 of them (the first attempt and up to 3 retries), at least
    1 when it has to pull; after a transient failure of the first attempt a
    second one follows at once; and when 4 attempts in a row fail
    transiently, the error of the fourth is returned, with the image found
    before the pull. *)
Theorem C6_pull_attempts (fuel : nat) (version id : string) (w : World)
        (Hfuel : (4 <= fuel)%nat) :
  (∃ r w' n, PullImage fuel version id w = Returned r w'
             ∧ requests w' = requests w ++ replicate n PullImage_req
             ∧ (n <= 4)%nat
             ∧ (must_pull w version id = true → (1 <= n)%nat))
  ∧ (must_pull w version id = true →
     ∀ e rest, docker.PullImage (dockerClient w) = Some e :: rest →
       transient e = true →
       ∃ r w' n, PullImage fuel version id w = Returned r w'
                 ∧ requests w' = requests w ++ replicate n PullImage_req
                 ∧ (2 <= n <= 4)%nat)
  ∧ (must_pull w version id = true →
     ∀ e1 e2 e3 e4 rest,
       docker.PullImage (dockerClient w)
       = Some e1 :: Some e2 :: Some e3 :: Some e4 :: rest →
       transient e1 = true → transient e2 = true →
       transient e3 = true → transient e4 = true →
       ∃ w', PullImage fuel version id w
             = Returned (fst (InspectImage (dockerClient w) version), Some e4) w'
             ∧ requests w' = requests w ++ replicate 4 PullImage_req).
Proof.
  split; [|split].
  - destruct (must_pull w version id) eqn:Hmust.
    + rewrite PullImage_must_pull by done.
      destruct (PullImage_loop_bounded
                  fuel 0 (fst (InspectImage (dockerClient w) version)) w)
        as (out & w' & n & Hrun & Hreq & Hn1 & Hn4); [lia..|].
      rewrite Hrun. destruct out as [result|[]];
        eexists _, w', n; (split; [done|]); (split; [done|]); split; lia.
    + destruct (PullImage_no_pull fuel version id w Hmust) as [r Hr].
      exists r, w, 0%nat. split; [done|]. cbn [replicate].
      rewrite app_nil_r. split; [done|]. split; [lia|done].
  - intros Hmust e rest Hs Ht. rewrite PullImage_must_pull by done.
    destruct (PullImage_loop_retry
                fuel (fst (InspectImage (dockerClient w) version)) w e rest)
      as (out & w' & n & Hrun & Hreq & Hn); [done..|].
    rewrite Hrun. destruct out as [result|[]]; by eexists _, w', n.
  - intros Hmust e1 e2 e3 e4 rest Hs T1 T2 T3 T4.
    rewrite PullImage_must_pull by done.
    destruct (PullImage_loop_four_failures
                fuel (fst (InspectImage (dockerClient w) version)) w
                e1 e2 e3 e4 rest) as (w' & Hrun & Hreq); [done..|].
    rewrite Hrun. by exists w'.
Qed.

Lemma C6_pull_attempts_witness :
  (4 <= 10)%nat
  ∧ ∃ w', PullImage 10 "registry/web:8" "img8" sample.world0
          = Returned (Some {| Image_ID := "img7" |}, sample.timeout) w'
          ∧ requests w' = replicate 4 PullImage_req.
Proof.
  assert (4 <= 10)%nat as Hfuel by lia. split; [exact Hfuel|].
  destruct (C6_pull_attempts 10 "registry/web:8" "img8" sample.world0 Hfuel)
    as (_ & _ & Hfour).
  destruct (Hfour eq_refl (ErrOther "i/o timeout") (ErrOther "i/o timeout")
                  (ErrOther "i/o timeout") (ErrOther "i/o timeout")
                  [sample.timeout] eq_refl eq_refl eq_refl eq_refl eq_refl)
    as (w' & Hrun & Hreq).
  exists w'. split; [exact Hrun|exact Hreq].
Defined.

(** C6 as the specification words it fails: against a daemon whose pulls
    keep timing out, the call sends 4 pull requests before it gives up, not
    3. *)
Lemma C6_counterexample :
  match PullImage 10 "registry/web:8" "img8" sample.world0 with
  | Returned r w' =>
      r = (Some {| Image_ID := "img7" |}, sample.timeout)
      ∧ requests w' = [PullImage_req; PullImage_req; PullImage_req;
                       PullImage_req]
      ∧ pulls_in (requests w') = 4%nat
      ∧ ¬ (pulls_in (requests w') <= 3)%nat
  | _ => False
  end.
Proof. vm_compute. repeat split; try reflexivity. lia. Qed.

(** C7: when the stop request of [stopContainer] is still pending as the
    watchdog fires, the id enters the blacklist and the call returns nil;
    from then on, whatever operations of the stop family the process runs,
    the id stays in the blacklist, no stop request for it goes to the daemon
    again, and [stopContainer] on it returns nil and leaves the daemon and
    the blacklist as they are. *)
Theorem C7_stop_watchdog (w : World) (c : Container)
        (Hfresh : blacklistedContainerId w !! ID c = None)
        (Hid : (12 <= String.length (ID c))%nat)
        (Hhang : StopContainer (dockerClient w) (ID c) = Hangs) :
  ∃ w1, stopContainer c w = Returned None w1
        ∧ blacklistedContainerId w1
          = <[ID c := true]> (blacklistedContainerId w)
        ∧ requests w1 = requests w ++ [StopContainer_req (ID c)]
        ∧ ∀ ops w2, run_all ops w1 = Returned tt w2 →
            is_Some (blacklistedContainerId w2 !! ID c)
            ∧ (∃ new, requests w2 = requests w1 ++ new
                      ∧ StopContainer_req (ID c) ∉ new)
            ∧ ∀ c', ID c' = ID c →
                stopContainer c' w2 = Returned None (log_call (ID c') w2).
Proof.
  unfold stopContainer at 1. cbn [log_call blacklistedContainerId].
  rewrite Hfresh.
  destruct (Nat.ltb_spec (String.length (ID c)) 12) as [?|_]; [lia|].
  cbn [log_call dockerClient]. rewrite Hhang.
  eexists. split; [done|]. split; [done|]. split; [done|].
  intros ops w2 Hrun.
  apply preserving_run_all in Hrun as [Hmono (new & Hreq & Hnew)].
  assert (is_Some (blacklistedContainerId w2 !! ID c)) as Hin.
  { apply Hmono. cbn. rewrite lookup_insert_eq. by eexists. }
  split; [done|]. split.
  - exists new. split; [done|]. intros Hc. apply Hnew in Hc.
    cbn in Hc. by rewrite lookup_insert_eq in Hc.
  - intros c' Hc'. apply stopContainer_blacklisted. by rewrite Hc'.
Qed.

Lemma C7_stop_watchdog_witness :
  blacklistedContainerId sample.world_hung !! ID sample.web_0 = None
  ∧ (12 <= String.length (ID sample.web_0))%nat
  ∧ StopContainer (dockerClient sample.world_hung) (ID sample.web_0) = Hangs
  ∧ ∃ w1, stopContainer sample.web_0 sample.world_hung = Returned None w1
          ∧ blacklistedContainerId w1 !! sample.id1 = Some true.
Proof.
  assert (12 <= String.length (ID sample.web_0))%nat as Hid
    by (vm_compute; lia).
  split; [reflexivity|]. split; [exact Hid|]. split; [reflexivity|].
  destruct (C7_stop_watchdog sample.world_hung sample.web_0
                             eq_refl Hid eq_refl) as (w1 & Hrun & Hbl & _).
  exists w1. split; [exact Hrun|]. rewrite Hbl. apply lookup_insert_eq.
Defined.

(** C8, as the code has it: over the managed containers, [StopAllMatching],
    [StopAllButCurrentVersion], [StopUnassigned] and [StopAll] call
    [stopContainer] on every container that passes their filter, in order;
    [StopOldVersion] with a limit of 0 or more on the first [limit] of them;
    and [Stop] on the first container of the current version only, where it
    returns what that call of [stopContainer] returns (nil when there is no
    such container). *)
Theorem C8_stop_family (w : World) (cs : list Container)
        (Hmanaged : ManagedContainers w = Returned (cs, None) w)
        (Hids : Forall (λ c, (12 <= String.length (ID c))%nat) cs) :
  (∀ name, ∃ w',
      StopAllMatching name w = Returned None w'
      ∧ stops_only (ID <$> List.filter (tagged name) cs) w w')
  ∧ (∀ appCfg, ∃ w',
      StopAllButCurrentVersion appCfg w = Returned None w'
      ∧ stops_only
          (ID <$> List.filter (outdated (dockerClient w) appCfg) cs) w w')
  ∧ (∀ appCfg limit, 0 <= limit → ∃ w',
      StopOldVersion appCfg limit w = Returned None w'
      ∧ stops_only
          (ID <$> take (Z.to_nat limit)
                       (List.filter (outdated (dockerClient w) appCfg) cs))
          w w')
  ∧ (∀ env pool, ∃ w',
      StopUnassigned env pool w = Returned None w'
      ∧ stops_only (ID <$> List.filter (unassigned w env pool) cs) w w')
  ∧ (∀ env, ∃ w',
      StopAll env w = Returned None w' ∧ stops_only (ID <$> cs) w w')
  ∧ (∀ appCfg, ∃ r w',
      Stop appCfg w = Returned r w'
      ∧ stops_only (ID <$> take 1 (List.filter (current appCfg) cs)) w w'
      ∧ match List.filter (current appCfg) cs with
        | [] => r = None ∧ w' = w
        | c :: _ => stopContainer c w = Returned r w'
        end).
Proof.
  destruct (ManagedContainers_stoppable w cs w Hmanaged Hids) as [_ Hok].
  repeat split.
  - intros name. unfold StopAllMatching. rewrite bind_unfold, Hmanaged.
    by apply StopAllMatching_loop_spec.
  - intros appCfg. unfold StopAllButCurrentVersion.
    rewrite bind_unfold, Hmanaged.
    by apply StopAllButCurrentVersion_loop_spec.
  - intros appCfg limit Hlimit. unfold StopOldVersion.
    rewrite bind_unfold, Hmanaged.
    destruct (StopOldVersion_loop_spec appCfg limit cs 0 w Hok Hlimit)
      as (w' & Hrun & Hso).
    exists w'. split; [done|]. by rewrite Z.sub_0_r in Hso.
  - intros env pool. unfold StopUnassigned. rewrite bind_unfold, Hmanaged.
    by apply StopUnassigned_loop_spec.
  - intros env. unfold StopAll. rewrite bind_unfold, Hmanaged.
    by apply StopAll_loop_spec.
  - intros appCfg. unfold Stop. rewrite bind_unfold, Hmanaged.
    destruct (Stop_loop_spec appCfg cs w Hok) as (r & w' & Hrun & Hso).
    exists r, w'. split; [done|]. split; [done|].
    rewrite Stop_loop_first in Hrun
      by (eapply Forall_impl; [exact Hok|]; by intros c [? _]).
    destruct (List.filter (current appCfg) cs) as [|c ?]; [|done].
    by injection Hrun as <- <-.
Qed.

Lemma sample_managed :
  ManagedContainers sample.world0
  = Returned ([sample.web_0; sample.web_1], None) sample.world0.
Proof. vm_compute. reflexivity. Qed.

Lemma sample_ids :
  Forall (λ c, (12 <= String.length (ID c))%nat) [sample.web_0; sample.web_1].
Proof. repeat constructor; vm_compute; lia. Qed.

Lemma C8_stop_family_witness :
  ManagedContainers sample.world0
  = Returned ([sample.web_0; sample.web_1], None) sample.world0
  ∧ Forall (λ c, (12 <= String.length (ID c))%nat)
           [sample.web_0; sample.web_1]
  ∧ (∃ w', StopAllMatching "web" sample.world0 = Returned None w'
           ∧ stop_calls w' = [sample.id1; sample.id2])
  ∧ (∃ r w', Stop sample.web7 sample.world0 = Returned r w'
             ∧ stop_calls w' = [sample.id1]
             ∧ stopContainer sample.web_0 sample.world0 = Returned r w').
Proof.
  split; [exact sample_managed|]. split; [exact sample_ids|].
  destruct (C8_stop_family sample.world0 _ sample_managed sample_ids)
    as (Hall & _ & _ & _ & _ & Hstop).
  split.
  - destruct (Hall "web"%string) as (w' & Hrun & Hso).
    exists w'. split; [exact Hrun|]. rewrite (so_calls _ _ _ Hso).
    vm_compute. reflexivity.
  - destruct (Hstop sample.web7) as (r & w' & Hrun & Hso & Hres).
    exists r, w'. split; [exact Hrun|]. split; [|exact Hres].
    rewrite (so_calls _ _ _ Hso). vm_compute. reflexivity.
Defined.

(** C8 as the specification words it fails: two managed containers pass the
    filter of [Stop], and [stopContainer] is called on the first one only. *)
Lemma C8_counterexample :
  List.filter (current sample.web7) [sample.web_0; sample.web_1]
  = [sample.web_0; sample.web_1]
  ∧ match Stop sample.web7 sample.world0 with
    | Returned r w' => r = None ∧ stop_calls w' = [sample.id1]
    | _ => False
    end.
Proof. split; vm_compute; [reflexivity|by split]. Qed.

(** C9, as the code has it: with a limit of 0 or more, [StopOldVersion]
    calls [stopContainer] on the first [limit] managed containers that are
    tagged with the application, whose image could be inspected, and whose
    image id or version tag differs from the descriptor (an empty id in the
    descriptor and an empty tag never differ), and leaves every other
    container as the daemon has it; [StopAllButCurrentVersion] calls it on
    all of them. *)
Theorem C9_version_aware_stop (w : World) (cs : list Container)
        (appCfg : App) (limit : Z)
        (Hmanaged : ManagedContainers w = Returned (cs, None) w)
        (Hids : Forall (λ c, (12 <= String.length (ID c))%nat) cs)
        (Hlimit : 0 <= limit) :
  (∃ w' old,
      old = take (Z.to_nat limit)
                 (List.filter (outdated (dockerClient w) appCfg) cs)
      ∧ StopOldVersion appCfg limit w = Returned None w'
      ∧ stop_calls w' = stop_calls w ++ (ID <$> old)
      ∧ Z.of_nat (length old) <= limit
      ∧ ∀ q, (∀ c e, InspectContainer (dockerClient w) q = (Some c, e) →
                     ID c ∉ ID <$> old) →
             InspectContainer (dockerClient w') q
             = InspectContainer (dockerClient w) q)
  ∧ (∃ w',
      StopAllButCurrentVersion appCfg w = Returned None w'
      ∧ stop_calls w'
        = stop_calls w
          ++ (ID <$> List.filter (outdated (dockerClient w) appCfg) cs)).
Proof.
  destruct (ManagedContainers_stoppable w cs w Hmanaged Hids) as [_ Hok].
  split.
  - unfold StopOldVersion. rewrite bind_unfold, Hmanaged.
    destruct (StopOldVersion_loop_spec appCfg limit cs 0 w Hok Hlimit)
      as (w' & Hrun & Hso).
    rewrite Z.sub_0_r in Hso. eexists w', _. split; [done|].
    split; [done|]. split; [apply Hso|]. split; [|apply Hso].
    rewrite length_take. lia.
  - unfold StopAllButCurrentVersion. rewrite bind_unfold, Hmanaged.
    destruct (StopAllButCurrentVersion_loop_spec appCfg cs w Hok)
      as (w' & Hrun & Hso).
    exists w'. split; [done|apply Hso].
Qed.

Lemma C9_version_aware_stop_witness :
  ManagedContainers sample.world0
  = Returned ([sample.web_0; sample.web_1], None) sample.world0
  ∧ Forall (λ c, (12 <= String.length (ID c))%nat)
           [sample.web_0; sample.web_1]
  ∧ 0 <= 1
  ∧ (∃ w', StopOldVersion sample.web8 1 sample.world0 = Returned None w'
           ∧ stop_calls w' = [sample.id1])
  ∧ (∃ w', StopAllButCurrentVersion sample.web8 sample.world0
           = Returned None w'
           ∧ stop_calls w' = [sample.id1; sample.id2]).
Proof.
  assert (0 <= 1) as Hlimit by lia.
  split; [exact sample_managed|]. split; [exact sample_ids|].
  split; [exact Hlimit|].
  destruct (C9_version_aware_stop sample.world0 _ sample.web8 1
                                  sample_managed sample_ids Hlimit)
    as [(w' & old & Hold & Hrun & Hcalls & _) (w'' & Hrun' & Hcalls')].
  split.
  - exists w'. split; [exact Hrun|]. rewrite Hcalls, Hold.
    vm_compute. reflexivity.
  - exists w''. split; [exact Hrun'|]. rewrite Hcalls'.
    vm_compute. reflexivity.
Defined.

(** C9 as the specification words it fails.  With a negative limit the
    counter never meets it and [StopOldVersion] stops every outdated
    container; and when the image of a container cannot be inspected,
    [StopAllButCurrentVersion] leaves it running although its version tag, 7,
    differs from the 8 of the descriptor. *)
Lemma C9_counterexample :
  match StopOldVersion sample.web8 (-1) sample.world0 with
  | Returned _ w' => stop_calls w' = [sample.id1; sample.id2]
  | _ => False
  end
  ∧ version_of sample.web_0 = "7"%string
  ∧ strconv.FormatInt (App_ID sample.web8) = "8"%string
  ∧ match StopAllButCurrentVersion sample.web8 sample.world_blind with
    | Returned r w' => r = None ∧ stop_calls w' = [] ∧ requests w' = []
    | _ => False
    end.
Proof. repeat split; vm_compute; reflexivity. Qed.

(* ===================================================================== *)
(** * Part III: further properties of the code                           *)
(* ===================================================================== *)

(** ** The versioned map. *)
Section VersionedMapFacts.

Lemma Keys_spec (m : gmap string (list mapEntry)) :
  let keys := map_fold (λ k (_ : list mapEntry) keys, keys ++ [k]) [] m in
  (∀ k, k ∈ keys ↔ is_Some (m !! k)) ∧ NoDup keys
  ∧ length keys = size m.
Proof.
  apply (map_fold_weak_ind
           (λ (keys : list string) (m : gmap string (list mapEntry)),
              (∀ k, k ∈ keys ↔ is_Some (m !! k)) ∧ NoDup keys
              ∧ length keys = size m)).
  - split; [|split; [constructor|by rewrite map_size_empty]].
    intros k. rewrite lookup_empty. split; [set_solver|by intros [? ?]].
  - intros i x m' keys Hnone (Hin & Hnd & Hlen). split; [|split].
    + intros k. rewrite elem_of_app, list_elem_of_singleton, Hin.
      rewrite lookup_insert. case_decide; subst.
      * split; [by eexists|auto].
      * split; [by intros [?|?]|auto].
    + apply NoDup_app. split; [done|]. split; [|apply NoDup_singleton].
      intros k Hk ->%list_elem_of_singleton. apply Hin in Hk as [? ?].
      congruence.
    + rewrite length_app, map_size_insert_None by done. simpl. lia.
Qed.

Lemma LatestVersion_spec v : is_latest v (LatestVersion v).
Proof.
  unfold is_latest, LatestVersion.
  assert (∀ P : VersionedMap → Z → Prop,
            (∀ z, P v z ↔
               0 <= z
               ∧ (∀ key es e, values v !! key = Some es → e ∈ es →
                              version e <= z)
               ∧ (z = 0 ∨ ∃ key es e, values v !! key = Some es ∧ e ∈ es
                                      ∧ version e = z)) →
            P v (map_fold (λ _ entries latest,
                             foldl currentVersion_step latest entries)
                          0 (values v))) as Hind.
  { intros P HP. apply HP.
    apply (map_fold_weak_ind
             (λ (z : Z) (m : gmap string (list mapEntry)),
                0 <= z
                ∧ (∀ key es e, m !! key = Some es → e ∈ es → version e <= z)
                ∧ (z = 0 ∨ ∃ key es e, m !! key = Some es ∧ e ∈ es
                                       ∧ version e = z))).
    - split; [lia|]. split; [|by left]. intros key es e.
      by rewrite lookup_empty.
    - intros i x m r Hnone (H0 & Hub & Hatt).
      pose proof (currentVersion_loop_bound x r) as [Hge Hx].
      split; [lia|]. split.
      + intros key es e. rewrite lookup_insert. case_decide.
        * intros [= <-] He. by apply Hx.
        * intros Hm He. specialize (Hub key es e Hm He). lia.
      + destruct (currentVersion_loop_attained x r) as [->|(e & He & ->)].
        * destruct Hatt as [?|(key & es & e & Hm & He & Hv)]; [by left|].
          right. exists key, es, e. split; [|done].
          rewrite lookup_insert_ne; [done|]. intros ->. congruence.
        * right. exists i, x, e. by rewrite lookup_insert_eq. }
  apply (Hind (λ v z, 0 <= z
                      ∧ (∀ key e, e ∈ entries_of v key → version e <= z)
                      ∧ (z = 0 ∨ ∃ key e, e ∈ entries_of v key
                                          ∧ version e = z))).
  intros z. split.
  - intros (H0 & Hub & Hatt). split; [done|]. split.
    + intros key es e Hm He. apply (Hub key). apply entries_of_elem. eauto.
    + destruct Hatt as [?|(key & e & (es & ? & ?)%entries_of_elem & ?)];
        [by left|right; eauto 10].
  - intros (H0 & Hub & Hatt). split; [done|]. split.
    + intros key e (es & ? & ?)%entries_of_elem. eauto.
    + destruct Hatt as [?|(key & es & e & ? & ? & ?)]; [by left|].
      right. exists key, e. split; [|done]. apply entries_of_elem. eauto.
Qed.

Lemma is_latest_unique v a b : is_latest v a → is_latest v b → a = b.
Proof.
  intros (A0 & Aub & Aatt) (B0 & Bub & Batt).
  destruct Aatt as [->|(ka & ea & Hea & <-)],
           Batt as [->|(kb & eb & Heb & <-)]; try done.
  - apply Aub in Heb. lia.
  - apply Bub in Hea. lia.
  - apply Aub in Heb. apply Bub in Hea. lia.
Qed.

Lemma currentVersion_spec v key :
  0 <= currentVersion v key
  ∧ (∀ e, e ∈ entries_of v key → version e <= currentVersion v key)
  ∧ (currentVersion v key = 0
     ∨ ∃ e, e ∈ entries_of v key ∧ version e = currentVersion v key).
Proof.
  unfold currentVersion.
  pose proof (currentVersion_loop_bound (entries_of v key) 0) as [H0 Hub].
  split; [done|]. split; [done|].
  destruct (currentVersion_loop_attained (entries_of v key) 0)
    as [?|(e & ? & ?)]; [by left|right; eauto].
Qed.

(** The scan of [Get] settles on an entry of the key's current version. *)
Lemma scan_version v key :
  version (foldl Get_step zeroEntry (entries_of v key))
  = currentVersion v key.
Proof.
  destruct (currentVersion_spec v key) as (H0 & Hub & Hatt).
  destruct (scan_is_winner (entries_of v key) zeroEntry) as [Hin Hmax].
  assert (∀ a b, entry_le a b → version a <= version b) as Hle.
  { intros a b [?|[? _]]; lia. }
  apply Z.le_antisymm.
  - apply elem_of_cons in Hin as [->|Hin]; [done|by apply Hub].
  - destruct Hatt as [->|(e & He & <-)].
    + apply (Hle zeroEntry). apply Hmax. set_solver.
    + apply Hle, Hmax. set_solver.
Qed.

(** The value read after a write at an explicit version. *)
Lemma Get_SetVersion_same v key val ver :
  Get (SetVersion v key val ver) key
  = if ver >? currentVersion v key then val
    else if (ver =? currentVersion v key) && gostring.gtb val (Get v key)
         then val else Get v key.
Proof.
  unfold Get. rewrite entries_of_SetVersion, decide_True by done.
  rewrite foldl_app. cbn [foldl].
  pose proof (scan_version v key) as Hver.
  destruct (foldl Get_step zeroEntry (entries_of v key)) as [rv rn].
  cbn [version value] in *. subst rn.
  unfold Get_step. cbn [version value].
  destruct (ver >? currentVersion v key) eqn:Hgt; cbn [version value].
  - by rewrite Z.eqb_refl, gtb_irrefl.
  - by destruct ((ver =? currentVersion v key) && gostring.gtb val rv).
Qed.

Lemma Get_SetVersion_other v key val ver k :
  key ≠ k → Get (SetVersion v key val ver) k = Get v k.
Proof.
  intros Hne. unfold Get. by rewrite entries_of_SetVersion, decide_False.
Qed.

End VersionedMapFacts.

(** X1: [Keys] lists exactly the keys that were ever written or merged,
    each of them once; a key that was only read is not among them. *)
Theorem X1_keys (v : VersionedMap) :
  (∀ k, k ∈ Keys v ↔ is_Some (values v !! k))
  ∧ NoDup (Keys v)
  ∧ length (Keys v) = size (values v)
  ∧ (∀ key val ver, key ∈ Keys (SetVersion v key val ver))
  ∧ (∀ o k, k ∈ Keys (Merge v o) ↔ k ∈ Keys v ∨ k ∈ Keys o).
Proof.
  destruct (Keys_spec (values v)) as (Hin & Hnd & Hlen).
  split; [exact Hin|]. split; [exact Hnd|]. split; [exact Hlen|]. split.
  - intros key val ver.
    apply (proj1 (Keys_spec (values (SetVersion v key val ver)))).
    cbn. rewrite lookup_insert_eq. by eexists.
  - intros o k.
    assert (∀ w k, k ∈ Keys w ↔ is_Some (values w !! k)) as HK
      by (intros; apply Keys_spec).
    rewrite !HK. destruct o as [o]. unfold Merge. cbn [values].
    apply (map_fold_weak_ind
             (λ (r : VersionedMap) (m : gmap string (list mapEntry)),
                is_Some (values r !! k)
                ↔ is_Some (values v !! k) ∨ is_Some (m !! k))).
    + rewrite lookup_empty. split; [auto|]. by intros [?|[? ?]].
    + intros i x m r Hnone IH. cbn [values]. rewrite !lookup_insert.
      case_decide; subst.
      * split; [intros _; right|]; by eexists.
      * done.
Qed.

(** X2: [LatestVersion] is 0 or the version of some entry, it is never
    negative, and no entry of any key has a higher version; in particular
    it bounds the current version of every key. *)
Theorem X2_latest_version (v : VersionedMap) :
  0 <= LatestVersion v
  ∧ (∀ key e, e ∈ entries_of v key → version e <= LatestVersion v)
  ∧ (LatestVersion v = 0
     ∨ ∃ key e, e ∈ entries_of v key ∧ version e = LatestVersion v)
  ∧ (∀ key, currentVersion v key <= LatestVersion v)
  ∧ LatestVersion NewVersionedMap = 0.
Proof.
  destruct (LatestVersion_spec v) as (H0 & Hub & Hatt).
  split; [done|]. split; [done|]. split; [done|]. split; [|done].
  intros key. destruct (currentVersion_spec v key) as (_ & _ & [->|Hex]);
    [done|].
  destruct Hex as (e & He & <-). by apply (Hub key).
Qed.

(** X3: after a merge the latest version is the greater of the two latest
    versions. *)
Theorem X3_latest_version_merge (a b : VersionedMap) :
  LatestVersion (Merge a b) = Z.max (LatestVersion a) (LatestVersion b).
Proof.
  apply (is_latest_unique (Merge a b)); [apply LatestVersion_spec|].
  destruct (LatestVersion_spec a) as (A0 & Aub & Aatt).
  destruct (LatestVersion_spec b) as (B0 & Bub & Batt).
  split; [lia|]. split.
  - intros key e. rewrite entries_of_Merge.
    intros [H|H]%elem_of_app; [apply Aub in H|apply Bub in H]; lia.
  - destruct (Z.max_spec (LatestVersion a) (LatestVersion b))
      as [[_ ->]|[_ ->]].
    + destruct Batt as [?|(key & e & He & Hv)]; [by left|right].
      exists key, e. rewrite entries_of_Merge. set_solver.
    + destruct Aatt as [?|(key & e & He & Hv)]; [by left|right].
      exists key, e. rewrite entries_of_Merge. set_solver.
Qed.

Section VersionedMapWrites.

Lemma gtb_empty_l a : gostring.gtb EmptyString a = false.
Proof. by destruct a. Qed.

Lemma currentVersion_SetVersion v key val ver k :
  currentVersion (SetVersion v key val ver) k
  = if decide (key = k) then Z.max (currentVersion v k) ver
    else currentVersion v k.
Proof.
  unfold currentVersion. rewrite entries_of_SetVersion.
  case_decide; [|done]. rewrite foldl_app. cbn [foldl].
  generalize (foldl currentVersion_step 0 (entries_of v k)). intros c.
  unfold currentVersion_step. cbn [version]. rewrite Z.gtb_ltb.
  destruct (Z.ltb_spec c ver); lia.
Qed.

(** The scan of a merged history is the greater of the two scans. *)
Lemma scan_Merge a b k :
  let ra := foldl Get_step zeroEntry (entries_of a k) in
  let rb := foldl Get_step zeroEntry (entries_of b k) in
  (entry_le ra rb → foldl Get_step zeroEntry (entries_of (Merge a b) k) = rb)
  ∧ (entry_le rb ra →
     foldl Get_step zeroEntry (entries_of (Merge a b) k) = ra).
Proof.
  intros ra rb. rewrite entries_of_Merge.
  destruct (scan_is_winner (entries_of a k) zeroEntry) as [Ain Amax].
  destruct (scan_is_winner (entries_of b k) zeroEntry) as [Bin Bmax].
  fold ra in Ain, Amax. fold rb in Bin, Bmax.
  split; intros Hle;
    eapply (winner_unique (zeroEntry :: entries_of a k ++ entries_of b k));
    try apply scan_is_winner; split.
  - set_solver.
  - intros e [->|[He|He]%elem_of_app]%elem_of_cons.
    + apply Bmax. set_solver.
    + eapply entry_le_trans; [apply Amax|done]. set_solver.
    + apply Bmax. set_solver.
  - set_solver.
  - intros e [->|[He|He]%elem_of_app]%elem_of_cons.
    + apply Amax. set_solver.
    + apply Amax. set_solver.
    + eapply entry_le_trans; [apply Bmax|done]. set_solver.
Qed.

Lemma elem_of_versions_upto n z :
  z ∈ versions_upto n ↔ 1 <= z <= Z.of_nat n.
Proof.
  unfold versions_upto. rewrite list_elem_of_fmap. split.
  - intros (i & -> & Hi%elem_of_seq). lia.
  - intros Hz. exists (Z.to_nat (z - 1)). split; [lia|].
    apply elem_of_seq. lia.
Qed.

Lemma versions_upto_S n :
  versions_upto (S n) = versions_upto n ++ [Z.of_nat (S n)].
Proof. unfold versions_upto. by rewrite seq_S, fmap_app. Qed.

Lemma NoDup_versions_upto n : NoDup (versions_upto n).
Proof.
  unfold versions_upto. apply NoDup_fmap_2; [|apply NoDup_seq].
  intros i j. lia.
Qed.

(** A key whose versions are 1 to n is at version n. *)
Lemma currentVersion_upto v key n :
  version <$> entries_of v key = versions_upto n →
  currentVersion v key = Z.of_nat n.
Proof.
  intros Hv. destruct (currentVersion_spec v key) as (H0 & Hub & Hatt).
  assert (∀ e, e ∈ entries_of v key → 1 <= version e <= Z.of_nat n) as Hin.
  { intros e He. apply elem_of_versions_upto. rewrite <- Hv.
    apply list_elem_of_fmap. eauto. }
  apply Z.le_antisymm.
  - destruct Hatt as [->|(e & He & <-)]; [lia|]. by apply Hin.
  - destruct n as [|n]; [lia|].
    assert (Z.of_nat (S n) ∈ version <$> entries_of v key) as Hlast.
    { rewrite Hv. apply elem_of_versions_upto. lia. }
    apply list_elem_of_fmap in Hlast as (e & -> & He). by apply Hub.
Qed.

Lemma local_only_versions v :
  local_only v →
  ∀ key, Z.of_nat (length (entries_of v key)) <= int64.max →
         version <$> entries_of v key
         = versions_upto (length (entries_of v key)).
Proof.
  assert (∀ v key val',
            (∀ key, Z.of_nat (length (entries_of v key)) <= int64.max →
                    version <$> entries_of v key
                    = versions_upto (length (entries_of v key))) →
            ∀ k, Z.of_nat (length (entries_of (SetVersion v key val'
                                                 (nextVersion v key)) k))
                 <= int64.max →
                 version <$> entries_of (SetVersion v key val'
                                           (nextVersion v key)) k
                 = versions_upto
                     (length (entries_of (SetVersion v key val'
                                            (nextVersion v key)) k)))
    as Hstep.
  { intros v0 key val' IH k. rewrite entries_of_SetVersion.
    case_decide; [subst k|apply IH].
    rewrite length_app, fmap_app. cbn [length fmap list_fmap version].
    intros Hlen. rewrite Nat.add_1_r, versions_upto_S.
    rewrite <- IH by lia. f_equal. f_equal.
    unfold nextVersion, int64.add.
    rewrite (currentVersion_upto v0 key (length (entries_of v0 key)))
      by (apply IH; lia).
    rewrite int64_wrap_in_range; [lia|].
    unfold int64.in_range, int64.min, int64.max in *. lia. }
  induction 1 as [|v key val Hl IH|v key Hl IH]; intros k.
  - by rewrite entries_of_New.
  - by apply (Hstep v key val).
  - by apply (Hstep v key EmptyString).
Qed.

End VersionedMapWrites.

(** X4: a write at an explicit version is read back when that version is
    above the key's current one; at the current version the greater of the
    written and the present value is read (so an unset never replaces
    anything there); below it the write changes nothing.  Other keys read
    as before. *)
Theorem X4_write_at_version (v : VersionedMap) (key val : string) (ver : Z) :
  Get (SetVersion v key val ver) key
  = (if ver >? currentVersion v key then val
     else if (ver =? currentVersion v key) && gostring.gtb val (Get v key)
          then val else Get v key)
  ∧ Get (UnSetVersion v key ver) key
    = (if ver >? currentVersion v key then EmptyString else Get v key)
  ∧ currentVersion (SetVersion v key val ver) key
    = Z.max (currentVersion v key) ver
  ∧ ∀ k, key ≠ k →
         Get (SetVersion v key val ver) k = Get v k
         ∧ Get (UnSetVersion v key ver) k = Get v k.
Proof.
  split; [apply Get_SetVersion_same|]. split; [|split].
  - change (UnSetVersion v key ver) with (SetVersion v key EmptyString ver).
    rewrite Get_SetVersion_same, gtb_empty_l, andb_false_r. done.
  - by rewrite currentVersion_SetVersion, decide_True.
  - intros k Hne. split; by apply Get_SetVersion_other.
Qed.

(** X5: a replica reads its own local write: after [Set] the key reads as
    the value written, after [UnSet] as the empty string, the key's current
    version has grown by one, and every other key reads as before.  This
    holds while the key's current version is below the [int64] maximum. *)
Theorem X5_read_your_write (v : VersionedMap) (key val : string)
        (Hroom : currentVersion v key < int64.max) :
  Get (Set_ v key val) key = val
  ∧ Get (UnSet v key) key = EmptyString
  ∧ currentVersion (Set_ v key val) key = currentVersion v key + 1
  ∧ currentVersion (UnSet v key) key = currentVersion v key + 1
  ∧ ∀ k, key ≠ k →
         Get (Set_ v key val) k = Get v k ∧ Get (UnSet v key) k = Get v k.
Proof.
  pose proof (proj1 (currentVersion_spec v key)) as H0.
  assert (nextVersion v key = currentVersion v key + 1) as Hnext.
  { unfold nextVersion, int64.add. apply int64_wrap_in_range.
    unfold int64.in_range, int64.min, int64.max in *. lia. }
  assert ((nextVersion v key >? currentVersion v key) = true) as Hgt.
  { rewrite Hnext, Z.gtb_ltb. apply Z.ltb_lt. lia. }
  unfold Set_, UnSet.
  change (UnSetVersion v key (nextVersion v key))
    with (SetVersion v key EmptyString (nextVersion v key)).
  rewrite !Get_SetVersion_same, Hgt.
  rewrite !currentVersion_SetVersion, !decide_True by done.
  repeat split; try done; try lia; by apply Get_SetVersion_other.
Qed.

Lemma X5_read_your_write_witness :
  currentVersion replica_a "k" < int64.max
  ∧ Get (Set_ replica_a "k" "w") "k" = "w"%string
  ∧ Get (UnSet replica_a "k") "k" = EmptyString.
Proof.
  assert (currentVersion replica_a "k" < int64.max) as H
    by (vm_compute; reflexivity).
  split; [exact H|].
  destruct (X5_read_your_write replica_a "k" "w" H) as (Hs & Hu & _).
  split; [exact Hs|exact Hu].
Defined.

(** X6: after a merge a key reads as it does on the side where its current
    version is higher; when both sides are at the same version it reads as
    the greater of the two values.  The key's current version becomes the
    higher of the two. *)
Theorem X6_merge_resolution (a b : VersionedMap) (k : string) :
  (currentVersion a k < currentVersion b k → Get (Merge a b) k = Get b k)
  ∧ (currentVersion b k < currentVersion a k → Get (Merge a b) k = Get a k)
  ∧ (currentVersion a k = currentVersion b k →
     Get (Merge a b) k
     = if gostring.gtb (Get a k) (Get b k) then Get a k else Get b k)
  ∧ currentVersion (Merge a b) k
    = Z.max (currentVersion a k) (currentVersion b k).
Proof.
  destruct (scan_Merge a b k) as [Hab Hba].
  pose proof (scan_version a k) as Va. pose proof (scan_version b k) as Vb.
  pose proof (scan_version (Merge a b) k) as Vm.
  unfold Get.
  set (ra := foldl Get_step zeroEntry (entries_of a k)) in *.
  set (rb := foldl Get_step zeroEntry (entries_of b k)) in *.
  split; [|split; [|split]].
  - intros Hlt. rewrite Hab; [done|]. left. lia.
  - intros Hlt. rewrite Hba; [done|]. left. lia.
  - intros Heq. destruct (gostring.gtb (value ra) (value rb)) eqn:Hgt.
    + rewrite Hba; [done|]. right. split; [lia|]. by apply gtb_asym.
    + rewrite Hab; [done|]. right. split; [lia|done].
  - rewrite <- Vm, <- Va, <- Vb.
    destruct (Z.le_gt_cases (version ra) (version rb)) as [Hle|Hgt].
    + destruct (Z.eq_dec (version ra) (version rb)) as [Heq|Hne].
      * destruct (gostring_le_total (value ra) (value rb)) as [Hv|Hv].
        -- rewrite Hab; [lia|]. by right.
        -- rewrite Hba; [lia|]. by right.
      * rewrite Hab; [lia|]. left. lia.
    + rewrite Hba; [lia|]. left. lia.
Qed.

(** X7: in a map built from the empty one by local writes alone, a key that
    was written n times (n within [int64]) holds the versions 1 to n in
    order and is at version n; such a map has every version within [int64]
    and no two entries of one key at one version. *)
Theorem X7_local_history (v : VersionedMap)
        (Hlocal : local_only v)
        (Hsmall : ∀ key, Z.of_nat (length (entries_of v key)) <= int64.max) :
  (∀ key, version <$> entries_of v key
          = versions_upto (length (entries_of v key)))
  ∧ (∀ key, currentVersion v key = Z.of_nat (length (entries_of v key)))
  ∧ well_typed v
  ∧ conflict_free v.
Proof.
  assert (∀ key, version <$> entries_of v key
                 = versions_upto (length (entries_of v key))) as Hver.
  { intros key. by apply local_only_versions. }
  split; [exact Hver|]. split; [|split].
  - intros key. by apply currentVersion_upto.
  - intros key e He.
    assert (version e ∈ version <$> entries_of v key) as Hin
      by (apply list_elem_of_fmap; eauto).
    rewrite Hver in Hin. apply elem_of_versions_upto in Hin.
    specialize (Hsmall key).
    unfold int64.in_range, int64.min, int64.max in *. lia.
  - intros key e1 e2 H1 H2 Heq _ _.
    apply list_elem_of_lookup in H1 as [i Hi], H2 as [j Hj].
    assert (i = j) as ->.
    { eapply (NoDup_lookup (version <$> entries_of v key) i j (version e1)).
      - rewrite Hver. apply NoDup_versions_upto.
      - by rewrite list_lookup_fmap, Hi.
      - by rewrite list_lookup_fmap, Hj, Heq. }
    congruence.
Qed.

Lemma local_sample_entries k :
  entries_of local_sample k
  = if decide (k = "k"%string) then [MapEntry "x" 1; MapEntry "" 2]
    else if decide (k = "j"%string) then [MapEntry "z" 1] else [].
Proof.
  unfold local_sample, UnSet, Set_.
  rewrite entries_of_UnSetVersion, !entries_of_SetVersion, entries_of_New.
  repeat case_decide; try congruence; subst; vm_compute; reflexivity.
Qed.

Lemma X7_local_history_witness :
  local_only local_sample
  ∧ (∀ key, Z.of_nat (length (entries_of local_sample key)) <= int64.max)
  ∧ currentVersion local_sample "k" = 2
  ∧ well_typed local_sample.
Proof.
  assert (local_only local_sample) as Hl by (repeat constructor).
  assert (∀ key, Z.of_nat (length (entries_of local_sample key))
                 <= int64.max) as Hs.
  { intros key. rewrite local_sample_entries.
    repeat case_decide; vm_compute; discriminate. }
  destruct (X7_local_history local_sample Hl Hs) as (_ & Hcur & Hwt & _).
  split; [exact Hl|]. split; [exact Hs|]. split; [|exact Hwt].
  rewrite Hcur, local_sample_entries. reflexivity.
Defined.

Section SerializationFacts.

Lemma Split_length s :
  length (strings.Split s gostring.colon) = S (colons s).
Proof.
  induction s as [|c s IH]; [done|]. simpl.
  destruct (Ascii.eqb c gostring.colon); simpl; [by rewrite IH|].
  destruct (strings.Split s gostring.colon); simpl in *; lia.
Qed.

Lemma expired_sound v age s x :
  fst (MarshalExpiredMap v age) !! s = Some x →
  ∃ key e, e ∈ entries_of v key ∧ s = mapKey key e ∧ x = value e
           ∧ expired v age key e = true.
Proof.
  unfold MarshalExpiredMap. cbn [fst]. intros H.
  apply (outer_sound (expired v age)
           (λ key, expired_step key (currentVersion v key) age)) in H
    as (key & es & e & Hm & He & Hk & -> & ->);
    [|intros; apply expired_step_spec].
  exists key, e. split; [apply entries_of_elem; eauto|done].
Qed.

Lemma expired_complete v age key e :
  e ∈ entries_of v key → expired v age key e = true →
  is_Some (fst (MarshalExpiredMap v age) !! mapKey key e).
Proof.
  intros (es & Hm & He)%entries_of_elem Hk.
  unfold MarshalExpiredMap. cbn [fst].
  by apply (outer_complete (expired v age)
              (λ key, expired_step key (currentVersion v key) age))
    with (es := es); [intros; apply expired_step_spec|..].
Qed.

Lemma expired_spec v age key e :
  well_typed v → 0 <= age <= int64.max →
  expired v age key e = true ↔ version e < currentVersion v key - age.
Proof.
  intros Hwt Hage. unfold expired, int64.sub.
  pose proof (currentVersion_range v key Hwt) as Hcur.
  rewrite int64_wrap_in_range
    by (unfold int64.in_range, int64.min, int64.max in *; lia).
  by rewrite Z.geb_leb, negb_true_iff, Z.leb_gt.
Qed.

(** With versions in [int64], an entry has a record in the expired map
    exactly when its version is expired. *)
Lemma expired_lookup_iff v age key e :
  well_typed v → e ∈ entries_of v key →
  is_Some (fst (MarshalExpiredMap v age) !! mapKey key e)
  ↔ expired v age key e = true.
Proof.
  intros Hwt He. split; [|by apply expired_complete].
  intros [x (key1 & e1 & He1 & Hkey & _ & Hk)%expired_sound].
  apply mapKey_inj in Hkey as (-> & _ & Hver); [|by eapply Hwt..].
  unfold expired in *. by rewrite Hver.
Qed.

Lemma expired_lookup v age key e :
  well_typed v → conflict_free v →
  e ∈ entries_of v key → expired v age key e = true →
  fst (MarshalExpiredMap v age) !! mapKey key e = Some (value e).
Proof.
  intros Hwt Hcf He Hk.
  destruct (expired_complete v age key e He Hk) as [x Hx]. rewrite Hx.
  apply expired_sound in Hx as (key1 & e1 & He1 & Hkey & -> & _).
  apply mapKey_inj in Hkey as (-> & Hop & Hver); [|by eapply Hwt..].
  f_equal. by eapply same_record_same_value.
Qed.

End SerializationFacts.

(** X8: the records of [MarshalMap] are those of the entries, no more and no
    fewer: every record is the record of an entry of the map, with the
    entry's value; and, versions being within [int64], every entry finds
    under its record key the value of an entry of its key, version and
    operation (its own value when no two sets of one version differ).  The
    empty map gives no record. *)
Theorem X8_marshal_records (v : VersionedMap) (Hwt : well_typed v) :
  (∀ s x, MarshalMap v !! s = Some x →
          ∃ key e, e ∈ entries_of v key ∧ s = mapKey key e ∧ x = value e)
  ∧ (∀ key e, e ∈ entries_of v key →
       ∃ e', e' ∈ entries_of v key ∧ version e' = version e
             ∧ op_of e' = op_of e
             ∧ MarshalMap v !! mapKey key e = Some (value e'))
  ∧ (conflict_free v →
     ∀ key e, e ∈ entries_of v key →
              MarshalMap v !! mapKey key e = Some (value e))
  ∧ MarshalMap NewVersionedMap = ∅.
Proof.
  split; [apply MarshalMap_sound|]. split; [|split; [|done]].
  - intros key e He. destruct (MarshalMap_complete v key e He) as [x Hx].
    destruct (MarshalMap_sound v _ _ Hx) as (key1 & e1 & He1 & Hkey & ->).
    apply mapKey_inj in Hkey as (-> & Hop & Hver); [|by eapply Hwt..].
    exists e1. by rewrite Hx.
  - intros Hcf key e He. by apply MarshalMap_lookup.
Qed.

Lemma X8_marshal_records_witness :
  well_typed replica_b
  ∧ MarshalMap replica_b !! "k:s:1"%string = Some "x"%string.
Proof.
  split; [exact replica_b_well_typed|].
  destruct (X8_marshal_records replica_b replica_b_well_typed)
    as (_ & _ & Hlook & _).
  apply (Hlook replica_b_conflict_free "k"%string (MapEntry "x" 1)).
  rewrite replica_b_entries. set_solver.
Defined.

(** X9: reading the records of a map [o] into a map [v] that already holds
    entries works like [v.Merge(o)]: for [o] with colon-free keys and no two
    different sets of one version, no error is returned, in whatever order
    the records are visited, and the result holds for every key the entries
    of [v] and those of [o], hence reads as the merged map does. *)
Theorem X9_unmarshal_is_merge (v o : VersionedMap)
        (records : list (string * string))
        (Hwt : well_typed o) (Hkeys : colon_free_keys o)
        (Hcf : conflict_free o)
        (Horder : records ≡ₚ map_to_list (MarshalMap o)) :
  ∃ v', UnmarshalRecords records v = Done v'
        ∧ same_entries v' (Merge v o)
        ∧ ∀ k, Get v' k = Get (Merge v o) k.
Proof.
  assert (∀ s x, (s, x) ∈ records ↔ MarshalMap o !! s = Some x) as Hrec.
  { intros s x. rewrite Horder. apply elem_of_map_to_list. }
  destruct (UnmarshalRecords_good records v) as (v' & Hrun & Hv').
  { intros s x (key & e & He & -> & ->)%Hrec%MarshalMap_sound.
    exists key, e. split; [done|]. split; [done|]. split; [|by eapply Hwt].
    apply Hkeys. apply entries_of_elem in He as (es & -> & _). done. }
  assert (same_entries v' (Merge v o)) as Hsame.
  { intros k e. rewrite Hv', entries_of_Merge, elem_of_app.
    split; (intros [?|H]; [by left|right]).
    - destruct H as (Hin & Hk & Hr).
      apply Hrec, MarshalMap_sound in Hin as (key1 & e1 & He1 & Hkey & Hval).
      apply mapKey_inj in Hkey as (-> & _ & Hver); [|done|by eapply Hwt].
      assert (e = e1) as -> by (destruct e, e1; simpl in *; congruence).
      done.
    - split; [|split].
      + apply Hrec. by apply MarshalMap_lookup.
      + apply Hkeys. apply entries_of_elem in H as (es & -> & _). done.
      + by eapply Hwt. }
  exists v'. split; [done|]. split; [done|]. by apply Get_same_entries.
Qed.

Lemma X9_unmarshal_is_merge_witness :
  well_typed replica_b ∧ colon_free_keys replica_b ∧ conflict_free replica_b
  ∧ ∃ v', UnmarshalMap replica_c (MarshalMap replica_b) = Done v'
          ∧ Get v' "k" = "y"%string ∧ Get v' "j" = "z"%string.
Proof.
  split; [exact replica_b_well_typed|].
  split; [exact replica_b_colon_free|].
  split; [exact replica_b_conflict_free|].
  destruct (X9_unmarshal_is_merge
              replica_c replica_b (map_to_list (MarshalMap replica_b))
              replica_b_well_typed replica_b_colon_free
              replica_b_conflict_free (reflexivity _))
    as (v' & Hrun & _ & Hget).
  exists v'. split; [exact Hrun|]. rewrite !Hget.
  split; vm_compute; reflexivity.
Defined.

(** X10: a record key with fewer than two colons makes [UnmarshalMap] panic
    (the index 2 is out of range), whatever the value and the receiver: as
    the first record of any list, and as the only record of a map. *)
Theorem X10_unmarshal_short_key (v : VersionedMap) (key val : string)
        (Hshort : (colons key < 2)%nat) :
  unmarshal_record v key val = utils.Panicked
  ∧ (∀ rest, UnmarshalRecords ((key, val) :: rest) v = utils.Panicked)
  ∧ UnmarshalMap v {[ key := val ]} = utils.Panicked.
Proof.
  assert (unmarshal_record v key val = utils.Panicked) as Hp.
  { unfold unmarshal_record.
    rewrite (lookup_ge_None_2 (strings.Split key gostring.colon) 2); [done|].
    rewrite Split_length. lia. }
  split; [done|]. split.
  - intros rest. cbn [UnmarshalRecords]. by rewrite Hp.
  - unfold UnmarshalMap. rewrite map_to_list_singleton.
    cbn [UnmarshalRecords]. by rewrite Hp.
Qed.

Lemma X10_unmarshal_short_key_witness :
  (colons "k:s" < 2)%nat
  ∧ UnmarshalMap NewVersionedMap {[ "k:s"%string := "x"%string ]} = utils.Panicked.
Proof.
  assert (colons "k:s" < 2)%nat as H by (vm_compute; lia).
  split; [exact H|].
  exact (proj2 (proj2 (X10_unmarshal_short_key NewVersionedMap "k:s" "x" H))).
Defined.

(** X11: how [UnmarshalMap] reads a record key of three colon-free fields,
    followed or not by further fields: the further fields are ignored; a
    third field that is no [int64] in decimal gives an error and leaves the
    receiver as it is; otherwise the first field is written at that version,
    with the record's value when the second field is [s], and as an unset,
    the value dropped, for any other second field. *)
Theorem X11_unmarshal_fields (v : VersionedMap) (p0 p1 p2 val : string)
        (H0 : gostring.has_byte gostring.colon p0 = false)
        (H1 : gostring.has_byte gostring.colon p1 = false)
        (H2 : gostring.has_byte gostring.colon p2 = false) :
  let read :=
    match strconv.ParseInt p2 with
    | None => Failed v
    | Some ver =>
        if String.eqb p1 "s" then Done (SetVersion v p0 val ver)
        else Done (UnSetVersion v p0 ver)
    end in
  unmarshal_record v (strings.Join [p0; p1; p2] ":") val = read
  ∧ ∀ more, unmarshal_record v (strings.Join [p0; p1; p2; more] ":") val
            = read.
Proof.
  cbn zeta. split.
  - unfold unmarshal_record.
    change (strings.Join [p0; p1; p2] ":")
      with (p0 +:+ String gostring.colon (p1 +:+ String gostring.colon p2)).
    rewrite !Split_append, Split_colon_free by done. done.
  - intros more. unfold unmarshal_record.
    change (strings.Join [p0; p1; p2; more] ":")
      with (p0 +:+ String gostring.colon
               (p1 +:+ String gostring.colon
                   (p2 +:+ String gostring.colon more))).
    rewrite !Split_append by done.
    destruct (strings.Split more gostring.colon); done.
Qed.

Lemma X11_unmarshal_fields_witness :
  unmarshal_record NewVersionedMap "k:x:+7" "dropped"
  = Done (UnSetVersion NewVersionedMap "k" 7)
  ∧ unmarshal_record NewVersionedMap "k:s:7:junk:more" "val"
    = Done (SetVersion NewVersionedMap "k" "val" 7)
  ∧ unmarshal_record NewVersionedMap "k:s:seven" "val"
    = Failed NewVersionedMap.
Proof.
  split; [|split].
  - exact (proj1 (X11_unmarshal_fields NewVersionedMap "k" "x" "+7" "dropped"
                                       eq_refl eq_refl eq_refl)).
  - exact (proj2 (X11_unmarshal_fields NewVersionedMap "k" "s" "7" "val"
                                       eq_refl eq_refl eq_refl) "junk:more"%string).
  - exact (proj1 (X11_unmarshal_fields NewVersionedMap "k" "s" "seven" "val"
                                       eq_refl eq_refl eq_refl)).
Defined.

(** X12: every record of [MarshalExpiredMap], of any map and for any age,
    has its record key in [MarshalMap].  For a map with versions in [int64]
    and no two different sets of one version it is a record of [MarshalMap],
    whatever the age, and for ages from 0 to the [int64] maximum a greater
    age returns a part of what a smaller one returns. *)
Theorem X12_expired_subset (v : VersionedMap) :
  (∀ age s, is_Some (fst (MarshalExpiredMap v age) !! s) →
            is_Some (MarshalMap v !! s))
  ∧ (well_typed v → conflict_free v →
     (∀ age, fst (MarshalExpiredMap v age) ⊆ MarshalMap v)
     ∧ (∀ age1 age2, 0 <= age1 <= age2 → age2 <= int64.max →
          fst (MarshalExpiredMap v age2) ⊆ fst (MarshalExpiredMap v age1))).
Proof.
  split; [|intros Hwt Hcf; split].
  - intros age s [x (key & e & He & -> & _)%expired_sound].
    by apply MarshalMap_complete.
  - intros age. apply map_subseteq_spec.
    intros s x (key & e & He & -> & -> & _)%expired_sound.
    by apply MarshalMap_lookup.
  - intros age1 age2 Hage Hmax. apply map_subseteq_spec.
    intros s x (key & e & He & -> & -> & Hk)%expired_sound.
    apply expired_lookup; try done.
    apply expired_spec in Hk; [|done|lia]. apply expired_spec; [done|lia|lia].
Qed.

Lemma X12_expired_subset_witness :
  well_typed replica_b ∧ conflict_free replica_b
  ∧ 0 <= 0 <= 1 ∧ 1 <= int64.max
  ∧ fst (MarshalExpiredMap replica_b 0) ⊆ MarshalMap replica_b
  ∧ fst (MarshalExpiredMap replica_b 1) ⊆ fst (MarshalExpiredMap replica_b 0).
Proof.
  assert (0 <= 0 <= 1) as Hage by lia.
  assert (1 <= int64.max) as Hmax by (vm_compute; discriminate).
  split; [exact replica_b_well_typed|].
  split; [exact replica_b_conflict_free|].
  split; [exact Hage|]. split; [exact Hmax|].
  destruct (proj2 (X12_expired_subset replica_b)
                  replica_b_well_typed replica_b_conflict_free)
    as [Hsub Hmono].
  split; [exact (Hsub 0)|exact (Hmono 0 1 Hage Hmax)].
Defined.

(** X13: collecting what [MarshalExpiredMap] returns is safe: for an age of
    0 or more, a map that holds the entries of [v] but the returned ones
    reads every key as [v] does and has every key at the same current
    version. *)
Theorem X13_collection_is_safe (v v' : VersionedMap) (age : Z)
        (Hwt : well_typed v) (Hage : 0 <= age <= int64.max)
        (Hcollected : collected v age v') :
  ∀ k, Get v' k = Get v k ∧ currentVersion v' k = currentVersion v k.
Proof.
  intros k.
  assert (foldl Get_step zeroEntry (entries_of v' k)
          = foldl Get_step zeroEntry (entries_of v k)) as Hscan.
  { symmetry.
    eapply (winner_unique (zeroEntry :: entries_of v' k));
      [|apply scan_is_winner].
    destruct (scan_is_winner (entries_of v k) zeroEntry) as [Hin Hmaxi].
    pose proof (scan_version v k) as Hver. split.
    - apply elem_of_cons in Hin as [->|Hin]; [set_solver|].
      apply elem_of_cons. right. apply Hcollected. split; [done|].
      destruct (fst (MarshalExpiredMap v age) !! mapKey k _) eqn:Hx; [|done].
      assert (expired v age k (foldl Get_step zeroEntry (entries_of v k))
              = true) as Hk.
      { apply expired_lookup_iff; [done..|by eexists]. }
      apply expired_spec in Hk; [|done..]. lia.
    - intros e [->|[He _]%Hcollected]%elem_of_cons; apply Hmaxi; set_solver. }
  split; [unfold Get; by rewrite Hscan|].
  by rewrite <- !scan_version, Hscan.
Qed.

Lemma replica_b_collected_spec : collected replica_b 0 replica_b_collected.
Proof.
  intros key e. unfold replica_b_collected.
  rewrite replica_b_entries, !entries_of_SetVersion, entries_of_New.
  case_decide as Hk; [subst key|].
  - rewrite decide_True by done. split.
    + intros He. assert (e = MapEntry "y" 2) as -> by set_solver.
      split; [set_solver|vm_compute; reflexivity].
    + intros [He Hnone].
      assert (e = MapEntry "y" 2 ∨ e = MapEntry "x" 1) as [->| ->]
        by set_solver; [set_solver|].
      vm_compute in Hnone. discriminate.
  - rewrite decide_False by done. set_solver.
Qed.

Lemma X13_collection_is_safe_witness :
  well_typed replica_b ∧ 0 <= 0 <= int64.max
  ∧ collected replica_b 0 replica_b_collected
  ∧ Get replica_b_collected "k" = Get replica_b "k".
Proof.
  assert (0 <= 0 <= int64.max) as Hage by (unfold int64.max; lia).
  split; [exact replica_b_well_typed|]. split; [exact Hage|].
  split; [exact replica_b_collected_spec|].
  exact (proj1 (X13_collection_is_safe
                  replica_b replica_b_collected 0 replica_b_well_typed Hage
                  replica_b_collected_spec "k"%string)).
Defined.

(** ** The runtime: reading the environment of a container. *)
Section EnvForFacts.
Import docker runtime.

Lemma substring_all s : substring 0 (String.length s) s = s.
Proof. induction s as [|c s IH]; [done|]. simpl. by rewrite IH. Qed.

Lemma Index_None item c :
  strings.Index item c = None ↔ gostring.has_byte c item = false.
Proof.
  induction item as [|a s IH]; [done|]. simpl.
  destruct (Ascii.eqb a c); [done|].
  destruct (strings.Index s c); simpl; [|tauto].
  split; [done|]. intros H. apply IH in H. done.
Qed.

(** An entry with an ["="] is read as the key before the first one and the
    value after it. *)
Lemma Index_binds item n :
  strings.Index item equals_sign = Some n →
  binds (substring 0 n item)
        (substring (S n) (String.length item - S n) item) item.
Proof.
  revert n. induction item as [|a s IH]; intros n; [done|]. simpl.
  destruct (Ascii.eqb a equals_sign) eqn:Ha.
  - intros [= <-]. apply Ascii.eqb_eq in Ha as ->. split; [|done].
    simpl. rewrite Nat.sub_0_r. by rewrite substring_all.
  - destruct (strings.Index s equals_sign) as [n'|] eqn:Hs; [|done].
    intros [= <-]. destruct (IH n' eq_refl) as [Heq Hk]. split.
    + simpl. rewrite append_cons. by rewrite <- Heq.
    + simpl. by rewrite Ha.
Qed.

Lemma binds_Index k v item :
  binds k v item →
  strings.Index item equals_sign = Some (String.length k)
  ∧ substring 0 (String.length k) item = k
  ∧ substring (S (String.length k))
              (String.length item - S (String.length k)) item = v.
Proof.
  intros [-> Hk]. induction k as [|a k IH].
  - rewrite append_nil_l. simpl. rewrite Nat.sub_0_r.
    by rewrite substring_all.
  - simpl in Hk. destruct (Ascii.eqb a equals_sign) eqn:Ha; [done|].
    destruct (IH Hk) as (Hi & H0 & H1).
    rewrite append_cons. simpl. rewrite Ha, Hi. simpl.
    by rewrite H0, H1.
Qed.

Lemma binds_functional k v k' v' item :
  binds k v item → binds k' v' item → k = k' ∧ v = v'.
Proof.
  intros H H'. pose proof (binds_Index _ _ _ H) as (Hi & H0 & H1).
  pose proof (binds_Index _ _ _ H') as (Hi' & H0' & H1').
  rewrite Hi in Hi'. injection Hi' as Hlen.
  rewrite Hlen in H0, H1. split; congruence.
Qed.

Lemma EnvFor_loop_cons item rest env :
  EnvFor_loop (item :: rest) env
  = match strings.Index item equals_sign with
    | None => None
    | Some n =>
        EnvFor_loop rest
          (<[substring 0 n item
             := substring (S n) (String.length item - S n) item]> env)
    end.
Proof. reflexivity. Qed.

Lemma EnvFor_loop_binds k v item rest env :
  binds k v item →
  EnvFor_loop (item :: rest) env = EnvFor_loop rest (<[k := v]> env).
Proof.
  intros (Hi & H0 & H1)%binds_Index.
  by rewrite EnvFor_loop_cons, Hi, H0, H1.
Qed.

Lemma EnvFor_loop_app l1 : ∀ l2 env,
  EnvFor_loop (l1 ++ l2) env
  = match EnvFor_loop l1 env with
    | Some env' => EnvFor_loop l2 env'
    | None => None
    end.
Proof.
  induction l1 as [|item l1 IH]; intros l2 env; [done|].
  rewrite <- app_comm_cons, !EnvFor_loop_cons.
  destruct (strings.Index item equals_sign); [apply IH|done].
Qed.

Lemma EnvFor_loop_total items : ∀ env,
  is_Some (EnvFor_loop items env)
  ↔ Forall (λ item, gostring.has_byte equals_sign item = true) items.
Proof.
  induction items as [|item items IH]; intros env.
  - split; [constructor|by eexists].
  - rewrite EnvFor_loop_cons, Forall_cons.
    destruct (strings.Index item equals_sign) as [n|] eqn:Hi.
    + rewrite IH. split; [|tauto]. intros H. split; [|done].
      destruct (gostring.has_byte equals_sign item) eqn:Hb; [done|].
      apply Index_None in Hb. congruence.
    + apply Index_None in Hi. split; [by intros [? ?]|].
      intros [H _]. congruence.
Qed.

Lemma EnvFor_loop_unbound k items : ∀ env env',
  EnvFor_loop items env = Some env' →
  (∀ item v, item ∈ items → ¬ binds k v item) →
  env' !! k = env !! k.
Proof.
  induction items as [|item items IH]; intros env env'.
  - by intros [= <-].
  - rewrite EnvFor_loop_cons.
    destruct (strings.Index item equals_sign) as [n|] eqn:Hi; [|done].
    intros Hrun Hfree. rewrite (IH _ _ Hrun); [|intros; apply Hfree; set_solver].
    apply lookup_insert_ne. intros <-.
    apply (Hfree item (substring (S n) (String.length item - S n) item));
      [set_solver|by apply Index_binds].
Qed.

(** [EnvFor] returns on the [readable] containers, and on no other. *)
Lemma EnvFor_returns c : is_Some (EnvFor c) ↔ readable c.
Proof.
  unfold EnvFor, readable. destruct (Container_Config c) as [config|].
  - rewrite EnvFor_loop_total. split; [by exists config|].
    by intros (config' & [= <-] & H).
  - split; [by intros [? ?]|]. by intros (config & ? & _).
Qed.

End EnvForFacts.

Import docker runtime.

(** X14: [EnvFor] returns exactly when the container has a [Config] and
    every environment entry in it contains an ["="].  It panics in the two
    other cases: on a container without [Config], where [container.Config.Env]
    reads through a nil pointer, and on an entry without ["="], where the
    slice [item[0:sep]] has [sep] = -1. *)
Theorem X14_envfor_total (c : Container) :
  (is_Some (EnvFor c)
   ↔ ∃ config,
       Container_Config c = Some config
       ∧ Forall (λ item, gostring.has_byte equals_sign item = true)
                (Env config))
  ∧ (EnvFor c = None
     ↔ Container_Config c = None
       ∨ ∃ config item,
           Container_Config c = Some config
           ∧ item ∈ Env config
           ∧ gostring.has_byte equals_sign item = false).
Proof.
  split; [apply EnvFor_returns|].
  rewrite eq_None_not_Some, EnvFor_returns. unfold readable.
  destruct (Container_Config c) as [config|]; split.
  - intros Hno. right. exists config.
    assert (¬ Forall (λ item, gostring.has_byte equals_sign item = true)
              (Env config)) as Hbad by (intros H; apply Hno; by exists config).
    apply not_Forall_Exists in Hbad; [|apply _].
    apply Exists_exists in Hbad as (item & Hin & Hitem).
    exists item. split; [done|]. split; [done|]. by apply not_true_is_false.
  - intros [?|(config' & item & [= <-] & Hin & Hno)]; [done|].
    intros (config' & [= <-] & Hall).
    rewrite Forall_forall in Hall. specialize (Hall item Hin). congruence.
  - intros _. by left.
  - intros _ (config & ? & _). done.
Qed.

(** X15: what [EnvFor] reads.  An entry [k=v] is split at its first ["="],
    so the value may contain further ones; of several entries for one key the
    last one counts; and a key that no entry gives reads as the empty
    string. *)
Theorem X15_envfor_lookup (c : Container) (env : gmap string string)
        (Henv : EnvFor c = Some env) (k : string) :
  ∃ config,
    Container_Config c = Some config
    ∧ (∀ before after v,
         Env config = before ++ (k +:+ String equals_sign v) :: after →
         gostring.has_byte equals_sign k = false →
         (∀ item v', item ∈ after → ¬ binds k v' item) →
         index env k = v)
    ∧ ((∀ item v', item ∈ Env config → ¬ binds k v' item) →
       index env k = EmptyString).
Proof.
  unfold EnvFor in Henv.
  destruct (Container_Config c) as [config|]; [|done].
  exists config. split; [done|]. split.
  - intros before after v Hcfg Hk Hlast. rewrite Hcfg in Henv.
    rewrite EnvFor_loop_app in Henv.
    destruct (EnvFor_loop before ∅) as [env1|]; [|done].
    rewrite (EnvFor_loop_binds k v) in Henv by done.
    unfold index. rewrite (EnvFor_loop_unbound k _ _ _ Henv Hlast).
    by rewrite lookup_insert_eq.
  - intros Hfree. unfold index.
    by rewrite (EnvFor_loop_unbound k _ _ _ Henv Hfree), lookup_empty.
Qed.

Lemma X15_envfor_lookup_witness :
  ∃ env,
    EnvFor {| ID := sample.id1; Name := "/web.0"; Image := "img7";
              Container_Config :=
                Some {| Env := ["OPTS=a"; "OPTS=x=y"; "GALAXY_APP=web"] |};
              Container_State := sample.running |} = Some env
    ∧ index env "OPTS" = "x=y"%string
    ∧ index env "HOME" = EmptyString.
Proof.
  eexists. split; [reflexivity|].
  match goal with
  | |- index ?e _ = _ ∧ _ =>
      pose proof (X15_envfor_lookup
                    {| ID := sample.id1; Name := "/web.0"; Image := "img7";
                       Container_Config :=
                         Some {| Env := ["OPTS=a"; "OPTS=x=y";
                                         "GALAXY_APP=web"] |};
                       Container_State := sample.running |} e eq_refl)
        as Hx
  end.
  split.
  - destruct (Hx "OPTS"%string) as (config & [= <-] & Hlast & _).
    apply (Hlast ["OPTS=a"%string] ["GALAXY_APP=web"%string]
                 "x=y"%string eq_refl eq_refl).
    intros item v' ->%list_elem_of_singleton [Heq _]. discriminate Heq.
  - destruct (Hx "HOME"%string) as (config & [= <-] & _ & Hnone).
    apply Hnone. cbn [Env].
    intros item v' Hin [Heq _].
    repeat (apply elem_of_cons in Hin as [->|Hin]); try discriminate Heq.
    by apply not_elem_of_nil in Hin.
Defined.

(** ** The runtime: listing the managed containers. *)
Section ManagedFacts.

Lemma managed_answer_env d id c env :
  InspectContainer d id = (Some c, None) → EnvFor c = Some env →
  managed_answer d id
  = if negb (gostring.is_empty (index env "GALAXY_APP"))
       && (Running (Container_State c) || Restarting (Container_State c))
    then Some c else None.
Proof. unfold managed_answer, app_of. by intros -> ->. Qed.

Lemma ManagedContainers_loop_spec d ids : ∀ apps,
  Forall (inspectable d) ids →
  ManagedContainers_loop d ids apps
  = Some (apps ++ omap (managed_answer d) ids).
Proof.
  induction ids as [|id ids IH]; intros apps Hok.
  - by rewrite app_nil_r.
  - apply Forall_cons in Hok as [Hid Hok]. unfold inspectable in Hid.
    cbn [ManagedContainers_loop omap list_omap].
    destruct (InspectContainer d id) as [[c|] [err|]] eqn:Hi; try done.
    + rewrite IH by done. unfold managed_answer. by rewrite Hi.
    + apply EnvFor_returns in Hid as [env Henv]. rewrite Henv.
      rewrite (managed_answer_env d id c env) by done.
      destruct (negb _ && _); rewrite IH by done; [|done].
      by rewrite <- app_assoc.
    + rewrite IH by done. unfold managed_answer. by rewrite Hi.
Qed.

Lemma ManagedContainers_loop_panics d ids : ∀ apps,
  ¬ Forall (inspectable d) ids → ManagedContainers_loop d ids apps = None.
Proof.
  induction ids as [|id ids IH]; intros apps Hbad.
  - destruct Hbad. constructor.
  - cbn [ManagedContainers_loop].
    assert (inspectable d id → ¬ Forall (inspectable d) ids) as Hrest.
    { intros Hid Hok. apply Hbad. by constructor. }
    unfold inspectable in Hrest.
    destruct (InspectContainer d id) as [[c|] [err|]] eqn:Hi; try done.
    + by apply IH, Hrest.
    + destruct (EnvFor c) as [env|] eqn:Henv; [|done].
      destruct (negb _ && _); apply IH, Hrest, EnvFor_returns; by eexists.
    + by apply IH, Hrest.
Qed.

Lemma managed_answer_Some d id c :
  managed_answer d id = Some c ↔
  InspectContainer d id = (Some c, None)
  ∧ app_of c ≠ EmptyString
  ∧ (Running (Container_State c) = true
     ∨ Restarting (Container_State c) = true).
Proof.
  unfold managed_answer.
  destruct (InspectContainer d id) as [[c0|] [err|]];
    try (split; [done|by intros [? _]]).
  destruct (gostring.is_empty (app_of c0)) eqn:He; cbn [negb andb].
  - apply is_empty_spec in He. split; [done|].
    intros ([= <-] & Hne & _). done.
  - destruct (Running (Container_State c0) || Restarting (Container_State c0))
      eqn:Hr.
    + split.
      * intros [= <-]. split; [done|]. split.
        -- intros Hz. by rewrite Hz in He.
        -- by apply orb_true_iff.
      * by intros ([= <-] & _).
    + split; [done|]. intros ([= <-] & _ & Hrun%orb_true_iff). congruence.
Qed.

(** The containers that [ManagedContainers] returns can be read and carry a
    tag. *)
Lemma ManagedContainers_loop_tagged d ids : ∀ apps res,
  ManagedContainers_loop d ids apps = Some res →
  (∀ c, c ∈ apps → is_Some (EnvFor c) ∧ app_of c ≠ EmptyString) →
  ∀ c, c ∈ res → is_Some (EnvFor c) ∧ app_of c ≠ EmptyString.
Proof.
  induction ids as [|id ids IH]; intros apps res; simpl.
  - by intros [= <-].
  - destruct (InspectContainer d id) as [[c0|] [err|]]; try done;
      try apply IH.
    destruct (EnvFor c0) as [env|] eqn:Henv; [|done].
    destruct (gostring.is_empty (index env "GALAXY_APP")) eqn:He;
      cbn [negb andb]; [apply IH|].
    destruct (_ || _); [|apply IH].
    intros Hrun Happs. eapply IH; [done|].
    intros c [?| ->%list_elem_of_singleton]%elem_of_app; [auto|].
    split; [by eexists|]. unfold app_of. rewrite Henv. cbn.
    intros Hz. by rewrite Hz in He.
Qed.

Lemma ManagedContainers_tagged w cs err w' :
  ManagedContainers w = Returned (cs, err) w' →
  w' = w ∧ Forall (λ c, is_Some (EnvFor c) ∧ app_of c ≠ EmptyString) cs.
Proof.
  unfold ManagedContainers.
  destruct (ListContainers (dockerClient w)) as [ids [e|]].
  - intros [= <- _ <-]. split; [done|constructor].
  - destruct (ManagedContainers_loop (dockerClient w) ids []) as [apps|] eqn:E;
      [|done].
    intros [= <- _ <-]. split; [done|]. apply Forall_forall.
    eapply ManagedContainers_loop_tagged; [done|set_solver].
Qed.

End ManagedFacts.

(** X16: [ManagedContainers] changes nothing and returns, in the order of
    the listing, the containers that could be inspected, carry a non-empty
    [GALAXY_APP] and are running or restarting; ids whose inspection fails
    are passed over.  It panics exactly when the daemon answers an id with
    neither container nor error, or with a container that is not [readable]:
    one without [Config], read through a nil pointer by [EnvFor], or one
    with an environment entry without ["="].  When the listing itself fails,
    the error is returned with no container. *)
Theorem X16_managed_containers (w : World) (ids : list string) :
  (ListContainers (dockerClient w) = (ids, None) →
   Forall (inspectable (dockerClient w)) ids →
   ManagedContainers w
   = Returned (omap (managed_answer (dockerClient w)) ids, None) w
   ∧ ∀ c, c ∈ omap (managed_answer (dockerClient w)) ids ↔
          ∃ id, id ∈ ids
                ∧ InspectContainer (dockerClient w) id = (Some c, None)
                ∧ app_of c ≠ EmptyString
                ∧ (Running (Container_State c) = true
                   ∨ Restarting (Container_State c) = true))
  ∧ (ListContainers (dockerClient w) = (ids, None) →
     ¬ Forall (inspectable (dockerClient w)) ids →
     ManagedContainers w = Panicked)
  ∧ (∀ err, ListContainers (dockerClient w) = (ids, Some err) →
            ManagedContainers w = Returned ([], Some err) w).
Proof.
  split; [|split].
  - intros Hlist Hok. split.
    + unfold ManagedContainers.
      by rewrite Hlist, ManagedContainers_loop_spec.
    + intros c. rewrite list_elem_of_omap.
      split; intros (id & Hid & H); exists id; (split; [done|]);
        by apply managed_answer_Some.
  - intros Hlist Hbad. unfold ManagedContainers.
    by rewrite Hlist, ManagedContainers_loop_panics.
  - intros err Hlist. unfold ManagedContainers. by rewrite Hlist.
Qed.

Lemma X16_managed_containers_witness :
  ManagedContainers sample.world0
  = Returned ([sample.web_0; sample.web_1], None) sample.world0
  ∧ ManagedContainers sample.world_bare = Panicked.
Proof.
  assert (Forall (inspectable (dockerClient sample.world0))
                 [sample.id1; sample.id2]) as Hok.
  { repeat constructor; (eexists; split; [reflexivity|by repeat constructor]). }
  assert (¬ Forall (inspectable (dockerClient sample.world_bare))
            [sample.id1; sample.id2]) as Hbad.
  { intros H. apply Forall_cons in H as [_ H]. apply Forall_cons in H as [H _].
    destruct H as (config & Hconfig & _). discriminate Hconfig. }
  split.
  - exact (proj1 (proj1 (X16_managed_containers
                           sample.world0 [sample.id1; sample.id2])
                        eq_refl Hok)).
  - exact (proj1 (proj2 (X16_managed_containers
                           sample.world_bare [sample.id1; sample.id2]))
                 eq_refl Hbad).
Defined.

(** X17: when the listing of the containers fails, every operation of the
    stop family returns that error and leaves the process as it is: no call
    of [stopContainer], no request, no change of the blacklist. *)
Theorem X17_listing_failure (w : World) (ids : list string) (err : error)
        (Hlist : ListContainers (dockerClient w) = (ids, Some err)) :
  (∀ appCfg, Stop appCfg w = Returned (Some err) w)
  ∧ (∀ name, StopAllMatching name w = Returned (Some err) w)
  ∧ (∀ appCfg limit, StopOldVersion appCfg limit w = Returned (Some err) w)
  ∧ (∀ appCfg, StopAllButCurrentVersion appCfg w = Returned (Some err) w)
  ∧ (∀ env pool, StopUnassigned env pool w = Returned (Some err) w)
  ∧ (∀ env, StopAll env w = Returned (Some err) w)
  ∧ (∀ app versionId,
       InstanceCount app versionId w = Returned (0, Some err) w).
Proof.
  assert (ManagedContainers w = Returned ([], Some err) w) as Hm.
  { unfold ManagedContainers. by rewrite Hlist. }
  repeat split; intros;
    unfold Stop, StopAllMatching, StopOldVersion, StopAllButCurrentVersion,
      StopUnassigned, StopAll, InstanceCount, instanceIds;
    rewrite ?bind_unfold, Hm; reflexivity.
Qed.

Lemma X17_listing_failure_witness :
  ListContainers (dockerClient sample.world_down)
  = ([], Some (ErrOther "cannot connect"))
  ∧ StopAll "prod" sample.world_down
    = Returned (Some (ErrOther "cannot connect")) sample.world_down.
Proof.
  split; [reflexivity|].
  exact (proj1 (proj2 (proj2 (proj2 (proj2 (proj2
           (X17_listing_failure sample.world_down []
              (ErrOther "cannot connect") eq_refl)))))) "prod"%string).
Defined.

(** ** The runtime: more on the stop family. *)
Section StopFamilyFacts.

Lemma StopOldVersion_loop_unbounded appCfg limit cs : ∀ stopped w,
  limit < stopped →
  StopOldVersion_loop appCfg limit stopped cs w
  = StopAllButCurrentVersion_loop appCfg cs w.
Proof.
  induction cs as [|c cs IH]; intros stopped w Hlt; [done|].
  cbn [StopOldVersion_loop StopAllButCurrentVersion_loop].
  destruct (Z.eqb_spec stopped limit) as [?|_]; [lia|].
  rewrite !bind_unfold. destruct (EnvFor_m c w) as [env w1| |]; [|done..].
  destruct (negb _); [by apply IH|].
  rewrite !bind_unfold. cbn [InspectImage_m].
  destruct (InspectImage (dockerClient w1) (Image c)) as [[image|] [err|]];
    try by apply IH.
  - destruct (differs appCfg image env); [|by apply IH].
    rewrite !bind_unfold.
    destruct (stopContainer c w1) as [r w2| |]; [|done..].
    apply IH. lia.
  - destruct (String.length (ID c) <? 12)%nat; [done|by apply IH].
Qed.

Lemma StopAllMatching_loop_none name cs w :
  Forall (λ c, is_Some (EnvFor c) ∧ tagged name c = false) cs →
  StopAllMatching_loop name cs w = Returned None w.
Proof.
  induction cs as [|c cs IH]; intros Hcs; [done|].
  apply Forall_cons in Hcs as [[[env Henv] Htag] Hcs].
  cbn [StopAllMatching_loop]. rewrite bind_unfold.
  rewrite (EnvFor_m_Some c env) by done.
  rewrite (tagged_env name c env) in Htag by done. rewrite Htag. cbn [negb].
  by apply IH.
Qed.

Lemma grows_quiet w w' calls :
  stop_calls w' = stop_calls w ++ calls →
  requests w' = requests w →
  blacklistedContainerId w' = blacklistedContainerId w →
  grows w w'.
Proof.
  intros HC HR HB. exists calls, []. rewrite app_nil_r, HB.
  split; [done|]. split; [done|]. split; [simpl; lia|].
  split; [set_solver|]. split; intros; by left.
Qed.

Lemma grows_refl w : grows w w.
Proof. apply (grows_quiet w w []); by rewrite ?app_nil_r. Qed.

Lemma grows_trans w1 w2 w3 : grows w1 w2 → grows w2 w3 → grows w1 w3.
Proof.
  intros (c1 & n1 & C1 & R1 & L1 & Q1 & B1 & F1)
         (c2 & n2 & C2 & R2 & L2 & Q2 & B2 & F2).
  exists (c1 ++ c2), (n1 ++ n2).
  split; [by rewrite C2, C1, app_assoc|].
  split; [by rewrite R2, R1, app_assoc|].
  split; [rewrite !length_app; lia|]. split; [|split].
  - intros r [H|H]%elem_of_app;
      [destruct (Q1 r H) as (id & ? & ?)|destruct (Q2 r H) as (id & ? & ?)];
      exists id; set_solver.
  - intros id [H|H]%B2; [|set_solver].
    destruct (B1 id H); [by left|set_solver].
  - intros id b [H|H]%F2; [by apply F1|by right].
Qed.

Lemma growing_ret {A} (a : A) : growing (mret a).
Proof. intros w a' w' [= _ <-]. apply grows_refl. Qed.

Lemma growing_bind {A B} (m : M A) (f : A → M B) :
  growing m → (∀ a, growing (f a)) → growing (m ≫= f).
Proof.
  intros Hm Hf w b w'. rewrite bind_unfold.
  destruct (m w) as [a w1| |] eqn:E; [|done..].
  intros H. eapply grows_trans; [by eapply Hm|by eapply Hf].
Qed.

Lemma growing_panic {A} : growing (@panic A).
Proof. by intros w a w'. Qed.

Lemma growing_EnvFor_m c : growing (EnvFor_m c).
Proof.
  unfold EnvFor_m. destruct (EnvFor c); [apply growing_ret|apply growing_panic].
Qed.

Lemma growing_InspectImage_m image : growing (InspectImage_m image).
Proof. intros w a w' [= _ <-]. apply grows_refl. Qed.

Lemma growing_get_world : growing get_world.
Proof. intros w a w' [= _ <-]. apply grows_refl. Qed.

Lemma growing_ManagedContainers : growing ManagedContainers.
Proof.
  intros w a w'. unfold ManagedContainers.
  destruct (ListContainers (dockerClient w)) as [ids [err|]].
  - intros [= _ <-]. apply grows_refl.
  - destruct (ManagedContainers_loop (dockerClient w) ids []); [|done].
    intros [= _ <-]. apply grows_refl.
Qed.

Lemma growing_stopContainer c : growing (stopContainer c).
Proof.
  intros w a w'. unfold stopContainer. simpl.
  destruct (blacklistedContainerId w !! ID c) as [b|] eqn:Hb.
  { intros [= _ <-]. by apply (grows_quiet _ _ [ID c]). }
  destruct (String.length (ID c) <? 12)%nat; [done|].
  assert (∀ r, r ∈ [StopContainer_req (ID c)] →
               ∃ id, r = StopContainer_req id ∧ id ∈ [ID c]) as Hreq.
  { intros r ->%list_elem_of_singleton. exists (ID c). set_solver. }
  destruct (StopContainer (dockerClient w) (ID c)) as [[err|]|];
    intros [= _ <-]; exists [ID c], [StopContainer_req (ID c)]; simpl;
    (split; [done|]); (split; [done|]); (split; [lia|]);
    (split; [exact Hreq|]).
  - split; [by left|]. intros id b' ?. by left.
  - split; [by left|]. intros id b' ?. by left.
  - split.
    + intros id. rewrite lookup_insert. case_decide; [subst|by left].
      intros _. right. set_solver.
    + intros id b'. rewrite lookup_insert. case_decide; [|by left].
      intros [= <-]. by right.
Qed.

Local Ltac grow IH :=
  repeat first
    [ apply growing_ret
    | apply growing_panic
    | apply IH
    | apply growing_EnvFor_m
    | apply growing_InspectImage_m
    | apply growing_get_world
    | apply growing_stopContainer
    | apply growing_bind; [|intros ?]
    | match goal with
      | |- growing (if ?b then _ else _) => destruct b
      | |- growing (match ?x with (_, _) => _ end) => destruct x
      | |- growing (match ?x with Some _ => _ | None => _ end) => destruct x
      end ].

Lemma growing_StopAllMatching_loop name cs :
  growing (StopAllMatching_loop name cs).
Proof. induction cs as [|c cs IH]; cbn [StopAllMatching_loop]; grow IH. Qed.

Lemma growing_Stop_loop appCfg cs : growing (Stop_loop appCfg cs).
Proof. induction cs as [|c cs IH]; cbn [Stop_loop]; grow IH. Qed.

Lemma growing_StopOldVersion_loop appCfg limit cs : ∀ stopped,
  growing (StopOldVersion_loop appCfg limit stopped cs).
Proof.
  induction cs as [|c cs IH]; intros stopped; cbn [StopOldVersion_loop];
    grow IH.
Qed.

Lemma growing_StopAllButCurrentVersion_loop appCfg cs :
  growing (StopAllButCurrentVersion_loop appCfg cs).
Proof.
  induction cs as [|c cs IH]; cbn [StopAllButCurrentVersion_loop]; grow IH.
Qed.

Lemma growing_StopUnassigned_loop env pool cs :
  growing (StopUnassigned_loop env pool cs).
Proof. induction cs as [|c cs IH]; cbn [StopUnassigned_loop]; grow IH. Qed.

Lemma growing_StopAll_loop cs : growing (StopAll_loop cs).
Proof. induction cs as [|c cs IH]; cbn [StopAll_loop]; grow IH. Qed.

Lemma growing_run op : growing (run op).
Proof.
  destruct op; cbn [run];
    try (apply growing_bind; [apply growing_ManagedContainers|];
         intros [cs [err|]]; [apply growing_ret|]).
  - apply growing_Stop_loop.
  - apply growing_StopAllMatching_loop.
  - apply growing_StopOldVersion_loop.
  - apply growing_StopAllButCurrentVersion_loop.
  - apply growing_StopUnassigned_loop.
  - apply growing_StopAll_loop.
  - apply growing_stopContainer.
  - intros w a w' [= _ <-]. apply (grows_quiet _ _ []); simpl;
      by rewrite ?app_nil_r.
Qed.

End StopFamilyFacts.

(** X18: with a negative limit [StopOldVersion] has no cap at all: it does
    what [StopAllButCurrentVersion] does, call by call. *)
Theorem X18_negative_limit (appCfg : App) (limit : Z) (w : World)
        (Hneg : limit < 0) :
  StopOldVersion appCfg limit w = StopAllButCurrentVersion appCfg w.
Proof.
  unfold StopOldVersion, StopAllButCurrentVersion. rewrite !bind_unfold.
  destruct (ManagedContainers w) as [[cs [err|]] w1| |]; try done.
  by apply StopOldVersion_loop_unbounded.
Qed.

Lemma X18_negative_limit_witness :
  -1 < 0
  ∧ StopOldVersion sample.web8 (-1) sample.world0
    = StopAllButCurrentVersion sample.web8 sample.world0.
Proof.
  assert (-1 < 0) as H by lia. split; [exact H|].
  exact (X18_negative_limit sample.web8 (-1) sample.world0 H).
Defined.

(** X19: [StopAllMatching] with the empty name stops nothing: a managed
    container always carries a non-empty [GALAXY_APP].  The call returns what
    the listing returned and leaves the process as it is. *)
Theorem X19_stop_all_matching_empty (w : World) (cs : list Container)
        (err : option error)
        (Hmanaged : ManagedContainers w = Returned (cs, err) w) :
  StopAllMatching EmptyString w = Returned err w.
Proof.
  unfold StopAllMatching. rewrite bind_unfold, Hmanaged.
  destruct err as [e|]; [done|].
  apply StopAllMatching_loop_none.
  destruct (ManagedContainers_tagged w cs None w Hmanaged) as [_ Htag].
  eapply Forall_impl; [exact Htag|]. cbn. intros c [Henv Hne].
  split; [done|]. unfold tagged. by apply String.eqb_neq.
Qed.

Lemma X19_stop_all_matching_empty_witness :
  ManagedContainers sample.world0
  = Returned ([sample.web_0; sample.web_1], None) sample.world0
  ∧ StopAllMatching EmptyString sample.world0 = Returned None sample.world0.
Proof.
  split; [exact sample_managed|].
  exact (X19_stop_all_matching_empty sample.world0 _ None sample_managed).
Defined.

(** X20: over any run of operations of the stop family the two logs only
    grow; the daemon is sent at most one request per call of
    [stopContainer], each of them a stop request for an id such a call was
    made with, never a pull; an id that is new in the blacklist was sent a
    stop request during the run; and every flag in the blacklist that the
    run wrote is [true]. *)
Theorem X20_stop_family_footprint (ops : list Op) (w w' : World)
        (Hrun : run_all ops w = Returned tt w') :
  ∃ calls new,
    stop_calls w' = stop_calls w ++ calls
    ∧ requests w' = requests w ++ new
    ∧ (length new <= length calls)%nat
    ∧ (∀ r, r ∈ new → ∃ id, r = StopContainer_req id ∧ id ∈ calls)
    ∧ pulls_in new = 0%nat
    ∧ (∀ id, is_Some (blacklistedContainerId w' !! id) →
             is_Some (blacklistedContainerId w !! id)
             ∨ StopContainer_req id ∈ new)
    ∧ (∀ id b, blacklistedContainerId w' !! id = Some b →
               blacklistedContainerId w !! id = Some b ∨ b = true).
Proof.
  assert (growing (run_all ops)) as Hg.
  { clear. induction ops as [|op ops IH]; cbn [run_all]; [apply growing_ret|].
    apply growing_bind; [apply growing_run|]. intros _. apply IH. }
  destruct (Hg w tt w' Hrun) as (calls & new & HC & HR & HL & HQ & HB & HF).
  exists calls, new. repeat (split; [done|]). split; [|done].
  clear -HQ. induction new as [|r new IH]; [done|].
  destruct (HQ r) as (id & -> & _); [set_solver|]. cbn [pulls_in].
  apply IH. intros r' Hr'. apply HQ. set_solver.
Qed.

Lemma X20_stop_family_footprint_witness :
  ∃ w', run_all [Op_StopAll "prod"; Op_StopAllMatching "web"]
                sample.world_hung = Returned tt w'
        ∧ stop_calls w' = [sample.id1; sample.id2; sample.id1; sample.id2]
        ∧ requests w' = [StopContainer_req sample.id1;
                         StopContainer_req sample.id2].
Proof.
  eexists. split; [vm_compute; reflexivity|].
  match goal with
  | |- stop_calls ?w' = _ ∧ _ =>
      destruct (X20_stop_family_footprint
                  [Op_StopAll "prod"; Op_StopAllMatching "web"]
                  sample.world_hung w' eq_refl)
        as (calls & new & HC & HR & _)
  end.
  split; reflexivity.
Defined.

(** X21: [Stop] acts on the first managed container of the descriptor's
    name, version and image id alone: its result and its effect are those
    of [stopContainer] on that container, error included; with no such
    container it returns nil and does nothing. *)
Theorem X21_stop_first_match (appCfg : App) (w : World)
        (cs : list Container)
        (Hmanaged : ManagedContainers w = Returned (cs, None) w) :
  Stop appCfg w
  = match List.filter (current appCfg) cs with
    | [] => Returned None w
    | c :: _ => stopContainer c w
    end.
Proof.
  unfold Stop. rewrite bind_unfold, Hmanaged.
  apply Stop_loop_first.
  destruct (ManagedContainers_tagged w cs None w Hmanaged) as [_ Htag].
  eapply Forall_impl; [exact Htag|]. by intros c [? _].
Qed.

Lemma X21_stop_first_match_witness :
  ManagedContainers sample.world0
  = Returned ([sample.web_0; sample.web_1], None) sample.world0
  ∧ Stop sample.web7 sample.world0 = stopContainer sample.web_0 sample.world0
  ∧ Stop sample.web8 sample.world0 = Returned None sample.world0.
Proof.
  split; [exact sample_managed|]. split.
  - exact (X21_stop_first_match sample.web7 sample.world0 _ sample_managed).
  - exact (X21_stop_first_match sample.web8 sample.world0 _ sample_managed).
Defined.

(** ** The runtime: more on [PullImage]. *)
Section PullFacts.

(** Transient failures at the head of the daemon's replies are retried, as
    long as the count stays within 3. *)
Lemma PullImage_loop_skip es : ∀ fuel retries image w tail,
  docker.PullImage (dockerClient w) = (Some <$> es) ++ tail →
  Forall (λ e, transient e = true) es →
  0 <= retries → retries + Z.of_nat (length es) <= 3 →
  ∃ w1,
    PullImage_loop (length es + fuel) retries image w
    = PullImage_loop fuel (retries + Z.of_nat (length es)) image w1
    ∧ docker.PullImage (dockerClient w1) = tail
    ∧ requests w1 = requests w ++ replicate (length es) PullImage_req
    ∧ InspectImage (dockerClient w1) = InspectImage (dockerClient w)
    ∧ registry (dockerClient w1) = registry (dockerClient w).
Proof.
  induction es as [|e es IH]; intros fuel retries image w tail Hs Ht H0 H3.
  - exists w. cbn [length Nat.add replicate]. rewrite Z.add_0_r, app_nil_r.
    done.
  - apply Forall_cons in Ht as [He Ht].
    cbn [length Nat.add fmap list_fmap] in *.
    rewrite <- app_comm_cons in Hs.
    rewrite (PullImage_loop_transient _ _ _ w e _ Hs He).
    destruct (Z.gtb_spec (retries + 1) 3) as [?|_]; [lia|].
    destruct (IH fuel (retries + 1) image (after_request w) tail)
      as (w1 & Hrun & Htail & Hreq & Himg & Hreg); [|done|lia|lia|].
    { by rewrite script_after_request, Hs. }
    exists w1. split; [rewrite Hrun; f_equal; lia|]. split; [done|].
    split; [|split].
    + rewrite Hreq, requests_after_request, <- app_assoc. done.
    + rewrite Himg. cbn. by rewrite Hs.
    + by rewrite Hreg.
Qed.

End PullFacts.

(** X22: [PullImage] stops at a 404: when the pull has to be made and, after
    at most 3 transient failures, the registry answers ["HTTP code: 404"],
    the call returns the image found before the pull and no error, having
    sent one request per failure and one for the 404. *)
Theorem X22_pull_not_found (fuel : nat) (version id : string) (w : World)
        (es : list error) (e : error) (tail : list (option error))
        (Hfuel : (4 <= fuel)%nat)
        (Hmust : must_pull w version id = true)
        (Hscript : docker.PullImage (dockerClient w)
                   = (Some <$> es) ++ Some e :: tail)
        (Htransient : Forall (λ e, transient e = true) es)
        (Hcount : (length es <= 3)%nat)
        (H404 : Error e = "HTTP code: 404"%string) :
  ∃ w', PullImage fuel version id w
        = Returned (fst (InspectImage (dockerClient w) version), None) w'
        ∧ requests w'
          = requests w ++ replicate (S (length es)) PullImage_req.
Proof.
  rewrite PullImage_must_pull by done.
  replace fuel with (length es + S (fuel - length es - 1))%nat by lia.
  destruct (PullImage_loop_skip
              es (S (fuel - length es - 1)) 0
              (fst (InspectImage (dockerClient w) version)) w _ Hscript)
    as (w1 & Hrun & Htail & Hreq & _); [done|lia|lia|].
  rewrite Hrun, PullImage_loop_step, Htail, H404. cbn [String.eqb].
  change (("HTTP code: 404" =? "HTTP code: 404")%string) with true.
  cbn iota. eexists. split; [done|].
  rewrite requests_after_request, Hreq, <- app_assoc.
  change [PullImage_req] with (replicate 1 PullImage_req).
  rewrite <- replicate_add. f_equal. f_equal. lia.
Qed.

Lemma X22_pull_not_found_witness :
  ∃ w', PullImage 10 "registry/web:8" "img8" sample.world_missing
        = Returned (Some {| Image_ID := "img7" |}, None) w'
        ∧ requests w' = [PullImage_req; PullImage_req].
Proof.
  assert (4 <= 10)%nat as Hfuel by lia.
  assert (Forall (λ e, transient e = true) [ErrOther "i/o timeout"]) as Ht
    by (by repeat constructor).
  assert (length [ErrOther "i/o timeout"] <= 3)%nat as Hc by (simpl; lia).
  exact (X22_pull_not_found
           10 "registry/web:8" "img8" sample.world_missing
           [ErrOther "i/o timeout"] (ErrOther "HTTP code: 404") [None]
           Hfuel eq_refl eq_refl Ht Hc eq_refl).
Defined.

(** X23: [PullImage] gets through transient failures: when the pull has to
    be made and succeeds after at most 3 transient failures, the call
    returns what the inspection of the image says after the pull, having
    sent one request per failure and one more. *)
Theorem X23_pull_succeeds (fuel : nat) (version id : string) (w : World)
        (es : list error) (tail : list (option error))
        (Hfuel : (4 <= fuel)%nat)
        (Hmust : must_pull w version id = true)
        (Hscript : docker.PullImage (dockerClient w)
                   = (Some <$> es) ++ None :: tail)
        (Htransient : Forall (λ e, transient e = true) es)
        (Hcount : (length es <= 3)%nat) :
  ∃ w', PullImage fuel version id w
        = Returned (InspectImage (dockerClient w') version) w'
        ∧ requests w'
          = requests w ++ replicate (S (length es)) PullImage_req
        ∧ InspectImage (dockerClient w') = registry (dockerClient w).
Proof.
  rewrite PullImage_must_pull by done.
  replace fuel with (length es + S (fuel - length es - 1))%nat by lia.
  destruct (PullImage_loop_skip
              es (S (fuel - length es - 1)) 0
              (fst (InspectImage (dockerClient w) version)) w _ Hscript)
    as (w1 & Hrun & Htail & Hreq & _ & Hreg); [done|lia|lia|].
  rewrite Hrun, PullImage_loop_step, Htail.
  eexists. split; [done|]. split.
  - rewrite requests_after_request, Hreq, <- app_assoc.
    change [PullImage_req] with (replicate 1 PullImage_req).
    rewrite <- replicate_add. f_equal. f_equal. lia.
  - cbn. by rewrite Htail.
Qed.

Lemma X23_pull_succeeds_witness :
  ∃ w', PullImage 10 "registry/web:8" "img8" sample.world_flaky
        = Returned (Some {| Image_ID := "img8" |}, None) w'
        ∧ requests w' = [PullImage_req; PullImage_req; PullImage_req].
Proof.
  assert (4 <= 10)%nat as Hfuel by lia.
  assert (Forall (λ e, transient e = true)
                 [ErrOther "i/o timeout"; ErrOther "i/o timeout"]) as Ht
    by (by repeat constructor).
  assert (length [ErrOther "i/o timeout"; ErrOther "i/o timeout"] <= 3)%nat
    as Hc by (simpl; lia).
  destruct (X23_pull_succeeds
              10 "registry/web:8" "img8" sample.world_flaky
              [ErrOther "i/o timeout"; ErrOther "i/o timeout"] []
              Hfuel eq_refl eq_refl Ht Hc) as (w' & Hrun & Hreq & Himg).
  exists w'. split; [|exact Hreq]. rewrite Hrun, Himg. reflexivity.
Defined.

(** X24: when [PullImage] does not pull.  An image that is there with the
    wanted id is returned as it is; a failure of the first inspection, other
    than the library's no-such-image, is returned with no image.  In both
    cases nothing is sent to the daemon, whatever the loop bound. *)
Theorem X24_pull_not_needed (fuel : nat) (version id : string) (w : World) :
  (∀ i err, InspectImage (dockerClient w) version = (Some i, err) →
            Image_ID i = id →
            (err = None ∨ err = Some ErrNoSuchImage) →
            PullImage fuel version id w = Returned (Some i, None) w)
  ∧ (∀ image msg,
       InspectImage (dockerClient w) version = (image, Some (ErrOther msg)) →
       PullImage fuel version id w
       = Returned (None, Some (ErrOther msg)) w).
Proof.
  split.
  - intros i err Hi Hid Herr. unfold PullImage.
    rewrite bind_unfold. cbn [InspectImage_m]. rewrite Hi.
    assert (image_has_id (Some i) id = true) as ->
      by (by apply String.eqb_eq).
    by destruct Herr as [-> | ->].
  - intros image msg Hi. unfold PullImage.
    rewrite bind_unfold. cbn [InspectImage_m]. by rewrite Hi.
Qed.

Lemma X24_pull_not_needed_witness :
  PullImage 0 "registry/web:7" "img7" sample.world0
  = Returned (Some {| Image_ID := "img7" |}, None) sample.world0.
Proof.
  exact (proj1 (X24_pull_not_needed 0 "registry/web:7" "img7" sample.world0)
               {| Image_ID := "img7" |} None eq_refl eq_refl
               (or_introl eq_refl)).
Defined.

(** ** The runtime: counting instances. *)
Section InstanceFacts.

Lemma instance_of_env c env :
  EnvFor c = Some env →
  instance_of c
  = if gostring.is_empty (index env "GALAXY_INSTANCE") then None
    else strconv.ParseInt (index env "GALAXY_INSTANCE").
Proof. unfold instance_of. by intros ->. Qed.

Lemma version_of_env c env :
  EnvFor c = Some env → version_of c = index env "GALAXY_VERSION".
Proof. unfold version_of. by intros ->. Qed.

Lemma instanceIds_loop_spec app versionId cs : ∀ instances,
  Forall stoppable cs →
  instanceIds_loop app versionId cs instances
  = Some (instances
            ++ omap (λ c, if counted app versionId c then instance_of c
                          else None) cs).
Proof.
  induction cs as [|c cs IH]; intros instances Hok.
  - by rewrite app_nil_r.
  - apply Forall_cons in Hok as [[[env Henv] Hlen] Hok].
    cbn [instanceIds_loop omap list_omap]. rewrite Henv.
    unfold counted at 1.
    rewrite (tagged_env app c env), (instance_of_env c env),
      (version_of_env c env) by done.
    destruct (String.eqb (index env "GALAXY_APP") app); cbn [negb andb];
      [|by apply IH].
    destruct (gostring.is_empty (index env "GALAXY_INSTANCE"));
      cbn [negb]; [by rewrite bool_decide_eq_false_2 by (by intros [? ?]);
                   apply IH|].
    destruct (strconv.ParseInt (index env "GALAXY_INSTANCE")) as [i|].
    + rewrite bool_decide_eq_true_2 by (by eexists). cbn [andb].
      destruct (gostring.is_empty versionId); cbn [negb andb orb].
      * rewrite IH by done. by rewrite <- app_assoc.
      * destruct (String.eqb (index env "GALAXY_VERSION") versionId);
          cbn [negb]; rewrite IH by done; [by rewrite <- app_assoc|done].
    + rewrite bool_decide_eq_false_2 by (by intros [? ?]). cbn [andb].
      destruct (Nat.ltb_spec (String.length (ID c)) 12) as [?|_]; [lia|].
      by apply IH.
Qed.

Lemma counted_length app versionId cs :
  length (omap (λ c, if counted app versionId c then instance_of c else None)
               cs)
  = length (List.filter (counted app versionId) cs).
Proof.
  induction cs as [|c cs IH]; [done|]. cbn [omap list_omap List.filter].
  destruct (counted app versionId c) eqn:Hc; [|done].
  assert (is_Some (instance_of c)) as [i ->].
  { unfold counted in Hc.
    apply andb_true_iff in Hc as [[_ Hi%bool_decide_eq_true]%andb_true_iff _].
    done. }
  simpl. by rewrite IH.
Qed.

Lemma counted_any_version app versionId c :
  counted app versionId c = true → counted app EmptyString c = true.
Proof.
  unfold counted. intros [H _]%andb_true_iff. rewrite H. done.
Qed.

Lemma filter_length_le {A} (f g : A → bool) (l : list A) :
  (∀ a, f a = true → g a = true) →
  (length (List.filter f l) <= length (List.filter g l))%nat.
Proof.
  intros Hfg. induction l as [|a l IH]; [done|]. cbn [List.filter].
  destruct (f a) eqn:Hf.
  - rewrite (Hfg a Hf). simpl. lia.
  - destruct (g a); simpl; lia.
Qed.

End InstanceFacts.

(** X25: [InstanceCount] counts the managed containers tagged with the
    application whose [GALAXY_INSTANCE] is a number, of the given version or,
    with an empty version, of any; a container without instance tag or with
    one that does not parse is left out.  The count for one version never
    exceeds the count for all versions, nor the number of managed
    containers, and the call changes nothing.  The ids are taken to have the
    12 bytes that the warning about a tag that does not parse prints. *)
Theorem X25_instance_count (app versionId : string) (w : World)
        (cs : list Container)
        (Hmanaged : ManagedContainers w = Returned (cs, None) w)
        (Hids : Forall (λ c, (12 <= String.length (ID c))%nat) cs) :
  InstanceCount app versionId w
  = Returned (Z.of_nat (length (List.filter (counted app versionId) cs)),
              None) w
  ∧ (length (List.filter (counted app versionId) cs)
     <= length (List.filter (counted app EmptyString) cs))%nat
  ∧ (length (List.filter (counted app EmptyString) cs) <= length cs)%nat.
Proof.
  destruct (ManagedContainers_stoppable w cs w Hmanaged Hids) as [_ Hok].
  split; [|split].
  - unfold InstanceCount, instanceIds. rewrite !bind_unfold, Hmanaged.
    rewrite instanceIds_loop_spec by done. cbn.
    by rewrite counted_length.
  - apply filter_length_le, counted_any_version.
  - apply List.filter_length_le.
Qed.

Lemma sample_managed3 :
  let w := sample.world_of
             {| ListContainers := ([sample.id1; sample.id2; "x"], None);
                InspectContainer := λ q,
                  if String.eqb q "x" then (Some sample.web_x, None)
                  else InspectContainer sample.daemon0 q;
                InspectImage := InspectImage sample.daemon0;
                StopContainer := StopContainer sample.daemon0;
                docker.PullImage := [];
                registry := registry sample.daemon0 |} in
  ManagedContainers w
  = Returned ([sample.web_0; sample.web_1; sample.web_x], None) w.
Proof. vm_compute. reflexivity. Qed.

Lemma X25_instance_count_witness :
  let w := sample.world_of
             {| ListContainers := ([sample.id1; sample.id2; "x"], None);
                InspectContainer := λ q,
                  if String.eqb q "x" then (Some sample.web_x, None)
                  else InspectContainer sample.daemon0 q;
                InspectImage := InspectImage sample.daemon0;
                StopContainer := StopContainer sample.daemon0;
                docker.PullImage := [];
                registry := registry sample.daemon0 |} in
  InstanceCount "web" "7" w = Returned (2, None) w.
Proof.
  intros w.
  assert (Forall (λ c, (12 <= String.length (ID c))%nat)
                 [sample.web_0; sample.web_1; sample.web_x]) as Hids
    by (repeat constructor; vm_compute; lia).
  exact (proj1 (X25_instance_count "web" "7" w _ sample_managed3 Hids)).
Defined.

(** ** The runtime: [parseHost]. *)
Section ParseHostFacts.
Import strconv.

Lemma prefix_cons a p b s :
  String.prefix (String a p) (String b s)
  = if Ascii.eqb a b then String.prefix p s else false.
Proof.
  simpl. destruct (ascii_dec a b) as [->|Hne].
  - by rewrite Ascii.eqb_refl.
  - apply Ascii.eqb_neq in Hne. by rewrite Hne.
Qed.

Lemma prefix_nil s : String.prefix EmptyString s = true.
Proof. by destruct s. Qed.

Lemma prefix_append p s : String.prefix p (p +:+ s) = true.
Proof.
  induction p as [|a p IH]; [apply prefix_nil|].
  by rewrite append_cons, prefix_cons, Ascii.eqb_refl.
Qed.

Lemma substring_skip p s :
  substring (String.length p)
            (String.length (p +:+ s) - String.length p) (p +:+ s) = s.
Proof.
  induction p as [|a p IH].
  - rewrite append_nil_l. simpl. rewrite Nat.sub_0_r. apply substring_all.
  - rewrite append_cons. simpl. apply IH.
Qed.

Lemma TrimPrefix_append p s : strings.TrimPrefix (p +:+ s) p = s.
Proof.
  unfold strings.TrimPrefix, strings.HasPrefix.
  by rewrite prefix_append, substring_skip.
Qed.

Lemma Contains_unfold s sub :
  strings.Contains s sub
  = String.prefix sub s
    || match s with
       | EmptyString => false
       | String _ s' => strings.Contains s' sub
       end.
Proof. by destruct s. Qed.

Lemma Contains_colon s :
  strings.Contains s ":" = gostring.has_byte gostring.colon s.
Proof.
  induction s as [|c s IH]; [done|].
  rewrite Contains_unfold, prefix_cons, prefix_nil, IH.
  cbn [gostring.has_byte]. rewrite (Ascii.eqb_sym c). fold gostring.colon.
  by destruct (Ascii.eqb gostring.colon c).
Qed.

Lemma Contains_scheme_no_colon s :
  gostring.has_byte gostring.colon s = false →
  strings.Contains s "://" = false.
Proof.
  induction s as [|c s IH]; [done|]. cbn [gostring.has_byte]. intros H.
  destruct (Ascii.eqb c gostring.colon) eqn:Hc; [done|].
  rewrite Contains_unfold, prefix_cons, Ascii.eqb_sym.
  change ":"%char with gostring.colon. rewrite Hc. exact (IH H).
Qed.

Lemma prefix_Contains a : ∀ b s,
  String.prefix (a +:+ b) s = true → strings.Contains s b = true.
Proof.
  induction a as [|c a IH]; intros b s H.
  - rewrite append_nil_l in H. by rewrite Contains_unfold, H.
  - rewrite append_cons in H. destruct s as [|d s]; [done|].
    rewrite prefix_cons in H. destruct (Ascii.eqb c d); [|done].
    rewrite Contains_unfold, (IH b s H). apply orb_true_r.
Qed.

(** A host and a port, joined by the one colon, hold no ["://"]. *)
Lemma Contains_scheme_host_port host f :
  gostring.has_byte gostring.colon host = false →
  gostring.has_byte gostring.colon f = false →
  String.prefix "//" f = false →
  strings.Contains (host +:+ String gostring.colon f) "://" = false.
Proof.
  intros Hh Hf Hs. induction host as [|c host IH].
  - rewrite append_nil_l, Contains_unfold, prefix_cons.
    change (Ascii.eqb ":" gostring.colon) with true. cbv iota.
    rewrite Hs. exact (Contains_scheme_no_colon f Hf).
  - cbn [gostring.has_byte] in Hh.
    destruct (Ascii.eqb c gostring.colon) eqn:Hc; [done|].
    rewrite append_cons, Contains_unfold, prefix_cons, Ascii.eqb_sym.
    change ":"%char with gostring.colon. rewrite Hc. exact (IH Hh).
Qed.

Lemma Split_nonempty s : strings.Split s gostring.colon ≠ [].
Proof.
  intros H. pose proof (Split_length s) as Hl. by rewrite H in Hl.
Qed.

Lemma Join_cons e h t :
  strings.Join (e :: h :: t) ":"
  = e +:+ String gostring.colon (strings.Join (h :: t) ":").
Proof. reflexivity. Qed.

(** [Split] cuts at every colon and [Join] puts the parts together again. *)
Lemma Split_Join s :
  Forall (λ p, gostring.has_byte gostring.colon p = false)
         (strings.Split s gostring.colon)
  ∧ strings.Join (strings.Split s gostring.colon) ":" = s.
Proof.
  induction s as [|c s [IHf IHj]]; [by repeat constructor|].
  simpl strings.Split. destruct (Ascii.eqb c gostring.colon) eqn:Hc.
  - apply Ascii.eqb_eq in Hc as ->. split; [by constructor|].
    destruct (strings.Split s gostring.colon) as [|h t] eqn:Hs;
      [by apply Split_nonempty in Hs|].
    by rewrite Join_cons, IHj.
  - destruct (strings.Split s gostring.colon) as [|h t] eqn:Hs;
      [by apply Split_nonempty in Hs|].
    apply Forall_cons in IHf as [Hh Ht]. split.
    + constructor; [|done]. simpl. by rewrite Hc.
    + destruct t as [|h' t]; [simpl in *; by rewrite IHj|].
      rewrite Join_cons, append_cons. rewrite Join_cons in IHj.
      by rewrite IHj.
Qed.

Lemma Split_two s :
  length (strings.Split s gostring.colon) = 2%nat →
  ∃ a b, strings.Split s gostring.colon = [a; b]
         ∧ s = a +:+ String gostring.colon b
         ∧ gostring.has_byte gostring.colon a = false
         ∧ gostring.has_byte gostring.colon b = false.
Proof.
  intros Hl. destruct (Split_Join s) as [Hf Hj].
  destruct (strings.Split s gostring.colon) as [|a [|b [|? ?]]]; try done.
  apply Forall_cons in Hf as [Ha Hf]. apply Forall_cons in Hf as [Hb _].
  exists a, b. by rewrite <- Hj.
Qed.

Lemma is_digit_val c : is_digit c = true → 0 <= digit_val c <= 9.
Proof.
  unfold is_digit, digit_val.
  intros [H1%Z.leb_le H2%Z.leb_le]%andb_true_iff. lia.
Qed.

Lemma parseDigits_nonneg s : ∀ n m,
  0 <= n → parseDigits s n = Some m → 0 <= m.
Proof.
  induction s as [|c s IH]; intros n m Hn; simpl.
  - by intros [= <-].
  - destruct (is_digit c) eqn:Hd; [|done].
    apply IH. apply is_digit_val in Hd. lia.
Qed.

(** What [ParseInt] returns fits [int64]. *)
Lemma ParseInt_range s z : ParseInt s = Some z → int64.in_range z.
Proof.
  unfold ParseInt. destruct s as [|c s]; [done|].
  set (s1 := if Ascii.eqb c "+" || Ascii.eqb c "-" then s else String c s).
  unfold ParseUint. destruct s1 as [|c1 s1]; [done|].
  destruct (parseDigits (String c1 s1) 0) as [n|] eqn:Hp; [|done].
  apply parseDigits_nonneg in Hp; [|lia].
  destruct (Z.ltb_spec n (2 ^ 64)); [|done].
  unfold int64.in_range, int64.min, int64.max.
  destruct (Ascii.eqb c "-"); cbn [negb andb].
  - destruct (Z.ltb_spec (2 ^ 63) n); [done|]. intros [= <-]. lia.
  - destruct (Z.leb_spec (2 ^ 63) n); [done|]. intros [= <-]. lia.
Qed.

(** A number is printed with a digit or a minus sign in front. *)
Lemma FormatInt_head z :
  int64.in_range z → String.prefix "//" (FormatInt z) = false.
Proof.
  unfold int64.in_range, int64.min, int64.max. intros Hz.
  unfold FormatInt. destruct (Z.ltb_spec z 0); [done|].
  destruct (ParseUint_formatBits z) as [_ (c & s & -> & Hd)]; [lia|].
  rewrite prefix_cons. destruct (Ascii.eqb_spec "/" c) as [<-|]; [|done].
  by vm_compute in Hd.
Qed.

Lemma format_error_shape a proto x err :
  format_error a = (proto, x, err) →
  err ≠ None ∧ proto = EmptyString ∧ x = EmptyString.
Proof. by intros [= <- <- <-]. Qed.

Lemma parseHost_address_unix a :
  parseHost_address "unix" a = ("unix"%string, a, None).
Proof. reflexivity. Qed.

(** After the switch, for tcp: one colon, and a port that is a number other
    than 0. *)
Lemma parseHost_address_tcp host f :
  gostring.has_byte gostring.colon host = false →
  gostring.has_byte gostring.colon f = false →
  parseHost_address "tcp" (host +:+ String gostring.colon f)
  = match ParseInt f with
    | Some p =>
        if p =? 0 then format_error (host +:+ String gostring.colon f)
        else ("tcp"%string, tcp_address host p, None)
    | None => format_error (host +:+ String gostring.colon f)
    end.
Proof.
  intros Hh Hf. unfold parseHost_address.
  change (negb ("tcp" =? "unix")%string) with true.
  rewrite Contains_colon, has_byte_append. simpl gostring.has_byte at 2.
  rewrite orb_true_r. cbn [andb].
  rewrite Split_append, Split_colon_free by done.
  cbn [length Nat.eqb negb nth].
  destruct (ParseInt f) as [p|]; [|done].
  destruct (p =? 0); [done|]. cbn [negb]. unfold tcp_address.
  by destruct (String.eqb host "").
Qed.

Lemma parseHost_address_tcp_shape a proto x err :
  parseHost_address "tcp" a = (proto, x, err) →
  (err = None ∧ proto = "tcp"%string
   ∧ ∃ host p, x = host +:+ ":" +:+ FormatInt p
               ∧ host ≠ EmptyString
               ∧ gostring.has_byte gostring.colon host = false
               ∧ p ≠ 0 ∧ int64.in_range p)
  ∨ (err ≠ None ∧ proto = EmptyString ∧ x = EmptyString).
Proof.
  unfold parseHost_address.
  change (negb ("tcp" =? "unix")%string) with true.
  change (("tcp" =? "tcp")%string) with true. cbn [andb].
  destruct (strings.Contains a ":"); cbn [negb];
    [|by intros ?%format_error_shape; right].
  destruct (Nat.eqb_spec (length (strings.Split a gostring.colon)) 2)
    as [Hl|_]; cbn [negb]; [|by intros ?%format_error_shape; right].
  destruct (Split_two a Hl) as (h0 & h1 & -> & _ & Hh0 & _). cbn [nth].
  destruct (ParseInt h1) as [p|] eqn:Hp;
    [|by intros ?%format_error_shape; right].
  destruct (Z.eqb_spec p 0); cbn [negb];
    [by intros ?%format_error_shape; right|].
  intros [= <- <- <-]. left. split; [done|]. split; [done|].
  apply ParseInt_range in Hp.
  destruct (String.eqb_spec h0 "") as [->|Hne]; cbn [negb].
  - by exists "127.0.0.1"%string, p.
  - by exists h0, p.
Qed.

Lemma parseHost_switch_shape a :
  match parseHost_switch a with
  | inl (proto, x) =>
      (proto = "unix"%string ∧ x ≠ EmptyString) ∨ proto = "tcp"%string
  | inr (proto, x, err) =>
      (err = None ∧ proto = "fd"%string ∧ x = a)
      ∨ (err ≠ None ∧ proto = EmptyString ∧ x = EmptyString)
  end.
Proof.
  unfold parseHost_switch.
  destruct (String.eqb a "tcp://"); [by right|].
  destruct (strings.HasPrefix a "unix://").
  { left. destruct (String.eqb_spec (strings.TrimPrefix a "unix://") "");
      by split. }
  destruct (strings.HasPrefix a "tcp://"); [by right|].
  destruct (strings.HasPrefix a "fd://"); [by left|].
  destruct (String.eqb a ""); [by left|].
  destruct (strings.Contains a "://"); [by right|by right].
Qed.

(** The switch takes a bare host and port for tcp. *)
Lemma parseHost_switch_bare host f :
  gostring.has_byte gostring.colon host = false →
  gostring.has_byte gostring.colon f = false →
  String.prefix "//" f = false →
  parseHost_switch (host +:+ String gostring.colon f)
  = inl ("tcp"%string, host +:+ String gostring.colon f).
Proof.
  intros Hh Hf Hs.
  pose proof (Contains_scheme_host_port host f Hh Hf Hs) as Hc.
  set (a := host +:+ String gostring.colon f) in *.
  assert (∀ p, strings.HasPrefix a (p +:+ "://") = false) as Hp.
  { intros p. unfold strings.HasPrefix.
    destruct (String.prefix (p +:+ "://") a) eqn:E; [|done].
    apply prefix_Contains in E. congruence. }
  unfold parseHost_switch.
  destruct (String.eqb_spec a "tcp://") as [Heq|_].
  { rewrite Heq in Hc. by vm_compute in Hc. }
  pose proof (Hp "unix"%string) as Hu. pose proof (Hp "tcp"%string) as Ht.
  pose proof (Hp "fd"%string) as Hfd.
  change ("unix" +:+ "://") with "unix://"%string in Hu.
  change ("tcp" +:+ "://") with "tcp://"%string in Ht.
  change ("fd" +:+ "://") with "fd://"%string in Hfd.
  rewrite Hu, Ht, Hfd.
  destruct (String.eqb_spec a "") as [Heq|_].
  { unfold a in Heq. by destruct host. }
  by rewrite Hc.
Qed.

Lemma parseHost_switch_tcp a :
  a ≠ EmptyString →
  parseHost_switch ("tcp://" +:+ a) = inl ("tcp"%string, a).
Proof.
  intros Hne. unfold parseHost_switch.
  destruct (String.eqb_spec ("tcp://" +:+ a) "tcp://") as [Heq|_].
  { destruct a; [done|]. discriminate Heq. }
  assert (strings.HasPrefix ("tcp://" +:+ a) "unix://" = false) as -> by done.
  unfold strings.HasPrefix at 1. rewrite prefix_append.
  by rewrite TrimPrefix_append.
Qed.

End ParseHostFacts.

(** X26: [parseHost] reads a host and a port, with or without ["tcp://"] in
    front: for a host without colon and a port other than 0, printed in
    decimal, the result is the protocol tcp and the address [host:port];
    an empty host stands for 127.0.0.1.  A sign in front of the port is
    read as well, so that a negative port is accepted. *)
Theorem X26_parse_host_tcp (TrimSpace : string → string)
        (addr host : string) (port : Z)
        (Hhost : gostring.has_byte gostring.colon host = false)
        (Hport : port ≠ 0) (Hrange : int64.in_range port)
        (Haddr : TrimSpace addr = "tcp://" +:+ host +:+ ":"
                                    +:+ strconv.FormatInt port
                 ∨ TrimSpace addr = host +:+ ":" +:+ strconv.FormatInt port) :
  parseHost TrimSpace addr = ("tcp"%string, tcp_address host port, None).
Proof.
  assert (parseHost_switch (TrimSpace addr)
          = inl ("tcp"%string,
                 host +:+ String gostring.colon (strconv.FormatInt port)))
    as Hsw.
  { destruct Haddr as [-> | ->].
    - apply parseHost_switch_tcp. by destruct host.
    - apply parseHost_switch_bare;
        [done|apply FormatInt_colon_free|by apply FormatInt_head]. }
  unfold parseHost. rewrite Hsw.
  rewrite parseHost_address_tcp by (done || apply FormatInt_colon_free).
  rewrite ParseInt_FormatInt by done.
  by destruct (Z.eqb_spec port 0).
Qed.

Lemma X26_parse_host_tcp_witness :
  parseHost id "tcp://:2375" = ("tcp"%string, "127.0.0.1:2375"%string, None)
  ∧ parseHost id "docker.local:-5"
    = ("tcp"%string, "docker.local:-5"%string, None).
Proof.
  split.
  - apply (X26_parse_host_tcp id "tcp://:2375" "" 2375 eq_refl);
      [lia|by vm_compute|by left].
  - apply (X26_parse_host_tcp id "docker.local:-5" "docker.local" (-5) eq_refl);
      [lia|by vm_compute|by right].
Defined.

(** X27: [parseHost] on the other protocols.  A unix address is taken as it
    is, colons and all, and the default socket stands for a missing path;
    the empty address is the default socket too; and an fd address is
    returned whole, prefix included. *)
Theorem X27_parse_host_unix_fd (TrimSpace : string → string) (addr : string) :
  (∀ path, TrimSpace addr = "unix://" +:+ path →
     parseHost TrimSpace addr
     = ("unix"%string,
        if String.eqb path "" then "/var/run/docker.sock"%string else path,
        None))
  ∧ (TrimSpace addr = EmptyString →
     parseHost TrimSpace addr
     = ("unix"%string, "/var/run/docker.sock"%string, None))
  ∧ (∀ x, TrimSpace addr = "fd://" +:+ x →
     parseHost TrimSpace addr = ("fd"%string, "fd://" +:+ x, None)).
Proof.
  split; [|split].
  - intros path Ha. unfold parseHost. rewrite Ha. unfold parseHost_switch.
    assert (("unix://" +:+ path =? "tcp://")%string = false) as -> by done.
    unfold strings.HasPrefix at 1. rewrite prefix_append, TrimPrefix_append.
    apply parseHost_address_unix.
  - intros Ha. unfold parseHost. by rewrite Ha.
  - intros x Ha. unfold parseHost. rewrite Ha. unfold parseHost_switch.
    assert (("fd://" +:+ x =? "tcp://")%string = false) as -> by done.
    assert (strings.HasPrefix ("fd://" +:+ x) "unix://" = false) as -> by done.
    assert (strings.HasPrefix ("fd://" +:+ x) "tcp://" = false) as -> by done.
    unfold strings.HasPrefix. by rewrite prefix_append.
Qed.

Lemma X27_parse_host_unix_fd_witness :
  parseHost id "unix://" = ("unix"%string, "/var/run/docker.sock"%string, None)
  ∧ parseHost id "unix:///tmp/d:1.sock"
    = ("unix"%string, "/tmp/d:1.sock"%string, None)
  ∧ parseHost id "fd://3" = ("fd"%string, "fd://3"%string, None).
Proof.
  destruct (X27_parse_host_unix_fd id "unix://") as (H1 & _ & _).
  destruct (X27_parse_host_unix_fd id "unix:///tmp/d:1.sock") as (H2 & _ & _).
  destruct (X27_parse_host_unix_fd id "fd://3") as (_ & _ & H3).
  split; [exact (H1 EmptyString eq_refl)|].
  split; [exact (H2 "/tmp/d:1.sock"%string eq_refl)|].
  exact (H3 "3"%string eq_refl).
Defined.

(** X28: what [parseHost] can return.  Without error the protocol is unix
    with a non-empty path, or fd with the trimmed address itself, or tcp with
    an address [host:port] whose host is not empty and has no colon and
    whose port is an [int64] other than 0; with an error both strings are
    empty. *)
Theorem X28_parse_host_results (TrimSpace : string → string) (addr : string)
        (proto a : string) (err : option string)
        (Hresult : parseHost TrimSpace addr = (proto, a, err)) :
  (err = None
   ∧ ((proto = "unix"%string ∧ a ≠ EmptyString)
      ∨ (proto = "fd"%string ∧ a = TrimSpace addr)
      ∨ (proto = "tcp"%string
         ∧ ∃ host port,
             a = host +:+ ":" +:+ strconv.FormatInt port
             ∧ host ≠ EmptyString
             ∧ gostring.has_byte gostring.colon host = false
             ∧ port ≠ 0 ∧ int64.in_range port)))
  ∨ (err ≠ None ∧ proto = EmptyString ∧ a = EmptyString).
Proof.
  unfold parseHost in Hresult.
  pose proof (parseHost_switch_shape (TrimSpace addr)) as Hsw.
  destruct (parseHost_switch (TrimSpace addr)) as [[p x]|[[p x] e]].
  - destruct Hsw as [[-> Hx]| ->].
    + rewrite parseHost_address_unix in Hresult.
      injection Hresult as <- <- <-. left. split; [done|]. by left.
    + apply parseHost_address_tcp_shape in Hresult
        as [(-> & -> & Hex)|?]; [|by right].
      left. split; [done|]. right. by right.
  - injection Hresult as <- <- <-.
    destruct Hsw as [(-> & -> & ->)|?]; [|by right].
    left. split; [done|]. right. by left.
Qed.

Lemma X28_parse_host_results_witness :
  parseHost id "tcp://[::1]:2375"
  = (EmptyString, EmptyString,
     Some "Invalid bind address format: [::1]:2375"%string)
  ∧ ∃ msg, Some "Invalid bind address format: [::1]:2375"%string = Some msg.
Proof.
  assert (parseHost id "tcp://[::1]:2375"
          = (EmptyString, EmptyString,
             Some "Invalid bind address format: [::1]:2375"%string)) as H
    by reflexivity.
  split; [exact H|].
  destruct (X28_parse_host_results id _ _ _ _ H) as [[Hn _]|[Hs _]];
    [discriminate Hn|by eexists].
Defined.

(** X29: what [parseHost] rejects after ["tcp://"]: an address without
    colon or with more than one (so no IPv6 literal gets through), a port
    that is no number, and the port 0; and, whatever comes first, an address
    with ["://"] in it that starts with none of the three known prefixes.
    The error names the address: what follows ["tcp://"], or ["tcp://"]
    itself when nothing follows. *)
Theorem X29_parse_host_rejects (TrimSpace : string → string) (addr : string) :
  (∀ a, TrimSpace addr = "tcp://" +:+ a → colons a ≠ 1%nat →
        parseHost TrimSpace addr
        = format_error (if String.eqb a "" then "tcp://"%string else a))
  ∧ (∀ host port,
       TrimSpace addr = "tcp://" +:+ host +:+ ":" +:+ port →
       gostring.has_byte gostring.colon host = false →
       gostring.has_byte gostring.colon port = false →
       strconv.ParseInt port = None ∨ strconv.ParseInt port = Some 0 →
       parseHost TrimSpace addr = format_error (host +:+ ":" +:+ port))
  ∧ (strings.Contains (TrimSpace addr) "://" = true →
     strings.HasPrefix (TrimSpace addr) "unix://" = false →
     strings.HasPrefix (TrimSpace addr) "tcp://" = false →
     strings.HasPrefix (TrimSpace addr) "fd://" = false →
     parseHost TrimSpace addr
     = (EmptyString, EmptyString,
        Some ("Invalid bind address protocol: " +:+ TrimSpace addr))).
Proof.
  split; [|split].
  - intros a Ha Hcolons. unfold parseHost. rewrite Ha.
    destruct (String.eqb_spec a "") as [->|Hne]; [done|].
    rewrite parseHost_switch_tcp by done. unfold parseHost_address.
    change (negb ("tcp" =? "unix")%string) with true.
    change (("tcp" =? "tcp")%string) with true. cbn [andb].
    destruct (strings.Contains a ":"); cbn [negb]; [|done].
    rewrite Split_length.
    destruct (Nat.eqb_spec (S (colons a)) 2) as [?|_]; [lia|].
    done.
  - intros host port Ha Hh Hp Hbad. unfold parseHost. rewrite Ha.
    rewrite parseHost_switch_tcp by (by destruct host).
    change (host +:+ ":" +:+ port) with (host +:+ String gostring.colon port).
    rewrite parseHost_address_tcp by done.
    by destruct Hbad as [-> | ->].
  - intros Hc Hu Ht Hf. unfold parseHost, parseHost_switch.
    rewrite Hu, Ht, Hf, Hc.
    destruct (String.eqb_spec (TrimSpace addr) "tcp://") as [Heq|_].
    { rewrite Heq in Ht. done. }
    destruct (String.eqb_spec (TrimSpace addr) "") as [Heq|_]; [|done].
    rewrite Heq in Hc. done.
Qed.

Lemma X29_parse_host_rejects_witness :
  parseHost id "tcp://host:0" = format_error "host:0"
  ∧ parseHost id "http://host:80"
    = (EmptyString, EmptyString,
       Some "Invalid bind address protocol: http://host:80"%string).
Proof.
  destruct (X29_parse_host_rejects id "tcp://host:0") as (_ & Hport & _).
  destruct (X29_parse_host_rejects id "http://host:80") as (_ & _ & Hproto).
  split.
  - exact (Hport "host"%string "0"%string eq_refl eq_refl eq_refl
                 (or_intror eq_refl)).
  - exact (Hproto eq_refl eq_refl eq_refl eq_refl).
Defined.

(** X30: the tcp address that [parseHost] returns is in the form it reads:
    given back to [parseHost] (and left alone by the trimming) it comes out
    unchanged, again with the protocol tcp. *)
Theorem X30_parse_host_stable (TrimSpace : string → string)
        (addr a : string)
        (Hresult : parseHost TrimSpace addr = ("tcp"%string, a, None))
        (Htrim : TrimSpace a = a) :
  parseHost TrimSpace a = ("tcp"%string, a, None).
Proof.
  assert (∃ host port,
             a = host +:+ String gostring.colon (strconv.FormatInt port)
             ∧ host ≠ EmptyString
             ∧ gostring.has_byte gostring.colon host = false
             ∧ port ≠ 0 ∧ int64.in_range port)
    as (host & port & -> & Hne & Hh & Hp & Hr).
  { unfold parseHost in Hresult.
    pose proof (parseHost_switch_shape (TrimSpace addr)) as Hsw.
    destruct (parseHost_switch (TrimSpace addr)) as [[p x]|[[p x] e]].
    - destruct Hsw as [[-> Hx]| ->].
      + by rewrite parseHost_address_unix in Hresult.
      + apply parseHost_address_tcp_shape in Hresult
          as [(_ & _ & Hex)|(? & _)]; done.
    - injection Hresult as -> -> ->. by destruct Hsw as [(_ & ? & _)|(? & _)]. }
  unfold parseHost. rewrite Htrim.
  rewrite parseHost_switch_bare;
    [|done|apply FormatInt_colon_free|by apply FormatInt_head].
  rewrite parseHost_address_tcp by (done || apply FormatInt_colon_free).
  rewrite ParseInt_FormatInt by done.
  destruct (Z.eqb_spec port 0); [done|]. unfold tcp_address.
  by destruct (String.eqb_spec host "").
Qed.

Lemma X30_parse_host_stable_witness :
  parseHost id "tcp://:+2375" = ("tcp"%string, "127.0.0.1:2375"%string, None)
  ∧ parseHost id "127.0.0.1:2375"
    = ("tcp"%string, "127.0.0.1:2375"%string, None).
Proof.
  assert (parseHost id "tcp://:+2375"
          = ("tcp"%string, "127.0.0.1:2375"%string, None)) as H
    by reflexivity.
  split; [exact H|].
  exact (X30_parse_host_stable id "tcp://:+2375" "127.0.0.1:2375" H eq_refl).
Defined.
